(** * The Turso dialect of Sequelize: query execution, result shaping,
      error classification and the connection guard

    A shallow embedding of [packages/turso/src/query.js] and
    [packages/turso/src/connection-manager.ts], followed by the properties
    the specification states about them.

    Conventions of the embedding:
    - a JavaScript string is a [string]: a sequence of code units, here the
      8-bit ones (texts within Latin-1);
    - a JavaScript object used as a record of named values is an association
      list in [Object.keys] order;
    - the engine, the driver module and the file system are collaborators:
      their answers are parameters, the calls made to them are logged in a
      trace. *)

From Stdlib Require Import ZArith Ascii String List Lia Bool.
From stdpp Require Import base option list strings gmap pretty.

Local Open Scope string_scope.
Local Open Scope list_scope.

(** Appending to a string literal computes under [simpl]. *)
#[local] Arguments String.append !s1 s2 : simpl nomatch.

(** ** JavaScript values and the string primitives the dialect uses *)

Module JS.

(** Number values: the dialect only compares them (with [0], [1] and
    [Infinity]) or passes them through, so integral values and [Infinity]
    are all that is represented. *)
Inductive JsNumber : Type :=
| Finite (z : Z)
| PosInfinity.

(** Values crossing the adapter. [VObject] stands for any value compared
    by reference (a Buffer, a Date, an array), named by its reference. *)
Inductive JsValue : Type :=
| VUndefined
| VNull
| VBool (b : bool)
| VNumber (x : JsNumber)
| VString (s : string)
| VBigInt (n : Z)
| VObject (ref : positive).

#[global] Instance JsNumber_eq_dec : EqDecision JsNumber.
Proof. solve_decision. Defined.

#[global] Instance JsValue_eq_dec : EqDecision JsValue.
Proof. solve_decision. Defined.

(** [a === b] *)
Definition strictEq (a b : JsValue) : bool := bool_decide (a = b).

(** [n.toString()] on a bigint: plain decimal, a leading [-] when negative. *)
Definition bigintToString (n : Z) : string := pretty n.

(** An object holding named values: own enumerable string keys in
    [Object.keys] order, each key once. *)
Definition JsObject : Type := list (string * JsValue).

Definition keys (o : JsObject) : list string := map fst o.

(** [Object.hasOwn(o, k)] *)
Fixpoint hasOwn (o : JsObject) (k : string) : bool :=
  match o with
  | [] => false
  | (k', _) :: o' => if String.eqb k' k then true else hasOwn o' k
  end.

(** [o[k]] on an object without inherited properties *)
Fixpoint getProp (o : JsObject) (k : string) : JsValue :=
  match o with
  | [] => VUndefined
  | (k', v) :: o' => if String.eqb k' k then v else getProp o' k
  end.

(** [o[k] = v]: an existing key keeps its place, a new one goes last. *)
Fixpoint setProp (o : JsObject) (k : string) (v : JsValue) : JsObject :=
  match o with
  | [] => [(k, v)]
  | (k', v') :: o' =>
      if String.eqb k' k then (k', v) :: o' else (k', v') :: setProp o' k v
  end.

(** [s.startsWith(p)] *)
Fixpoint startsWith (p s : string) : bool :=
  match p, s with
  | EmptyString, _ => true
  | String a p', String b s' => if Ascii.eqb a b then startsWith p' s' else false
  | String _ _, EmptyString => false
  end.

(** [s.includes(p)] *)
Fixpoint includes (p s : string) : bool :=
  if startsWith p s then true
  else match s with
       | EmptyString => false
       | String _ s' => includes p s'
       end.

(** [s.slice(n)] *)
Fixpoint dropChars (n : nat) (s : string) : string :=
  match n, s with
  | O, _ => s
  | S n', String _ s' => dropChars n' s'
  | S _, EmptyString => EmptyString
  end.

(** Appending one code unit. *)
Definition snoc (s : string) (c : ascii) : string := s +:+ String c EmptyString.

(** [s.split(sep)] for a non-empty separator: [skip] counts the code units
    of a separator still to be passed over, [cur] is the piece being read. *)
Fixpoint splitFrom (sep : string) (skip : nat) (cur s : string) : list string :=
  match s with
  | EmptyString => [cur]
  | String c s' =>
      match skip with
      | S k => splitFrom sep k cur s'
      | O =>
          if startsWith sep s
          then cur :: splitFrom sep (String.length sep - 1) EmptyString s'
          else splitFrom sep O (snoc cur c) s'
      end
  end.

Definition split (sep s : string) : list string := splitFrom sep 0 EmptyString s.

(** [s.replaceAll(pat, rep)] for a non-empty pattern. *)
Fixpoint replaceAllFrom (pat rep : string) (skip : nat) (s : string) : string :=
  match s with
  | EmptyString => EmptyString
  | String c s' =>
      match skip with
      | S k => replaceAllFrom pat rep k s'
      | O =>
          if startsWith pat s
          then rep +:+ replaceAllFrom pat rep (String.length pat - 1) s'
          else String c (replaceAllFrom pat rep O s')
      end
  end.

Definition replaceAll (pat rep s : string) : string := replaceAllFrom pat rep 0 s.

(** [toLowerCase] on one code unit of the Latin-1 range: [A-Z] and the
    accented capitals (all of [0xC0-0xDE] but the multiplication sign). *)
Definition lowerChar (c : ascii) : ascii :=
  let n := nat_of_ascii c in
  if ((65 <=? n) && (n <=? 90))%nat then ascii_of_nat (n + 32)
  else if ((192 <=? n) && (n <=? 222) && negb (n =? 215))%nat then ascii_of_nat (n + 32)
  else c.

Fixpoint toLowerCase (s : string) : string :=
  match s with
  | EmptyString => EmptyString
  | String c s' => String (lowerChar c) (toLowerCase s')
  end.

(** The class [\w]: ASCII letters, digits and the underscore. *)
Definition isWordChar (c : ascii) : bool :=
  let n := nat_of_ascii c in
  (((48 <=? n) && (n <=? 57)) || ((65 <=? n) && (n <=? 90))
   || ((97 <=? n) && (n <=? 122)) || (n =? 95))%nat.

(** What [.] refuses: the line terminators (of the 8-bit range). *)
Definition isLineTerminator (c : ascii) : bool :=
  let n := nat_of_ascii c in ((n =? 10) || (n =? 13))%nat.

(** The longest run of code units satisfying [p] at the start of [s], and
    what follows it. *)
Fixpoint spanChars (p : ascii -> bool) (s : string) : string * string :=
  match s with
  | EmptyString => (EmptyString, EmptyString)
  | String c s' =>
      if p c then let '(run, rest) := spanChars p s' in (String c run, rest)
      else (EmptyString, s)
  end.

End JS.

Import JS.

(** ** Results of fallible calls *)

Inductive result (E A : Type) : Type :=
| Ok (a : A)
| Err (e : E).
Arguments Ok {E A} a.
Arguments Err {E A} e.

(** ** Computations that call collaborators and may throw *)

Module Effect.

(** A computation over a world [W] that returns an [A] or throws an [E]. *)
Definition M (W E A : Type) : Type := W -> result E A * W.

Definition ret {W E A : Type} (a : A) : M W E A := fun w => (Ok a, w).

Definition throw {W E A : Type} (e : E) : M W E A := fun w => (Err e, w).

Definition bind {W E A B : Type} (m : M W E A) (k : A -> M W E B) : M W E B :=
  fun w =>
    match m w with
    | (Ok a, w') => k a w'
    | (Err e, w') => (Err e, w')
    end.

(** [try { body } finally { cleanup }] *)
Definition tryFinally {W E A : Type} (body : M W E A) (cleanup : M W E unit) : M W E A :=
  fun w =>
    let '(r, w1) := body w in
    match cleanup w1 with
    | (Ok _, w2) => (r, w2)
    | (Err e, w2) => (Err e, w2)
    end.

(** [try { body } catch (error) { throw handler(error) }] *)
Definition rethrow {W E E' A : Type} (body : M W E A) (handler : E -> E') : M W E' A :=
  fun w =>
    match body w with
    | (Ok a, w') => (Ok a, w')
    | (Err e, w') => (Err (handler e), w')
    end.

(** [try { body } catch { }]: the error is dropped. *)
Definition swallow {W E E' : Type} (body : M W E unit) : M W E' unit :=
  fun w =>
    match body w with
    | (_, w') => (Ok tt, w')
    end.

End Effect.

Import Effect.

Notation "x <-- m ;; k" := (bind m (fun x => k))
  (at level 100, m at next level, right associativity).

(** ** The parameter binder ([run], [stringifyIfBigint],
       [_convertNamedParamsToPositional]) *)

Module Binder.

Definition stringifyIfBigint (value : JsValue) : JsValue :=
  match value with
  | VBigInt n => VString (bigintToString n)
  | _ => value
  end.

(** The parameter set a caller hands to [run]: nothing, an array, or a
    plain object. *)
Inductive Parameters : Type :=
| NoParameters
| Positional (values : list JsValue)
| Named (entries : JsObject).

(** The loop of [run] over [Object.keys(parameters)]: every key gets the
    sigil unless it has it, every value goes through [stringifyIfBigint]. *)
Definition normalizeKey (key : string) : string :=
  if startsWith "$" key then key else "$" +:+ key.

Fixpoint normalizeNamed (entries : JsObject) (newParameters : JsObject) : JsObject :=
  match entries with
  | [] => newParameters
  | (key, value) :: rest =>
      normalizeNamed rest (setProp newParameters (normalizeKey key) (stringifyIfBigint value))
  end.

(** The first lines of [executeSql]. *)
Definition prepareParameters (parameters : Parameters) : Parameters :=
  match parameters with
  | NoParameters => Positional (map stringifyIfBigint [])
  | Named entries => Named (normalizeNamed entries [])
  | Positional values => Positional (map stringifyIfBigint values)
  end.

(** One [paramRegex.exec(query)] of [/\$(\w+)/g], the text after
    [lastIndex] being [s]: the name captured by the leftmost match and the
    text after that match. *)
Fixpoint execParam (s : string) : option (string * string) :=
  match s with
  | EmptyString => None
  | String c s' =>
      if Ascii.eqb c "$"
      then match spanChars isWordChar s' with
           | (EmptyString, _) => execParam s'
           | (name, rest) => Some (name, rest)
           end
      else execParam s'
  end.

(** The [while] loop pushing every captured name; [fuel] bounds the number
    of iterations. *)
Fixpoint collectParamNames (fuel : nat) (s : string) : list string :=
  match fuel with
  | O => []
  | S fuel' =>
      match execParam s with
      | None => []
      | Some (name, rest) => name :: collectParamNames fuel' rest
      end
  end.

Definition paramNames (query : string) : list string :=
  collectParamNames (S (String.length query)) query.

(** [keys.find(key => !usedKeys.has(key))] *)
Fixpoint findUnused (keys : list string) (usedKeys : gset string) : option string :=
  match keys with
  | [] => None
  | key :: keys' =>
      if bool_decide (key ∈ usedKeys) then findUnused keys' usedKeys else Some key
  end.

(** The callback of [paramNames.map], with the set it updates. *)
Definition resolveName (namedParams : JsObject) (usedKeys : gset string) (name : string)
  : JsValue * gset string :=
  let prefixed := "$" +:+ name in
  if hasOwn namedParams prefixed then (getProp namedParams prefixed, {[ prefixed ]} ∪ usedKeys)
  else if hasOwn namedParams name then (getProp namedParams name, {[ name ]} ∪ usedKeys)
  else match findUnused (keys namedParams) usedKeys with
       | Some fallbackKey => (getProp namedParams fallbackKey, {[ fallbackKey ]} ∪ usedKeys)
       | None => (VNull, usedKeys)
       end.

Fixpoint resolveNames (namedParams : JsObject) (usedKeys : gset string) (names : list string)
  : list JsValue :=
  match names with
  | [] => []
  | name :: names' =>
      let '(value, usedKeys') := resolveName namedParams usedKeys name in
      value :: resolveNames namedParams usedKeys' names'
  end.

Definition _convertNamedParamsToPositional (query : string) (namedParams : JsObject)
  : list JsValue :=
  resolveNames namedParams ∅ (paramNames query).

End Binder.


(** ** The query object ([this]) *)

Module Query.

(** What the predicates inherited from [AbstractQuery] answer for the
    statement at hand. Their code belongs to the core package, so their
    answers are taken as they come. *)
Record Predicates : Type := {
  isInsertQuery : bool;
  isUpdateQuery : bool;
  isUpsertQuery : bool;
  isBulkUpdateQuery : bool;
  isDeleteQuery : bool;
  isShowConstraintsQuery : bool;
  isSelectQuery : bool;
  isShowOrDescribeQuery : bool;
  isRawQuery : bool
}.

(** [this.options], as far as the dialect reads it. *)
Record Options : Type := {
  returning : bool;
  plain : bool
}.

(** One call of [instance.set(key, value, { raw, comesFromDatabase })]. *)
Record SetCall : Type := {
  setKey : string;
  setValue : JsValue;
  setRaw : bool;
  setComesFromDatabase : bool
}.

(** The record instance a mutation was issued for: its [dataValues] (absent
    on an object that is no model instance) and the [set] calls received so
    far, oldest first. *)
Record ModelInstance : Type := {
  dataValues : option JsObject;
  setCalls : list SetCall
}.

(** An entry of [modelDefinition.columns]; [DataType] is the core's. *)
Record ColumnDefinition (DataType : Type) : Type := {
  attributeName : string;
  columnType : DataType
}.
Arguments attributeName {DataType} _.
Arguments columnType {DataType} _.

(** An entry of [model.getIndexes()]. Its field list is compared with the
    fields of an error by [isEqual], taken here as equality of the lists. *)
Record IndexDefinition : Type := {
  indexUnique : bool;
  indexFields : list JsValue;
  indexMsg : option string
}.

(** [this.model]: the column map of its definition and its indexes. *)
Record Model (DataType : Type) : Type := {
  columns : list (string * ColumnDefinition DataType);
  getIndexes : list IndexDefinition
}.
Arguments columns {DataType} _.
Arguments getIndexes {DataType} _.

Record QueryObject (DataType : Type) : Type := {
  predicates : Predicates;
  sql : string;
  options : Options;
  instance : option ModelInstance;
  model : option (Model DataType)
}.
Arguments predicates {DataType} _.
Arguments sql {DataType} _.
Arguments options {DataType} _.
Arguments instance {DataType} _.
Arguments model {DataType} _.

(** The two statement calls of the engine. *)
Inductive DatabaseMethod : Type :=
| MethodAll
| MethodRun.

Definition getDatabaseMethod {DataType : Type} (this : QueryObject DataType) : DatabaseMethod :=
  let p := predicates this in
  if isBulkUpdateQuery p || isInsertQuery p || isUpdateQuery p || isUpsertQuery p
  then (if returning (options this) then MethodAll else MethodRun)
  else if isDeleteQuery p
          || includes (toLowerCase "CREATE TEMPORARY TABLE") (toLowerCase (sql this))
  then MethodRun
  else MethodAll.

End Query.

(** ** The error classifier ([formatError]) *)

Module Classifier.

Import Query.

(** A raw engine error: its [code] (when it has one), its [message], and
    the [sql] that [run] attaches before classifying. *)
Record EngineError : Type := {
  code : option string;
  message : string;
  errorSql : option string
}.

(** [.*?] followed by the literal [next]: the shortest run of code units,
    none a line terminator, after which [next] stands. *)
Fixpoint lazyUntil (next s : string) : option string :=
  if startsWith next s then Some EmptyString
  else match s with
       | EmptyString => None
       | String c s' =>
           if isLineTerminator c then None
           else option_map (String c) (lazyUntil next s')
       end.

(** [message.match(/columns (.*?) are/)]: the capture of the leftmost match. *)
Fixpoint matchColumns (s : string) : option string :=
  match (if startsWith "columns " s then lazyUntil " are" (dropChars 8 s) else None) with
  | Some captured => Some captured
  | None =>
      match s with
      | EmptyString => None
      | String _ s' => matchColumns s'
      end
  end.

(** [message.match] with the pattern made of the literal
    [UNIQUE constraint failed: ] and a greedy capture of any code units: the
    capture of the leftmost match, which runs to the end of the line. *)
Fixpoint matchUniqueFailed (s : string) : option string :=
  if startsWith "UNIQUE constraint failed: " s
  then Some (fst (spanChars (fun c => negb (isLineTerminator c)) (dropChars 26 s)))
  else match s with
       | EmptyString => None
       | String _ s' => matchUniqueFailed s'
       end.

(** [columnWithTable.split('.')[1]] *)
Definition columnOf (columnWithTable : string) : JsValue :=
  match split "." columnWithTable with
  | _ :: column :: _ => VString column
  | _ => VUndefined
  end.

(** The [fields] of a constraint failure that is no foreign-key failure. *)
Definition extractFields (message : string) : list JsValue :=
  match matchColumns message with
  | Some captured => map VString (split ", " captured)
  | None =>
      match matchUniqueFailed message with
      | Some captured => map columnOf (split ", " captured)
      | None => []
      end
  end.

(** A [ValidationErrorItem], without the value and instance it also quotes. *)
Record ValidationErrorItem : Type := {
  itemMessage : string;
  itemType : string;
  itemPath : JsValue;
  itemValidatorKey : string
}.

Inductive ClassifiedError : Type :=
| ForeignKeyConstraintError (cause : EngineError)
| UniqueConstraintError (message : string) (errors : list ValidationErrorItem)
    (cause : EngineError) (fields : list JsValue)
| TimeoutError (cause : EngineError)
| DatabaseError (cause : EngineError).

(** The taxonomy of the specification. *)
Inductive ErrorKind : Type :=
| UniqueViolation
| ForeignKeyViolation
| BusyTimeout
| Generic.

Definition kind (e : ClassifiedError) : ErrorKind :=
  match e with
  | ForeignKeyConstraintError _ => ForeignKeyViolation
  | UniqueConstraintError _ _ _ _ => UniqueViolation
  | TimeoutError _ => BusyTimeout
  | DatabaseError _ => Generic
  end.

Definition cause (e : ClassifiedError) : EngineError :=
  match e with
  | ForeignKeyConstraintError c => c
  | UniqueConstraintError _ _ c _ => c
  | TimeoutError c => c
  | DatabaseError c => c
  end.

Definition constraintCodes : list string :=
  [ "SQLITE_CONSTRAINT_UNIQUE"; "SQLITE_CONSTRAINT_PRIMARYKEY"; "SQLITE_CONSTRAINT_TRIGGER";
    "SQLITE_CONSTRAINT_FOREIGNKEY"; "SQLITE_CONSTRAINT" ].

Definition codeIs (err : EngineError) (c : string) : bool :=
  match code err with
  | Some c' => String.eqb c' c
  | None => false
  end.

(** The loop over [this.model.getIndexes()] choosing the message. *)
Fixpoint indexMessage (indexes : list IndexDefinition) (fields : list JsValue) (default : string)
  : string :=
  match indexes with
  | [] => default
  | index :: rest =>
      match indexMsg index with
      | Some msg =>
          if indexUnique index && bool_decide (indexFields index = fields)
             && negb (String.eqb msg EmptyString)
          then msg
          else indexMessage rest fields default
      | None => indexMessage rest fields default
      end
  end.

Section FormatError.

Context {DataType : Type}.
(** [this.getUniqueConstraintErrorMessage], of the core package. *)
Variable getUniqueConstraintErrorMessage : JsValue -> string.

Definition formatError (this : QueryObject DataType) (err : EngineError) : ClassifiedError :=
  if existsb (codeIs err) constraintCodes then
    if includes "FOREIGN KEY constraint failed" (message err)
    then ForeignKeyConstraintError err
    else
      let fields := extractFields (message err) in
      let errors :=
        map (fun field =>
               {| itemMessage := getUniqueConstraintErrorMessage field;
                  itemType := "unique violation";
                  itemPath := field;
                  itemValidatorKey := "not_unique" |}) fields in
      let message :=
        match model this with
        | Some m => indexMessage (getIndexes m) fields "Validation error"
        | None => "Validation error"
        end in
      UniqueConstraintError message errors err fields
  else if codeIs err "SQLITE_BUSY" then TimeoutError err
  else DatabaseError err.

End FormatError.

End Classifier.

(** ** The statement runner ([run], [#allSeries], [#runSeries]) *)

Module Runner.

Import Query Classifier Binder.

(** The calls made on the engine connection and on its statements. A
    statement is named by its rank among the statements prepared so far. *)
Inductive Event : Type :=
| Prepare (stmt : nat) (query : string)
| StmtAll (stmt : nat) (args : list JsValue)
| StmtRun (stmt : nat) (args : list JsValue)
| StmtClose (stmt : nat).

(** What [stmt.run] resolves to. *)
Record RunInfo : Type := {
  changes : Z;
  lastInsertRowid : Z
}.

(** The [statement] part of a response. *)
Record Metadata : Type := {
  lastID : Z;
  metaChanges : Z
}.

Record Response (Row : Type) : Type := {
  statement : Metadata;
  results : list Row
}.
Arguments statement {Row} _.
Arguments results {Row} _.

(** The engine behind a connection: whether [prepare] throws, and what
    [stmt.all] and [stmt.run] settle to, each depending on and updating the
    engine's own state. *)
Class Engine (St Row : Type) : Type := {
  enginePrepare : string -> St -> option EngineError;
  engineAll : string -> list JsValue -> St -> result EngineError (list Row) * St;
  engineRun : string -> list JsValue -> St -> result EngineError RunInfo * St
}.

(** The world a query runs in: the engine, the calls made so far (oldest
    first) and the number of statements prepared. *)
Record World (St : Type) : Type := {
  engine : St;
  trace : list Event;
  prepared : nat
}.
Arguments engine {St} _.
Arguments trace {St} _.
Arguments prepared {St} _.

Definition emit {St : Type} (ev : Event) (w : World St) : World St :=
  {| engine := engine w; trace := trace w ++ [ev]; prepared := prepared w |}.

(** What [run] throws: a classified engine error, or whatever the response
    handler throws. *)
Inductive RunError (E : Type) : Type :=
| Classified (e : ClassifiedError)
| Unclassified (e : E).
Arguments Classified {E} e.
Arguments Unclassified {E} e.

Section Series.

Context {St Row DataType : Type} `{Engine St Row}.

(** [connection.prepare(query)] *)
Definition prepare (query : string) : M (World St) EngineError nat :=
  fun w =>
    match enginePrepare query (engine w) with
    | Some e => (Err e, w)
    | None =>
        let stmt := prepared w in
        (Ok stmt,
         {| engine := engine w; trace := trace w ++ [Prepare stmt query];
            prepared := S stmt |})
    end.

(** [await stmt.all(...args)] *)
Definition stmtAll (query : string) (stmt : nat) (args : list JsValue)
  : M (World St) EngineError (list Row) :=
  fun w =>
    let '(r, st') := engineAll query args (engine w) in
    (r, {| engine := st'; trace := trace w ++ [StmtAll stmt args]; prepared := prepared w |}).

(** [await stmt.run(...args)] *)
Definition stmtRun (query : string) (stmt : nat) (args : list JsValue)
  : M (World St) EngineError RunInfo :=
  fun w =>
    let '(r, st') := engineRun query args (engine w) in
    (r, {| engine := st'; trace := trace w ++ [StmtRun stmt args]; prepared := prepared w |}).

(** [stmt.close()] *)
Definition stmtClose (stmt : nat) : M (World St) EngineError unit :=
  fun w => (Ok tt, emit (StmtClose stmt) w).

(** The arguments spread into the statement call. *)
Definition spreadArguments (query : string) (parameters : Parameters) : list JsValue :=
  match parameters with
  | Positional values => values
  | Named namedParams => _convertNamedParamsToPositional query namedParams
  | NoParameters => []
  end.

Definition allSeries (query : string) (parameters : Parameters)
  : M (World St) EngineError (Response Row) :=
  stmt <-- prepare query ;;
  tryFinally
    (rows <-- stmtAll query stmt (spreadArguments query parameters) ;;
     ret {| statement := {| lastID := 0; metaChanges := 0 |}; results := rows |})
    (stmtClose stmt).

Definition runSeries (query : string) (parameters : Parameters)
  : M (World St) EngineError (Response Row) :=
  stmt <-- prepare query ;;
  tryFinally
    (info <-- stmtRun query stmt (spreadArguments query parameters) ;;
     ret {| statement := {| lastID := lastInsertRowid info; metaChanges := changes info |};
            results := [] |})
    (stmtClose stmt).

Definition withSql (this : QueryObject DataType) (text : string) : QueryObject DataType :=
  {| predicates := predicates this; sql := text; options := options this;
     instance := instance this; model := model this |}.

Definition annotate (text : string) (error : EngineError) : EngineError :=
  {| code := code error; message := message error; errorSql := Some text |}.

Variable getUniqueConstraintErrorMessage : JsValue -> string.

(** [run], up to the response: the query object with its [sql] set, and the
    response of the series chosen by [getDatabaseMethod]. *)
Definition execute (this : QueryObject DataType) (text : string) (parameters : Parameters)
  : M (World St) ClassifiedError (QueryObject DataType * Response Row) :=
  let this' := withSql this text in
  let method := getDatabaseMethod this' in
  let parameters' := prepareParameters parameters in
  response <-- rethrow
                (match method with
                 | MethodRun => runSeries text parameters'
                 | MethodAll => allSeries text parameters'
                 end)
                (fun error => formatError getUniqueConstraintErrorMessage this'
                                (annotate (sql this') error)) ;;
  ret (this', response).

(** [run]: [_handleQueryResponse] is the method of the query object, called
    outside the [try] that classifies engine errors. *)
Definition run {E A : Type}
    (_handleQueryResponse : QueryObject DataType -> Metadata -> list Row -> M (World St) E A)
    (this : QueryObject DataType) (text : string) (parameters : Parameters)
  : M (World St) (RunError E) A :=
  fun w =>
    match execute this text parameters w with
    | (Err e, w') => (Err (Classified e), w')
    | (Ok (this', response), w') =>
        match _handleQueryResponse this' (statement response) (results response) w' with
        | (Ok a, w'') => (Ok a, w'')
        | (Err e, w'') => (Err (Unclassified e), w'')
        end
    end.

End Series.

(** The statements prepared and not closed, in a trace. *)
Fixpoint openStatements (events : list Event) (opened : gset nat) : gset nat :=
  match events with
  | [] => opened
  | Prepare stmt _ :: rest => openStatements rest ({[ stmt ]} ∪ opened)
  | StmtClose stmt :: rest => openStatements rest (opened ∖ {[ stmt ]})
  | _ :: rest => openStatements rest opened
  end.

End Runner.

(** ** The result shaper ([_handleQueryResponse], [handleShowIndexesQuery]) *)

Module Shaper.

Import Query Runner.

(** The branch of [_handleQueryResponse] a response falls in, in the order
    the method tests them. *)
Inductive Branch : Type :=
| BMutation
| BBulkUpdate
| BDelete
| BShowConstraints
| BSelect
| BShowOrDescribe
| BShowIndexes
| BIndexInfo
| BTableInfo
| BRaw
| BInstance.

Definition responseBranch {DataType : Type} (this : QueryObject DataType) : Branch :=
  let p := predicates this in
  if isInsertQuery p || isUpdateQuery p || isUpsertQuery p then BMutation
  else if isBulkUpdateQuery p then BBulkUpdate
  else if isDeleteQuery p then BDelete
  else if isShowConstraintsQuery p then BShowConstraints
  else if isSelectQuery p then BSelect
  else if isShowOrDescribeQuery p then BShowOrDescribe
  else if includes "PRAGMA INDEX_LIST" (sql this) then BShowIndexes
  else if includes "PRAGMA INDEX_INFO" (sql this) then BIndexInfo
  else if includes "PRAGMA TABLE_INFO" (sql this) then BTableInfo
  else if isRawQuery p then BRaw
  else BInstance.

(** A row of [PRAGMA TABLE_INFO]: the column's name and declared type, its
    NOT NULL flag, the text of its DEFAULT clause ([null] without one) and
    its rank in the primary key. *)
Record TableInfoRow : Type := {
  name : string;
  type : string;
  notnull : Z;
  dflt_value : option string;
  pk : Z
}.

(** A row of [PRAGMA INDEX_LIST]. *)
Record IndexListRow : Type := {
  indexSeq : Z;
  indexName : string;
  indexUniqueFlag : Z;
  indexOrigin : string;
  indexPartial : Z
}.

(** A row of [PRAGMA INDEX_INFO]: the rank of the column within the index,
    its rank within the table, its name. *)
Record IndexInfoRow : Type := {
  seqno : nat;
  cid : Z;
  columnName : string
}.

(** The rows a response carries, by the branch that reads them. *)
Definition RowOf (b : Branch) : Type :=
  match b with
  | BShowIndexes => IndexListRow
  | BIndexInfo => IndexInfoRow
  | BTableInfo => TableInfoRow
  | _ => JsObject
  end.

(** What [_handleQueryResponse] throws; [E] is what the follow-up calls of
    [handleShowIndexesQuery] reject with. *)
Inductive ResponseError (E : Type) : Type :=
| EmptyResultError
| TypeError
| FollowUpError (e : E).
Arguments EmptyResultError {E}.
Arguments TypeError {E}.
Arguments FollowUpError {E} e.

(** *** Insert, update and upsert responses *)

Definition instanceSet (inst : ModelInstance) (key : string) (value : JsValue)
    (raw comesFromDatabase : bool) : ModelInstance :=
  {| dataValues := dataValues inst;
     setCalls := setCalls inst ++
       [ {| setKey := key; setValue := value; setRaw := raw;
            setComesFromDatabase := comesFromDatabase |} ] |}.

(** [modelDefinition.columns.get(name)] *)
Fixpoint columnsGet {DataType : Type} (cols : list (string * ColumnDefinition DataType))
    (key : string) : option (ColumnDefinition DataType) :=
  match cols with
  | [] => None
  | (k, c) :: cols' => if String.eqb k key then Some c else columnsGet cols' key
  end.

(** The first element of the mutation pair. *)
Inductive MutationTarget : Type :=
| TargetInstance (inst : ModelInstance)
| TargetRow (row : JsObject)
| TargetRows (rows : list JsObject).

Section Mutation.

Context {DataType : Type}.
(** [this._parseDatabaseValue], of the core package. *)
Variable _parseDatabaseValue : JsValue -> option DataType -> JsValue.

(** The body of the loop over [Object.keys(results[0])]. *)
Definition applyColumn (m : Model DataType) (row : JsObject) (inst : ModelInstance)
    (attributeOrColumnName : string) : ModelInstance :=
  let attribute := columnsGet (columns m) attributeOrColumnName in
  let updatedValue :=
    _parseDatabaseValue (getProp row attributeOrColumnName) (option_map columnType attribute) in
  instanceSet inst
    (match attribute with
     | Some a => attributeName a
     | None => attributeOrColumnName
     end)
    updatedValue true true.

(** The [set] call that [applyColumn] adds for a column of the returned row. *)
Definition columnSetCall (m : Model DataType) (row : JsObject) (column : string) : SetCall :=
  {| setKey := match columnsGet (columns m) column with
               | Some a => attributeName a
               | None => column
               end;
     setValue := _parseDatabaseValue (getProp row column)
                   (option_map columnType (columnsGet (columns m) column));
     setRaw := true;
     setComesFromDatabase := true |}.

(** The loop; reading [this.model.modelDefinition] throws without a model. *)
Fixpoint applyRow {E : Type} (m : option (Model DataType)) (row : JsObject)
    (names : list string) (inst : ModelInstance) : result (ResponseError E) ModelInstance :=
  match names with
  | [] => Ok inst
  | attributeOrColumnName :: rest =>
      match m with
      | None => Err TypeError
      | Some m' => applyRow m row rest (applyColumn m' row inst attributeOrColumnName)
      end
  end.

(** The block guarded by [this.instance && this.instance.dataValues]: the
    instance after it, when there is one. *)
Definition populateInstance {E : Type} (this : QueryObject DataType) (results : list JsObject)
  : result (ResponseError E) (option ModelInstance) :=
  match instance this with
  | None => Ok None
  | Some inst =>
      match dataValues inst with
      | None => Ok (Some inst)
      | Some _ =>
          if isInsertQuery (predicates this) && negb (isUpsertQuery (predicates this))
             && (length results =? 0)%nat
          then Err EmptyResultError
          else match results with
               | [] => Ok (Some inst)
               | row :: _ =>
                   match applyRow (model this) row (keys row) inst with
                   | Ok inst' => Ok (Some inst')
                   | Err e => Err e
                   end
               end
      end
  end.

(** [this.instance || (results && ((this.options.plain && results[0]) || results)) || undefined] *)
Definition mutationTarget (inst : option ModelInstance) (isPlain : bool) (results : list JsObject)
  : MutationTarget :=
  match inst with
  | Some i => TargetInstance i
  | None =>
      match isPlain, results with
      | true, row :: _ => TargetRow row
      | _, _ => TargetRows results
      end
  end.

End Mutation.

(** *** Table-info responses *)

(** An entry of the table description. *)
Record ColumnDescription : Type := {
  descType : string;
  allowNull : bool;
  defaultValue : JsValue;
  primaryKey : bool
}.

(** [{ 0: false, 1: true }[key]]: the key is looked up by its property
    name, which for a text is the text itself; the names of [undefined],
    [null] and the booleans are not in the table. *)
Definition booleanTable (key : JsValue) : JsValue :=
  match key with
  | VString s =>
      if String.eqb s "0" then VBool false
      else if String.eqb s "1" then VBool true
      else VUndefined
  | VNumber (Finite z) | VBigInt z =>
      if (z =? 0)%Z then VBool false
      else if (z =? 1)%Z then VBool true
      else VUndefined
  | _ => VUndefined
  end.

(** The three-way test on [_result.dflt_value]. *)
Definition rawDefault (_result : TableInfoRow) : JsValue :=
  match dflt_value _result with
  | None => VUndefined
  | Some text => if String.eqb text "NULL" then VNull else VString text
  end.

(** The body of the loop over the rows: the entry stored under the
    column's name. *)
Definition describeColumn (_result : TableInfoRow) : ColumnDescription :=
  let entry :=
    {| descType := type _result;
       allowNull := (notnull _result =? 0)%Z;
       defaultValue := rawDefault _result;
       primaryKey := negb (pk _result =? 0)%Z |} in
  let entry :=
    if String.eqb (descType entry) "TINYINT(1)"
    then {| descType := descType entry; allowNull := allowNull entry;
            defaultValue := booleanTable (defaultValue entry);
            primaryKey := primaryKey entry |}
    else entry in
  match defaultValue entry with
  | VString text =>
      {| descType := descType entry; allowNull := allowNull entry;
         defaultValue := VString (replaceAll "'" EmptyString text);
         primaryKey := primaryKey entry |}
  | _ => entry
  end.

Fixpoint describeTable (results : list TableInfoRow) (result : gmap string ColumnDescription)
  : gmap string ColumnDescription :=
  match results with
  | [] => result
  | _result :: rest => describeTable rest (<[ name _result := describeColumn _result ]> result)
  end.

(** *** Show-indexes responses *)

Record IndexField : Type := {
  attribute : string;
  fieldLength : JsValue;
  fieldOrder : JsValue
}.

(** An index as the caller receives it: the engine's row with [fields],
    [primary], [unique] and [constraintName] set on it. *)
Record IndexDescription : Type := {
  indexRow : IndexListRow;
  fields : list (option IndexField);
  primary : bool;
  unique : bool;
  constraintName : string
}.

(** [array[i] = v] on an array with holes: an index past the end extends
    the array, leaving holes in between. *)
Definition arraySet {A : Type} (array : list (option A)) (i : nat) (v : A) : list (option A) :=
  if (i <? length array)%nat then <[ i := Some v ]> array
  else array ++ replicate (i - length array) None ++ [Some v].

(** [array[i]]: nothing at a hole or past the end. *)
Definition arrayGet {A : Type} (array : list (option A)) (i : nat) : option A :=
  default None (array !! i).

(** The field entered for a column of the index. *)
Definition fieldOf (column : IndexInfoRow) : IndexField :=
  {| attribute := columnName column; fieldLength := VUndefined; fieldOrder := VUndefined |}.

(** The loop over the columns of the follow-up response. *)
Fixpoint fillFields (cols : list IndexInfoRow) (acc : list (option IndexField))
  : list (option IndexField) :=
  match cols with
  | [] => acc
  | column :: rest =>
      fillFields rest (arraySet acc (seqno column) (fieldOf column))
  end.

Definition describeIndex (item : IndexListRow) (cols : list IndexInfoRow) : IndexDescription :=
  {| indexRow := item;
     fields := fillFields cols [];
     primary := false;
     unique := negb (indexUniqueFlag item =? 0)%Z;
     constraintName := indexName item |}.

(** The statement of the follow-up call. *)
Definition indexInfoSql (item : IndexListRow) : string :=
  "PRAGMA INDEX_INFO(`" +:+ indexName item +:+ "`)".

Section ShowIndexes.

Context {W E : Type}.
(** [this.run] on a follow-up statement, up to the rows it resolves to. *)
Variable run : string -> M W E (list IndexInfoRow).

(** The callbacks of [map] up to their [await]: every follow-up call is
    issued, in order, whatever the earlier ones settle to. *)
Fixpoint issueFollowUps (items : list IndexListRow) (w : W)
  : list (IndexListRow * result E (list IndexInfoRow)) * W :=
  match items with
  | [] => ([], w)
  | item :: rest =>
      let '(r, w1) := run (indexInfoSql item) w in
      let '(settled, w2) := issueFollowUps rest w1 in
      ((item, r) :: settled, w2)
  end.

(** The world once the follow-up calls for [items] have been issued. *)
Definition afterFollowUps (items : list IndexListRow) (w : W) : W :=
  fold_left (fun w' item => snd (run (indexInfoSql item) w')) items w.

(** [Promise.all] over the callbacks: the shaped items when every call
    resolved, else a rejection (taken here from the first call, in issue
    order, that rejected). *)
Fixpoint collectAll (settled : list (IndexListRow * result E (list IndexInfoRow)))
  : result E (list IndexDescription) :=
  match settled with
  | [] => Ok []
  | (item, Err e) :: _ => Err e
  | (item, Ok cols) :: rest =>
      match collectAll rest with
      | Ok shaped => Ok (describeIndex item cols :: shaped)
      | Err e => Err e
      end
  end.

Definition handleShowIndexesQuery (data : list IndexListRow) : M W E (list IndexDescription) :=
  fun w =>
    let '(settled, w') := issueFollowUps (rev data) w in
    (collectAll settled, w').

End ShowIndexes.

(** The rows of a response, read as the rows of the branch it falls in. *)
Definition rowsAs {b b' : Branch} (same : b = b') (rows : list (RowOf b)) : list (RowOf b') :=
  eq_rect b (fun x => list (RowOf x)) rows b' same.

(** *** The method itself *)

(** What [_handleQueryResponse] returns; [Records] is what the core's
    [handleSelectQuery] builds. *)
Inductive ShapedResult (Records : Type) : Type :=
| UpsertResult (inst : option ModelInstance)
| MutationResult (target : MutationTarget) (count : Z)
| Selected (records : Records)
| Count (changed : Z)
| Rows (rows : list JsObject)
| Indexes (indexes : list IndexDescription)
| IndexInfo (rows : list IndexInfoRow)
| TableInfo (description : gmap string ColumnDescription)
| RawResult (rows : list JsObject) (metaData : Metadata)
| InstanceResult (inst : option ModelInstance).
Arguments UpsertResult {Records} inst.
Arguments MutationResult {Records} target count.
Arguments Selected {Records} records.
Arguments Count {Records} changed.
Arguments Rows {Records} rows.
Arguments Indexes {Records} indexes.
Arguments IndexInfo {Records} rows.
Arguments TableInfo {Records} description.
Arguments RawResult {Records} rows metaData.
Arguments InstanceResult {Records} inst.

Section HandleQueryResponse.

Context {W E DataType Records : Type}.
Variable _parseDatabaseValue : JsValue -> option DataType -> JsValue.
(** [this.handleSelectQuery], of the core package. *)
Variable handleSelectQuery : list JsObject -> Records.
Variable run : string -> M W E (list IndexInfoRow).

(** The first branch: lines 58 to 91. *)
Definition handleMutation (this : QueryObject DataType) (metaData : Metadata)
    (results : list JsObject) : result (ResponseError E) (ShapedResult Records) :=
  match populateInstance _parseDatabaseValue this results with
  | Err e => Err e
  | Ok inst =>
      if isUpsertQuery (predicates this) then Ok (UpsertResult inst)
      else Ok (MutationResult
                 (mutationTarget inst (plain (options this)) results)
                 (if returning (options this) then Z.of_nat (length results)
                  else metaChanges metaData))
  end.

Definition settle {A : Type} (r : result (ResponseError E) A) : M W (ResponseError E) A :=
  fun w => (r, w).

Definition _handleQueryResponse (this : QueryObject DataType) (metaData : Metadata)
  : list (RowOf (responseBranch this)) -> M W (ResponseError E) (ShapedResult Records) :=
  match responseBranch this as b
        return list (RowOf b) -> M W (ResponseError E) (ShapedResult Records) with
  | BMutation => fun results => settle (handleMutation this metaData results)
  | BBulkUpdate => fun results =>
      ret (if returning (options this) then Selected (handleSelectQuery results)
           else Count (metaChanges metaData))
  | BDelete => fun _ => ret (Count (metaChanges metaData))
  | BShowConstraints => fun results => ret (Rows results)
  | BSelect => fun results => ret (Selected (handleSelectQuery results))
  | BShowOrDescribe => fun results => ret (Rows results)
  | BShowIndexes => fun results =>
      indexes <-- rethrow (handleShowIndexesQuery run results) FollowUpError ;;
      ret (Indexes indexes)
  | BIndexInfo => fun results => ret (IndexInfo results)
  | BTableInfo => fun results => ret (TableInfo (describeTable results ∅))
  | BRaw => fun results => ret (RawResult results metaData)
  | BInstance => fun _ => ret (InstanceResult (instance this))
  end.

End HandleQueryResponse.

End Shaper.

(** ** The connection manager ([connect], [validate], [disconnect]) *)

Module ConnectionManager.

(** What the driver and the file system throw. *)
Record Failure : Type := {
  failureCode : option string;
  failureMessage : string
}.

(** [sequelize.pool.write], as far as the guard reads it. *)
Record WritePool : Type := {
  idleTimeoutMillis : JsValue;
  maxUsesPerResource : JsValue;
  maxSize : JsValue
}.

(** [sequelize.pool]: the write pool and, with read replication, a read pool. *)
Record Pool : Type := {
  write : WritePool;
  read : option WritePool
}.

Record ConnectionOptions : Type := {
  url : option string;
  authToken : option string;
  storage : option string;
  password : option string;
  enableWal : option bool
}.

(** A connection object: its [filename] and the flag kept under
    [CLOSED_SYMBOL] ([false] while the property is not set). *)
Record Connection : Type := {
  filename : option string;
  closedFlag : bool
}.

(** The calls made on the driver, the file system and the connections. *)
Inductive Event : Type :=
| LibConnect (target : string) (token : option string)
| CheckFileExists (dir : string)
| Mkdir (dir : string)
| ConnExec (conn : nat) (statement : string)
| ConnClose (conn : nat).

(** The connection objects by handle, and the calls made so far. *)
Record World : Type := {
  connections : gmap nat Connection;
  events : list Event
}.

(** The collaborators: the loading of the driver module, the driver, the
    connections it hands out, the file system, and the helpers of
    [node:path] and of the core package. *)
Class Driver : Type := {
  loadModule : option Failure;
  libConnect : string -> option string -> option Failure;
  connExec : nat -> string -> option Failure;
  connClose : nat -> option Failure;
  checkFileExists : string -> bool;
  mkdir : string -> option Failure;
  defaultStorage : string;
  dirname : string -> string;
  escape : string -> string
}.

(** The reasons the guard of temporary storage refuses a pool. *)
Inductive PoolViolation : Type :=
| ClosesIdleConnections
| ClosesUsedConnections (maxUses : JsValue)
| AllowsSeveralConnections
| ReadReplicationEnabled.

Inductive ConnectError : Type :=
| DriverMissing
| Thrown (e : Failure)
| AuthTokenRequired
| TemporaryStorage (violation : PoolViolation)
| ConnectionError (cause : Failure).

(** The errors of the specification's taxonomy raised before any engine
    interaction. *)
Definition isConfigurationError (e : ConnectError) : bool :=
  match e with
  | TemporaryStorage _ | AuthTokenRequired => true
  | _ => false
  end.

(** Truthiness of an optional string. *)
Definition given (s : option string) : bool :=
  match s with
  | Some text => negb (String.eqb text EmptyString)
  | None => false
  end.

Definition log (ev : Event) (w : World) : World :=
  {| connections := connections w; events := events w ++ [ev] |}.

(** The object a handle names; one not touched yet has no [filename] and
    no flag. *)
Definition connectionOf (w : World) (connection : nat) : Connection :=
  default {| filename := None; closedFlag := false |} (connections w !! connection).

(** The four tests made on the pool when the storage is temporary. *)
Definition temporaryStorageViolation (pool : Pool) : option PoolViolation :=
  let writePool := write pool in
  if negb (strictEq (idleTimeoutMillis writePool) (VNumber PosInfinity))
  then Some ClosesIdleConnections
  else if negb (strictEq (maxUsesPerResource writePool) (VNumber PosInfinity))
  then Some (ClosesUsedConnections (maxUsesPerResource writePool))
  else if negb (strictEq (maxSize writePool) (VNumber (Finite 1)))
  then Some AllowsSeveralConnections
  else match read pool with
       | Some _ => Some ReadReplicationEnabled
       | None => None
       end.

Section Connect.

Context `{Driver}.

(** [await lib.connect(target, ...)]: a new connection object on success. *)
Definition connectTo (target : string) (token : option string) : M World Failure nat :=
  fun w =>
    let w1 := log (LibConnect target token) w in
    match libConnect target token with
    | Some e => (Err e, w1)
    | None =>
        let conn := fresh (dom (connections w1)) in
        (Ok conn,
         {| connections := <[ conn := {| filename := None; closedFlag := false |} ]> (connections w1);
            events := events w1 |})
    end.

(** [await connection.exec(statement)] *)
Definition exec (conn : nat) (statement : string) : M World Failure unit :=
  fun w =>
    let w1 := log (ConnExec conn statement) w in
    match connExec conn statement with
    | Some e => (Err e, w1)
    | None => (Ok tt, w1)
    end.

(** [tursoConnection.filename = storage] *)
Definition setFilename (conn : nat) (name : string) : M World Failure unit :=
  fun w =>
    (Ok tt,
     {| connections :=
          <[ conn := {| filename := Some name;
                        closedFlag := closedFlag (connectionOf w conn) |} ]> (connections w);
        events := events w |}).

(** The [mkdir] of a missing storage directory. *)
Definition ensureDirectory (isTemporaryStorage : bool) (storageDir : string)
  : M World ConnectError unit :=
  fun w =>
    if isTemporaryStorage then (Ok tt, w)
    else
      let w1 := log (CheckFileExists storageDir) w in
      if checkFileExists storageDir then (Ok tt, w1)
      else
        let w2 := log (Mkdir storageDir) w1 in
        match mkdir storageDir with
        | Some e => (Err (Thrown e), w2)
        | None => (Ok tt, w2)
        end.

Definition when {E : Type} (b : bool) (m : M World E unit) : M World E unit :=
  if b then m else ret tt.

Definition moduleNotFound (e : Failure) : bool :=
  match failureCode e with
  | Some c => String.eqb c "ERR_MODULE_NOT_FOUND" || String.eqb c "MODULE_NOT_FOUND"
  | None => false
  end.

Definition connect (pool : Pool) (foreignKeys : option bool) (options : ConnectionOptions)
  : M World ConnectError nat :=
  match loadModule with
  | Some err => throw (if moduleNotFound err then DriverMissing else Thrown err)
  | None =>
      let isRemote := given (url options) in
      if isRemote then
        if negb (given (authToken options)) then throw AuthTokenRequired
        else rethrow (connectTo (default EmptyString (url options)) (authToken options)) ConnectionError
      else
        let storage := default defaultStorage (storage options) in
        let inMemory := String.eqb storage ":memory:" in
        let isTemporaryStorage := inMemory || String.eqb storage EmptyString in
        match (if isTemporaryStorage then temporaryStorageViolation pool else None) with
        | Some violation => throw (TemporaryStorage violation)
        | None =>
            let storageDir := dirname storage in
            _ <-- ensureDirectory isTemporaryStorage storageDir ;;
            rethrow
              (tursoConnection <-- connectTo storage None ;;
               _ <-- setFilename tursoConnection storage ;;
               _ <-- when (given (password options))
                       (exec tursoConnection
                          ("PRAGMA KEY=" +:+ escape (default EmptyString (password options)))) ;;
               _ <-- when (negb (bool_decide (foreignKeys = Some false)))
                       (exec tursoConnection "PRAGMA foreign_keys = ON") ;;
               _ <-- when (negb (bool_decide (enableWal options = Some false)) && negb isRemote)
                       (swallow (exec tursoConnection "PRAGMA journal_mode = WAL")) ;;
               ret tursoConnection)
              ConnectionError
        end
  end.

(** [connection[CLOSED_SYMBOL]] *)
Definition closed (w : World) (connection : nat) : bool :=
  closedFlag (connectionOf w connection).

Definition validate (w : World) (connection : nat) : bool :=
  negb (closed w connection).

(** [connection[CLOSED_SYMBOL] = true] *)
Definition markClosed (connection : nat) : M World Failure unit :=
  fun w =>
    (Ok tt,
     {| connections :=
          <[ connection := {| filename := filename (connectionOf w connection);
                              closedFlag := true |} ]> (connections w);
        events := events w |}).

(** [await connection.close()] *)
Definition close (connection : nat) : M World Failure unit :=
  fun w =>
    let w1 := log (ConnClose connection) w in
    match connClose connection with
    | Some e => (Err e, w1)
    | None => (Ok tt, w1)
    end.

Definition disconnect (connection : nat) : M World Failure unit :=
  fun w =>
    if closed w connection then (Ok tt, w)
    else rethrow (_ <-- close connection ;; markClosed connection) (fun err => err) w.

End Connect.

End ConnectionManager.

(** ** The limit and offset clauses ([addLimitAndOffset]) *)

Module QueryGenerator.

(** [!!value] *)
Definition truthy (value : JsValue) : bool :=
  match value with
  | VUndefined | VNull => false
  | VBool b => b
  | VNumber (Finite z) => negb (z =? 0)%Z
  | VNumber PosInfinity => true
  | VString s => negb (String.eqb s EmptyString)
  | VBigInt n => negb (n =? 0)%Z
  | VObject _ => true
  end.

(** [value != null] *)
Definition notNullish (value : JsValue) : bool :=
  match value with
  | VUndefined | VNull => false
  | _ => true
  end.

(** The options [addLimitAndOffset] reads; a property left out is
    [undefined]. *)
Record AddLimitOffsetOptions : Type := {
  limit : JsValue;
  offset : JsValue
}.

Section AddLimitAndOffset.

(** [this.queryGenerator.escape], of the core package. *)
Variable escape : JsValue -> AddLimitOffsetOptions -> string.

Definition addLimitAndOffset (options : AddLimitOffsetOptions) : string :=
  let fragment := EmptyString in
  let fragment :=
    if notNullish (limit options)
    then fragment +:+ " LIMIT " +:+ escape (limit options) options
    else if truthy (offset options)
    then fragment +:+ " LIMIT -1"
    else fragment in
  let fragment :=
    if truthy (offset options)
    then fragment +:+ " OFFSET " +:+ escape (offset options) options
    else fragment in
  fragment.

End AddLimitAndOffset.

End QueryGenerator.

(** ** The models of an include list ([_collectModels]) *)

Module ModelCollector.

#[local] Set Warnings "-register-all".

(** An entry of an [include] list: its alias ([as]), its model and the
    entries nested under it ([include], which may be left out). *)
Inductive Include : Type :=
| mkInclude (includeAs : string) (includeModel : JsValue) (nested : option (list Include)).

Definition includeAs (_include : Include) : string :=
  match _include with mkInclude alias _ _ => alias end.

Definition includeModel (_include : Include) : JsValue :=
  match _include with mkInclude _ model _ => model end.

Definition nested (_include : Include) : option (list Include) :=
  match _include with mkInclude _ _ children => children end.

(** The key of an alias: the alias itself when [prefix] is falsy (left out
    or empty), else the prefix, a dot and the alias. *)
Definition keyOf (prefix : option string) (alias : string) : string :=
  match prefix with
  | None => alias
  | Some text => if String.eqb text EmptyString then alias else text +:+ "." +:+ alias
  end.

Section CollectModels.

(** lodash's [merge(object, source)], up to what it leaves in [object]. *)
Variable merge : JsObject -> JsObject -> JsObject.

(** The body of the loop over [include], on the object it fills. *)
Fixpoint collectInto (prefix : option string) (ret : JsObject) (_include : Include)
  : JsObject :=
  match _include with
  | mkInclude alias model children =>
      let key := keyOf prefix alias in
      let ret := setProp ret key model in
      match children with
      | Some entries => merge ret (fold_left (collectInto (Some key)) entries [])
      | None => ret
      end
  end.

Definition _collectModels (include : option (list Include)) (prefix : option string)
  : JsObject :=
  match include with
  | Some entries => fold_left (collectInto prefix) entries []
  | None => []
  end.

End CollectModels.

End ModelCollector.

(** ** The loading of the driver module ([loadDefaultTursoModule], [#getLib]) *)

Module ModuleLoader.

Import ConnectionManager.

(** The loading of the driver module, for calls that do not overlap: each
    call of [#getLib] settles before the next one starts. Between two
    calls a variable that holds a promise then holds a fulfilled one: a
    pending promise only lives during a call, and a rejected one is reset
    by its [catch] before the call settles. *)

Section Loader.

Context {TursoModule : Type}.

(** What the dynamic [import] settles to, attempt after attempt. *)
Variable importModule : nat -> result Failure TursoModule.

(** The variables of the module: the cached driver, the promise of the
    import (taken by what it is fulfilled with), and the number of imports
    started so far. *)
Record Globals : Type := {
  cachedDefaultModule : option TursoModule;
  defaultModulePromise : option TursoModule;
  imports : nat
}.

(** The private fields [#lib] and [#libPromise] of a connection manager. *)
Record Manager : Type := {
  lib : option TursoModule;
  libPromise : option TursoModule
}.

(** The constructor: [#lib] is the module given in the dialect options,
    when one is given. *)
Definition newManager (tursoModule : option TursoModule) : Manager :=
  {| lib := tursoModule; libPromise := None |}.

Definition loadDefaultTursoModule : M Globals Failure TursoModule :=
  fun g =>
    match cachedDefaultModule g with
    | Some module => (Ok module, g)
    | None =>
        match defaultModulePromise g with
        | Some module => (Ok module, g)
        | None =>
            match importModule (imports g) with
            | Ok module =>
                (Ok module,
                 {| cachedDefaultModule := Some module;
                    defaultModulePromise := Some module;
                    imports := S (imports g) |})
            | Err error =>
                (Err error,
                 {| cachedDefaultModule := cachedDefaultModule g;
                    defaultModulePromise := None;
                    imports := S (imports g) |})
            end
        end
    end.

(** [#getLib], on the fields of its manager and the variables of the
    module. *)
Definition getLib : M (Manager * Globals) Failure TursoModule :=
  fun '(this, g) =>
    match lib this with
    | Some module => (Ok module, (this, g))
    | None =>
        match libPromise this with
        | Some module => (Ok module, (this, g))
        | None =>
            match loadDefaultTursoModule g with
            | (Ok module, g') =>
                (Ok module, ({| lib := Some module; libPromise := Some module |}, g'))
            | (Err error, g') =>
                (Err error, ({| lib := lib this; libPromise := None |}, g'))
            end
        end
    end.

End Loader.

Arguments Globals : clear implicits.
Arguments Manager : clear implicits.

End ModuleLoader.

(** ** The binder as the specification words it *)

Module BinderSpec.

(** A placeholder occurs in [s]: a sigil directly followed by a word
    character. *)
Definition hasPlaceholder (s : string) : Prop :=
  exists pre c post, s = pre +:+ String "$" (String c post) /\ isWordChar c = true.

(** Every code unit of [s] is a word character. *)
Fixpoint allWord (s : string) : bool :=
  match s with
  | EmptyString => true
  | String c s' => isWordChar c && allWord s'
  end.

(** [s] does not go on with a word character. *)
Definition endsName (s : string) : bool :=
  match s with
  | EmptyString => true
  | String c _ => negb (isWordChar c)
  end.

(** The names referenced by a text, read left to right: each placeholder is
    the first one after the previous, and its name runs as far as word
    characters go. *)
Inductive Placeholders : string -> list string -> Prop :=
| Placeholders_none (s : string) :
    ~ hasPlaceholder s -> Placeholders s []
| Placeholders_next (pre name rest : string) (names : list string) :
    ~ hasPlaceholder pre ->
    name <> EmptyString -> allWord name = true -> endsName rest = true ->
    Placeholders rest names ->
    Placeholders (pre +:+ String "$" (name +:+ rest)) (name :: names).

(** The values bound to a list of names, given the keys consumed so far:
    the sigil-prefixed key, else the bare key, else the first key not yet
    consumed, else null. *)
Inductive Resolves (namedParams : JsObject) : gset string -> list string -> list JsValue -> Prop :=
| Resolves_done (used : gset string) :
    Resolves namedParams used [] []
| Resolves_prefixed (used : gset string) (name : string) (names : list string)
    (values : list JsValue) :
    hasOwn namedParams ("$" +:+ name) = true ->
    Resolves namedParams ({[ "$" +:+ name ]} ∪ used) names values ->
    Resolves namedParams used (name :: names) (getProp namedParams ("$" +:+ name) :: values)
| Resolves_bare (used : gset string) (name : string) (names : list string)
    (values : list JsValue) :
    hasOwn namedParams ("$" +:+ name) = false ->
    hasOwn namedParams name = true ->
    Resolves namedParams ({[ name ]} ∪ used) names values ->
    Resolves namedParams used (name :: names) (getProp namedParams name :: values)
| Resolves_fallback (used : gset string) (name : string) (names : list string)
    (values : list JsValue) (before after : list string) (key : string) :
    hasOwn namedParams ("$" +:+ name) = false ->
    hasOwn namedParams name = false ->
    keys namedParams = before ++ key :: after ->
    (forall k, k ∈ before -> k ∈ used) ->
    key ∉ used ->
    Resolves namedParams ({[ key ]} ∪ used) names values ->
    Resolves namedParams used (name :: names) (getProp namedParams key :: values)
| Resolves_null (used : gset string) (name : string) (names : list string)
    (values : list JsValue) :
    hasOwn namedParams ("$" +:+ name) = false ->
    hasOwn namedParams name = false ->
    (forall k, k ∈ keys namedParams -> k ∈ used) ->
    Resolves namedParams used names values ->
    Resolves namedParams used (name :: names) (VNull :: values).

End BinderSpec.

(** ** The classification of the specification *)

Module ClassificationSpec.

Import Query.

(** Modelled from the spec: the tag of a request, of which exactly one
    applies (section 3, QueryClassification). The predicates that tell the
    tags apart are methods of the core's [AbstractQuery]. *)
Inductive QueryClassification : Type :=
| Insert
| BulkUpdate
| Update
| Upsert
| Delete
| Select
| ShowOrDescribe
| ShowConstraints
| ShowIndexes
| ShowTableInfo
| Raw.

#[global] Instance QueryClassification_eq_dec : EqDecision QueryClassification.
Proof. solve_decision. Defined.

(** Modelled from the spec: the answers of the predicates of
    [AbstractQuery] on a request that carries the tag [c] and no other; the
    two introspection tags without a predicate are told by the text of the
    statement. *)
Definition tagPredicates (c : QueryClassification) : Predicates :=
  {| isInsertQuery := bool_decide (c = Insert);
     isUpdateQuery := bool_decide (c = Update);
     isUpsertQuery := bool_decide (c = Upsert);
     isBulkUpdateQuery := bool_decide (c = BulkUpdate);
     isDeleteQuery := bool_decide (c = Delete);
     isShowConstraintsQuery := bool_decide (c = ShowConstraints);
     isSelectQuery := bool_decide (c = Select);
     isShowOrDescribeQuery := bool_decide (c = ShowOrDescribe);
     isRawQuery := bool_decide (c = Raw) |}.

(** A raw statement creating a temporary table, without row-returning
    output requested. *)
Definition temporaryTableQuery : QueryObject unit :=
  {| predicates := tagPredicates Raw;
     sql := "CREATE TEMPORARY TABLE t (id INTEGER)";
     options := {| returning := false; plain := false |};
     instance := None;
     model := None |}.

End ClassificationSpec.

(** ** The error patterns as the specification words them *)

Module ClassifierSpec.

Import Classifier.

(** [s] contains [p]. *)
Definition contains (p s : string) : Prop :=
  exists pre post, s = pre +:+ p +:+ post.

(** No code unit of [s] is a line terminator. *)
Fixpoint lineFree (s : string) : bool :=
  match s with
  | EmptyString => true
  | String c s' => negb (isLineTerminator c) && lineFree s'
  end.

(** [s] is empty or begins with a line terminator. *)
Definition endsLine (s : string) : bool :=
  match s with
  | EmptyString => true
  | String c _ => isLineTerminator c
  end.

(** After [pre], [s] reads [columns X are], with [X] within a line. *)
Definition columnsAt (s pre x : string) : Prop :=
  exists post, s = pre +:+ "columns " +:+ x +:+ " are" +:+ post /\ lineFree x = true.

(** The [X] of the older message form: the leftmost [columns X are], and
    at that place the shortest [X]. *)
Definition ColumnsMatch (s x : string) : Prop :=
  exists pre,
    columnsAt s pre x
    /\ forall pre' x', columnsAt s pre' x' ->
         String.length pre < String.length pre'
         \/ (String.length pre = String.length pre' /\ String.length x <= String.length x').

(** After [pre], [s] reads [UNIQUE constraint failed: ] and then [x], which
    runs to the end of the line. *)
Definition uniqueAt (s pre x : string) : Prop :=
  exists post,
    s = pre +:+ "UNIQUE constraint failed: " +:+ x +:+ post
    /\ lineFree x = true /\ endsLine post = true.

(** The list of the newer message form: what follows the leftmost
    [UNIQUE constraint failed: ]. *)
Definition UniqueMatch (s x : string) : Prop :=
  exists pre,
    uniqueAt s pre x
    /\ forall pre' x', uniqueAt s pre' x' -> String.length pre <= String.length pre'.

(** The fields of a uniqueness failure: the names listed by the older
    form; failing that, the columns listed by the newer form, each without
    its table prefix; failing both, none. *)
Inductive Fields (message : string) : list JsValue -> Prop :=
| Fields_columns (x : string) :
    ColumnsMatch message x ->
    Fields message (map VString (split ", " x))
| Fields_unique (x : string) :
    (forall x', ~ ColumnsMatch message x') ->
    UniqueMatch message x ->
    Fields message (map columnOf (split ", " x))
| Fields_none :
    (forall x, ~ ColumnsMatch message x) ->
    (forall x, ~ UniqueMatch message x) ->
    Fields message [].

(** The codes of the constraint family. *)
Definition constraintFamily (c : option string) : Prop :=
  c = Some "SQLITE_CONSTRAINT_UNIQUE" \/ c = Some "SQLITE_CONSTRAINT_PRIMARYKEY"
  \/ c = Some "SQLITE_CONSTRAINT_TRIGGER" \/ c = Some "SQLITE_CONSTRAINT_FOREIGNKEY"
  \/ c = Some "SQLITE_CONSTRAINT".

(** No code unit of [s] is [a]. *)
Fixpoint charFree (a : ascii) (s : string) : bool :=
  match s with
  | EmptyString => true
  | String c s' => negb (Ascii.eqb a c) && charFree a s'
  end.

(** The pieces, with [sep] between them. *)
Fixpoint join (sep : string) (pieces : list string) : string :=
  match pieces with
  | [] => EmptyString
  | [piece] => piece
  | piece :: rest => piece +:+ sep +:+ join sep rest
  end.

(** A column named with its table. *)
Definition qualified (column : string * string) : string :=
  fst column +:+ "." +:+ snd column.

(** A table or column name that the newer message form can list: on one
    line, without dot or comma. *)
Definition plainName (s : string) : bool :=
  lineFree s && charFree "." s && charFree "," s.

End ClassifierSpec.

(** ** The table-info defaults as the specification words them *)

Module ShaperSpec.

Import Shaper.

(** The last code unit of a text, and the text before it. *)
Fixpoint unsnoc (s : string) : option (string * ascii) :=
  match s with
  | EmptyString => None
  | String c s' =>
      match unsnoc s' with
      | None => Some (EmptyString, c)
      | Some (front, final) => Some (String c front, final)
      end
  end.

(** A string literal loses the quote that opens it and the quote that
    closes it; any other text is kept. *)
Definition stripSurroundingQuotes (text : string) : string :=
  match text with
  | String "'" inner =>
      match unsnoc inner with
      | Some (body, "'"%char) => body
      | _ => text
      end
  | _ => text
  end.

(** The default of a column as the specification describes it: none
    without a DEFAULT clause, an explicit null for the text [NULL], a
    boolean for [0] or [1] on a [TINYINT(1)] column, else the text without
    its surrounding quotes. *)
Definition specifiedDefault (row : TableInfoRow) : JsValue :=
  match dflt_value row with
  | None => VUndefined
  | Some text =>
      if String.eqb text "NULL" then VNull
      else if String.eqb (type row) "TINYINT(1)" && String.eqb text "0" then VBool false
      else if String.eqb (type row) "TINYINT(1)" && String.eqb text "1" then VBool true
      else VString (stripSurroundingQuotes text)
  end.

(** No code unit of [s] is a single quote. *)
Fixpoint quoteFree (s : string) : bool :=
  match s with
  | EmptyString => true
  | String c s' => negb (Ascii.eqb c "'") && quoteFree s'
  end.

End ShaperSpec.

(** ** Sample requests *)

Module Samples.

Import Query Classifier Runner Shaper ConnectionManager.

(** An insert of a user whose row comes back with the generated [id]. *)
Definition insertedUser : QueryObject unit :=
  {| predicates :=
       {| isInsertQuery := true; isUpdateQuery := false; isUpsertQuery := false;
          isBulkUpdateQuery := false; isDeleteQuery := false; isShowConstraintsQuery := false;
          isSelectQuery := false; isShowOrDescribeQuery := false; isRawQuery := false |};
     sql := "INSERT INTO `Users` (`id`,`username`) VALUES (NULL,$sequelize_1) RETURNING *";
     options := {| returning := true; plain := false |};
     instance := Some {| dataValues := Some [("username", VString "testuser1")];
                         setCalls := [] |};
     model := Some {| columns := [("id", {| attributeName := "id"; columnType := tt |});
                                  ("user_name", {| attributeName := "username";
                                                   columnType := tt |})];
                      getIndexes := [] |} |}.

(** The row of the specification's scenario. *)
Definition activeColumn : TableInfoRow :=
  {| name := "active"; type := "TINYINT(1)"; dflt_value := Some "1"; notnull := 0; pk := 0 |}.

(** A text column whose default is a literal with an escaped quote in it. *)
Definition noteColumn : TableInfoRow :=
  {| name := "note"; type := "TEXT"; dflt_value := Some "'it''s'"; notnull := 0; pk := 0 |}.

(** A boolean column declared [DEFAULT NULL], and the same without default. *)
Definition flagColumn (dflt : option string) : TableInfoRow :=
  {| name := "flag"; type := "TINYINT(1)"; dflt_value := dflt; notnull := 0; pk := 0 |}.

(** The uniqueness failure of the specification's scenario. *)
Definition duplicateUser : EngineError :=
  {| code := Some "SQLITE_CONSTRAINT_UNIQUE";
     message := "UNIQUE constraint failed: users.email, users.username";
     errorSql := None |}.

(** A query object with nothing attached. *)
Definition bareQuery : QueryObject unit :=
  {| predicates :=
       {| isInsertQuery := true; isUpdateQuery := false; isUpsertQuery := false;
          isBulkUpdateQuery := false; isDeleteQuery := false; isShowConstraintsQuery := false;
          isSelectQuery := false; isShowOrDescribeQuery := false; isRawQuery := false |};
     sql := "INSERT INTO users (email, username) VALUES ($1, $2)";
     options := {| returning := false; plain := false |};
     instance := None;
     model := None |}.

(** An engine over a table of users that holds [n] rows: [all] answers a
    statement on [missing] with an error and any other with the rows, [run]
    adds a row and reports it. *)
Definition usersEngine : Engine nat JsObject :=
  {| enginePrepare := fun query _ =>
       if includes "syntax" query
       then Some {| code := Some "SQLITE_ERROR"; message := "near syntax"; errorSql := None |}
       else None;
     engineAll := fun query _ n =>
       if includes "missing" query
       then (Err {| code := Some "SQLITE_ERROR"; message := "no such table: missing";
                    errorSql := None |}, n)
       else (Ok (map (fun i => [("id", VNumber (Finite (Z.of_nat i)))]) (seq 1 n)), n);
     engineRun := fun _ _ n =>
       (Ok {| changes := 1; lastInsertRowid := Z.of_nat (S n) |}, S n) |}.

(** A fresh connection to a table of two users. *)
Definition twoUsers : Runner.World nat :=
  {| engine := 2; trace := []; prepared := 0 |}.

(** A select on the query object. *)
Definition selectQuery : QueryObject unit :=
  {| predicates :=
       {| isInsertQuery := false; isUpdateQuery := false; isUpsertQuery := false;
          isBulkUpdateQuery := false; isDeleteQuery := false; isShowConstraintsQuery := false;
          isSelectQuery := true; isShowOrDescribeQuery := false; isRawQuery := false |};
     sql := EmptyString;
     options := {| returning := false; plain := false |};
     instance := None;
     model := None |}.

(** The follow-up call on a table with two indexes, the calls being logged:
    [users_email] covers [email]; [users_name] covers [last] then [first],
    reported out of order. *)
Definition indexInfo : string -> M (list string) unit (list IndexInfoRow) :=
  fun statement calls =>
    (if includes "users_email" statement
     then Ok [ {| seqno := 0; cid := 3; columnName := "email" |} ]
     else if includes "users_name" statement
     then Ok [ {| seqno := 1; cid := 1; columnName := "first" |};
               {| seqno := 0; cid := 2; columnName := "last" |} ]
     else Err tt,
     calls ++ [statement]).

(** The rows of [PRAGMA INDEX_LIST] for that table: last defined first. *)
Definition indexList : list IndexListRow :=
  [ {| indexSeq := 0; indexName := "users_name"; indexUniqueFlag := 0; indexOrigin := "c";
       indexPartial := 0 |};
    {| indexSeq := 1; indexName := "users_email"; indexUniqueFlag := 1; indexOrigin := "c";
       indexPartial := 0 |} ].

(** A driver that loads and whose calls all succeed. *)
Definition workingDriver : Driver :=
  {| loadModule := None;
     libConnect := fun _ _ => None;
     connExec := fun _ _ => None;
     connClose := fun _ => None;
     checkFileExists := fun _ => true;
     mkdir := fun _ => None;
     defaultStorage := "/srv/app/sequelize.turso";
     dirname := fun path => path;
     escape := fun text => text |}.

(** A driver whose connections refuse to close. *)
Definition stuckDriver : Driver :=
  {| loadModule := None;
     libConnect := fun _ _ => None;
     connExec := fun _ _ => None;
     connClose := fun _ => Some {| failureCode := None; failureMessage := "database is locked" |};
     checkFileExists := fun _ => true;
     mkdir := fun _ => None;
     defaultStorage := "/srv/app/sequelize.turso";
     dirname := fun path => path;
     escape := fun text => text |}.

(** The pool of the specification's scenario: five connections at most,
    nothing else to object to. *)
Definition poolOfFive : Pool :=
  {| write := {| idleTimeoutMillis := VNumber PosInfinity;
                 maxUsesPerResource := VNumber PosInfinity;
                 maxSize := VNumber (Finite 5) |};
     read := None |}.

Definition memoryOptions : ConnectionOptions :=
  {| url := None; authToken := None; storage := Some ":memory:"; password := None;
     enableWal := None |}.

(** No connection yet, no call made. *)
Definition emptyWorld : World := {| connections := ∅; events := [] |}.

(** One open connection, under handle 0. *)
Definition oneConnection : World :=
  {| connections := {[ 0 := {| filename := Some ":memory:"; closedFlag := false |} ]};
     events := [] |}.

End Samples.

(** ** Further samples *)

Module MoreSamples.

Import Query Classifier Runner Shaper ConnectionManager ModuleLoader Samples.

(** The insert of a user for which no row is asked back. *)
Definition insertedQuietly : QueryObject unit :=
  {| predicates := predicates insertedUser;
     sql := EmptyString;
     options := {| returning := false; plain := false |};
     instance := instance insertedUser;
     model := model insertedUser |}.

(** A driver on a machine where no directory exists yet and one cannot be
    made under [/readonly]; the engine behind it has no foreign-key
    enforcement, no journal mode, and serves no remote database. *)
Definition bareDriver : Driver :=
  {| loadModule := None;
     libConnect := fun target _ =>
       if startsWith "libsql://" target
       then Some {| failureCode := None; failureMessage := "no route to host" |}
       else None;
     connExec := fun _ statement =>
       if includes "foreign_keys" statement
       then Some {| failureCode := None; failureMessage := "not supported" |}
       else if includes "journal_mode" statement
       then Some {| failureCode := None; failureMessage := "no journal" |}
       else None;
     connClose := fun _ => None;
     checkFileExists := fun _ => false;
     mkdir := fun dir =>
       if startsWith "/readonly" dir
       then Some {| failureCode := Some "EROFS"; failureMessage := "read-only file system" |}
       else None;
     defaultStorage := "/srv/app/sequelize.turso";
     dirname := fun path => if startsWith "/readonly" path then "/readonly" else "/srv/app";
     escape := fun text => "'" +:+ text +:+ "'" |}.

(** An installation without the driver package. *)
Definition missingDriver : Driver :=
  {| loadModule := Some {| failureCode := Some "ERR_MODULE_NOT_FOUND";
                           failureMessage := "Cannot find package" |};
     libConnect := fun _ _ => None;
     connExec := fun _ _ => None;
     connClose := fun _ => None;
     checkFileExists := fun _ => true;
     mkdir := fun _ => None;
     defaultStorage := "/srv/app/sequelize.turso";
     dirname := fun path => path;
     escape := fun text => text |}.

(** A database file, encrypted, without foreign keys enforced. *)
Definition fileOptions : ConnectionOptions :=
  {| url := None; authToken := None; storage := Some "/srv/app/data.turso";
     password := Some "secret"; enableWal := None |}.

(** A database file on the read-only part of the disk. *)
Definition readonlyOptions : ConnectionOptions :=
  {| url := None; authToken := None; storage := Some "/readonly/data.turso";
     password := None; enableWal := None |}.

(** A remote database, with and without its token. *)
Definition remoteOptions (token : option string) : ConnectionOptions :=
  {| url := Some "libsql://example.turso.io"; authToken := token; storage := None;
     password := None; enableWal := None |}.

(** An import that fails the first time (the package is not installed yet)
    and succeeds from then on; the module is named by a text. *)
Definition flakyImport (attempt : nat) : result Failure string :=
  match attempt with
  | O => Err {| failureCode := Some "ERR_MODULE_NOT_FOUND";
                failureMessage := "Cannot find package" |}
  | S _ => Ok "@tursodatabase/database"
  end.

(** The variables of the module after [n] imports that all failed. *)
Definition nothingLoaded (n : nat) : Globals string :=
  {| cachedDefaultModule := None; defaultModulePromise := None; imports := n |}.

End MoreSamples.

(** ** Further reading of the binder *)

Module BinderReading.

Import Binder.

(** The value under the key of a name: under its sigil-prefixed key when
    the mapping has it, else under its bare key. *)
Definition exactValue (namedParams : JsObject) (name : string) : JsValue :=
  if hasOwn namedParams ("$" +:+ name) then getProp namedParams ("$" +:+ name)
  else getProp namedParams name.

(** A name has a key of its own in the mapping. *)
Definition hasExactKey (namedParams : JsObject) (name : string) : bool :=
  hasOwn namedParams ("$" +:+ name) || hasOwn namedParams name.

(** A value of a key of the mapping. *)
Definition holds (namedParams : JsObject) (value : JsValue) : Prop :=
  exists key, (key, value) ∈ namedParams.


End BinderReading.

(** ** Further reading of the runner *)

Module RunnerReading.

Import Query Classifier Runner.

(** The statement an event is about. *)
Definition stmtOf (ev : Event) : nat :=
  match ev with
  | Prepare stmt _ | StmtAll stmt _ | StmtRun stmt _ | StmtClose stmt => stmt
  end.

(** A world between two executions: no statement is open, and every
    statement named in the trace was prepared before. *)
Definition settled {St : Type} (w : World St) : Prop :=
  openStatements (trace w) ∅ = ∅
  /\ Forall (fun ev => stmtOf ev < prepared w) (trace w).

(** The error the engine raises for a statement, if any: at [prepare], or
    else at the statement call of the chosen method. *)
Definition engineFailure {St Row : Type} `{Engine St Row} (method : DatabaseMethod)
    (query : string) (args : list JsValue) (st : St) : option EngineError :=
  match enginePrepare query st with
  | Some e => Some e
  | None =>
      match method with
      | MethodAll =>
          match fst (engineAll query args st) with
          | Err e => Some e
          | Ok _ => None
          end
      | MethodRun =>
          match fst (engineRun query args st) with
          | Err e => Some e
          | Ok _ => None
          end
      end
  end.

End RunnerReading.

(** ** Further reading of the classifier *)

Module ClassifierReading.

Import Query Classifier.

(** An index that can supply the message of a uniqueness failure on
    [fields]: unique, on exactly these fields, with a message. *)
Definition suppliesMessage (fields : list JsValue) (index : IndexDefinition) : bool :=
  indexUnique index && bool_decide (indexFields index = fields)
  && match indexMsg index with
     | Some msg => negb (String.eqb msg EmptyString)
     | None => false
     end.

(** The validation item entered for a field. *)
Definition itemOf (getUniqueConstraintErrorMessage : JsValue -> string) (field : JsValue)
  : ValidationErrorItem :=
  {| itemMessage := getUniqueConstraintErrorMessage field;
     itemType := "unique violation";
     itemPath := field;
     itemValidatorKey := "not_unique" |}.

(** The piece after the first dot of a column name given by its pieces. *)
Definition secondOf (parts : list string) : JsValue :=
  match parts with
  | _ :: column :: _ => VString column
  | _ => VUndefined
  end.

End ClassifierReading.

(** ** Further reading of the shaper *)

Module ShaperReading.

Import Query Runner Shaper.

(** The rows of a table-info response that describe the column [column]. *)
Definition rowsNamed (column : string) (results : list TableInfoRow) : list TableInfoRow :=
  List.filter (fun _result => String.eqb (name _result) column) results.

(** A follow-up call that resolved. *)
Definition resolved {E : Type} (entry : IndexListRow * result E (list IndexInfoRow)) : Prop :=
  exists cols, snd entry = Ok cols.

End ShaperReading.

(** ** Further reading of the connection manager *)

Module ConnectionReading.

Import ConnectionManager.

(** [options.storage ?? path.join(process.cwd(), 'sequelize.turso')] *)
Definition storageOf `{Driver} (options : ConnectionOptions) : string :=
  default defaultStorage (storage options).

(** [inMemory || storage === ''] *)
Definition isTemporary (storage : string) : bool :=
  String.eqb storage ":memory:" || String.eqb storage EmptyString.

(** The calls made on the file system for a storage path. *)
Definition directoryEvents `{Driver} (storage : string) : list Event :=
  if isTemporary storage then []
  else CheckFileExists (dirname storage)
       :: (if checkFileExists (dirname storage) then [] else [Mkdir (dirname storage)]).

(** The statements of the setup whose failure fails the connection: the
    key of an encrypted database, and the enforcement of foreign keys. *)
Definition fatalStatements `{Driver} (foreignKeys : option bool) (options : ConnectionOptions)
  : list string :=
  (if given (password options)
   then ["PRAGMA KEY=" +:+ escape (default EmptyString (password options))] else [])
  ++ (if bool_decide (foreignKeys = Some false) then [] else ["PRAGMA foreign_keys = ON"]).

(** The statements of the setup, in the order they are executed. *)
Definition setupStatements `{Driver} (foreignKeys : option bool) (options : ConnectionOptions)
  : list string :=
  fatalStatements foreignKeys options
  ++ (if bool_decide (enableWal options = Some false) then [] else ["PRAGMA journal_mode = WAL"]).

(** The connection object of a local connection just opened. *)
Definition opened (storage : string) : Connection :=
  {| filename := Some storage; closedFlag := false |}.

(** The statements [connect] executes on a local connection just opened. *)
Definition setUp `{Driver} (foreignKeys : option bool) (options : ConnectionOptions)
    (tursoConnection : nat) : M World Failure nat :=
  _ <-- when (given (password options))
          (exec tursoConnection
             ("PRAGMA KEY=" +:+ escape (default EmptyString (password options)))) ;;
  _ <-- when (negb (bool_decide (foreignKeys = Some false)))
          (exec tursoConnection "PRAGMA foreign_keys = ON") ;;
  _ <-- when (negb (bool_decide (enableWal options = Some false)))
          (swallow (exec tursoConnection "PRAGMA journal_mode = WAL")) ;;
  ret tursoConnection.

(** The body of the last [try] of [connect]. *)
Definition openLocal `{Driver} (foreignKeys : option bool) (options : ConnectionOptions)
  : M World Failure nat :=
  tursoConnection <-- connectTo (storageOf options) None ;;
  _ <-- setFilename tursoConnection (storageOf options) ;;
  setUp foreignKeys options tursoConnection.

End ConnectionReading.

(** * Properties *)

(** ** Strings *)

Lemma length_append (s t : string) :
  String.length (s +:+ t) = String.length s + String.length t.
Proof. induction s as [|c s IH]; simpl; [reflexivity | now rewrite IH]. Qed.

Lemma append_assoc (s t u : string) : (s +:+ t) +:+ u = s +:+ (t +:+ u).
Proof. induction s as [|c s IH]; simpl; [reflexivity | now rewrite IH]. Qed.

Lemma append_nil_r (s : string) : s +:+ EmptyString = s.
Proof. induction s as [|c s IH]; simpl; [reflexivity | now rewrite IH]. Qed.

Lemma startsWith_append (p s : string) : startsWith p (p +:+ s) = true.
Proof.
  induction p as [|c p IH]; simpl; [reflexivity|].
  now rewrite Ascii.eqb_refl.
Qed.

Lemma startsWith_inv (p s : string) :
  startsWith p s = true -> exists rest, s = p +:+ rest.
Proof.
  revert s; induction p as [|c p IH]; intros s; simpl.
  - intros _. now exists s.
  - destruct s as [|d s]; [discriminate|].
    destruct (Ascii.eqb c d) eqn:E; [|discriminate].
    apply Ascii.eqb_eq in E as ->. intros Hs.
    destruct (IH _ Hs) as [rest ->]. now exists rest.
Qed.

Lemma dropChars_append (p s : string) : dropChars (String.length p) (p +:+ s) = s.
Proof. induction p as [|c p IH]; simpl; [now destruct s | exact IH]. Qed.

(** ** Lists *)

Lemma lookup_map {A B : Type} (f : A -> B) (l : list A) (i : nat) :
  map f l !! i = option_map f (l !! i).
Proof.
  revert i. induction l as [|x l IH]; intros [|i]; simpl; auto.
Qed.

(** ** The parameter binder *)

Module BinderFacts.

Import Binder BinderSpec.

Lemma hasPlaceholder_nil : ~ hasPlaceholder EmptyString.
Proof. intros (pre & c & post & H & _). destruct pre; discriminate. Qed.

Lemma hasPlaceholder_cons (c : ascii) (s : string) :
  hasPlaceholder (String c s) <-> (c = "$"%char /\ endsName s = false) \/ hasPlaceholder s.
Proof.
  split.
  - intros (pre & d & post & H & Hd). destruct pre as [|a pre]; simpl in H.
    + injection H as -> ->. left. split; [reflexivity|]. simpl. now rewrite Hd.
    + injection H as -> ->. right. now exists pre, d, post.
  - intros [[-> H] | (pre & d & post & -> & Hd)].
    + destruct s as [|d post]; simpl in H; [discriminate|].
      exists EmptyString, d, post. split; [reflexivity|]. now apply negb_false_iff in H.
    + now exists (String c pre), d, post.
Qed.

Lemma spanChars_word (s : string) :
  s = fst (spanChars isWordChar s) +:+ snd (spanChars isWordChar s)
  /\ allWord (fst (spanChars isWordChar s)) = true
  /\ endsName (snd (spanChars isWordChar s)) = true.
Proof.
  induction s as [|c s IH]; simpl; [auto|].
  destruct (isWordChar c) eqn:E.
  - destruct (spanChars isWordChar s) as [run rest]. simpl in *.
    destruct IH as (<- & -> & ->). now rewrite E.
  - simpl. now rewrite E.
Qed.

Lemma spanChars_stop (s : string) :
  endsName s = true -> spanChars isWordChar s = (EmptyString, s).
Proof.
  destruct s as [|c s]; simpl; [reflexivity|].
  intros H. apply negb_true_iff in H. now rewrite H.
Qed.

Lemma spanChars_name (name rest : string) :
  allWord name = true -> endsName rest = true ->
  spanChars isWordChar (name +:+ rest) = (name, rest).
Proof.
  intros Hn Hr. induction name as [|c name IH]; simpl.
  - now apply spanChars_stop.
  - simpl in Hn. apply andb_true_iff in Hn as [Hc Hn]. rewrite Hc, (IH Hn). reflexivity.
Qed.

Lemma endsName_append (s t : string) : endsName (s +:+ t) = true -> endsName t = true -> endsName s = true.
Proof. destruct s; simpl; auto. Qed.

Lemma execParam_some (s name rest : string) :
  execParam s = Some (name, rest) ->
  exists pre, s = pre +:+ String "$" (name +:+ rest) /\ ~ hasPlaceholder pre
              /\ name <> EmptyString /\ allWord name = true /\ endsName rest = true.
Proof.
  induction s as [|c s IH]; simpl; [discriminate|].
  destruct (Ascii.eqb c "$") eqn:Ec.
  - apply Ascii.eqb_eq in Ec as ->.
    destruct (spanChars_word s) as (Hs & Hw & He).
    destruct (spanChars isWordChar s) as [[|r run] rest']; simpl in *.
    + intros H. destruct (IH H) as (pre & -> & Hpre & Hne & Hall & Hend).
      exists (String "$" pre). split; [reflexivity|].
      split; [|auto]. rewrite hasPlaceholder_cons. intros [[_ Hx] | Hx]; [|auto].
      subst rest'. destruct pre; simpl in *; congruence.
    + intros [= <- <-]. exists EmptyString. split; [simpl; congruence|].
      split; [apply hasPlaceholder_nil|]. split; [discriminate|]. auto.
  - intros H. destruct (IH H) as (pre & -> & Hpre & Hrest).
    exists (String c pre). split; [reflexivity|]. split; [|exact Hrest].
    rewrite hasPlaceholder_cons. intros [[-> _] | Hx]; [|auto].
    discriminate.
Qed.

Lemma execParam_found (pre name rest : string) :
  ~ hasPlaceholder pre -> name <> EmptyString -> allWord name = true -> endsName rest = true ->
  execParam (pre +:+ String "$" (name +:+ rest)) = Some (name, rest).
Proof.
  intros Hpre Hne Hall Hend. induction pre as [|c pre IH]; simpl.
  - rewrite (spanChars_name _ _ Hall Hend). destruct name; [congruence | reflexivity].
  - rewrite hasPlaceholder_cons in Hpre.
    destruct (Ascii.eqb c "$") eqn:Ec.
    + apply Ascii.eqb_eq in Ec as ->.
      assert (endsName pre = true) as Hp
        by (destruct (endsName pre) eqn:E; [reflexivity | exfalso; apply Hpre; auto]).
      rewrite spanChars_stop; [apply IH; auto|].
      destruct pre; simpl in *; auto.
    + apply IH. auto.
Qed.

Lemma execParam_none (s : string) : execParam s = None <-> ~ hasPlaceholder s.
Proof.
  split.
  - induction s as [|c s IH]; simpl; intros H; [apply hasPlaceholder_nil|].
    rewrite hasPlaceholder_cons.
    destruct (Ascii.eqb c "$") eqn:Ec.
    + destruct (spanChars_word s) as (Hs & _ & He).
      destruct (spanChars isWordChar s) as [[|r run] rest']; simpl in *; [|discriminate].
      subst rest'. intros [[_ Hx] | Hx]; [congruence | now apply IH].
    + intros [[-> _] | Hx]; [discriminate | now apply IH].
  - intros Hno. destruct (execParam s) as [[name rest]|] eqn:E; [|reflexivity].
    exfalso. apply Hno. destruct (execParam_some _ _ _ E) as (pre & -> & _ & Hne & Hall & _).
    destruct name as [|c name]; [congruence|]. simpl in Hall.
    apply andb_true_iff in Hall as [Hc _].
    exists pre, c, (name +:+ rest). split; [reflexivity | exact Hc].
Qed.

Lemma execParam_shorter (s name rest : string) :
  execParam s = Some (name, rest) -> String.length rest < String.length s.
Proof.
  intros H. destruct (execParam_some _ _ _ H) as (pre & -> & _).
  rewrite length_append. simpl. rewrite length_append. lia.
Qed.

(** The loop never runs out of iterations: any larger bound collects the
    same names. *)
Lemma collectParamNames_fuel (fuel fuel' : nat) (s : string) :
  String.length s < fuel -> String.length s < fuel' ->
  collectParamNames fuel s = collectParamNames fuel' s.
Proof.
  revert fuel' s. induction fuel as [|fuel IH]; intros fuel' s H1 H2; [lia|].
  destruct fuel' as [|fuel']; [lia|]. simpl.
  destruct (execParam s) as [[name rest]|] eqn:E; [|reflexivity].
  apply execParam_shorter in E. f_equal. apply IH; lia.
Qed.

Lemma paramNames_step (s : string) :
  paramNames s = match execParam s with
                 | None => []
                 | Some (name, rest) => name :: paramNames rest
                 end.
Proof.
  unfold paramNames.
  change (collectParamNames (S (String.length s)) s)
    with (match execParam s with
          | None => []
          | Some (name, rest) => name :: collectParamNames (String.length s) rest
          end).
  destruct (execParam s) as [[name rest]|] eqn:E; [|reflexivity].
  apply execParam_shorter in E. f_equal. apply collectParamNames_fuel; lia.
Qed.

Lemma paramNames_placeholders (s : string) : Placeholders s (paramNames s).
Proof.
  remember (String.length s) as n eqn:Hn. revert s Hn.
  induction n as [n IH] using lt_wf_ind. intros s ->.
  rewrite paramNames_step.
  destruct (execParam s) as [[name rest]|] eqn:E.
  - pose proof (execParam_shorter _ _ _ E) as Hlt.
    destruct (execParam_some _ _ _ E) as (pre & -> & Hpre & Hne & Hall & Hend).
    apply Placeholders_next; auto. eapply IH; [exact Hlt | reflexivity].
  - apply Placeholders_none. now apply execParam_none.
Qed.

Lemma placeholders_paramNames (s : string) (names : list string) :
  Placeholders s names -> names = paramNames s.
Proof.
  induction 1 as [s Hno | pre name rest names Hpre Hne Hall Hend _ IH];
    rewrite paramNames_step.
  - apply execParam_none in Hno. now rewrite Hno.
  - rewrite (execParam_found _ _ _ Hpre Hne Hall Hend). now rewrite IH.
Qed.

Lemma findUnused_some (ks : list string) (used : gset string) (key : string) :
  findUnused ks used = Some key <->
  exists before after, ks = before ++ key :: after
                       /\ (forall k, k ∈ before -> k ∈ used) /\ key ∉ used.
Proof.
  induction ks as [|k ks IH]; simpl.
  - split; [discriminate|]. intros (before & after & H & _). now destruct before.
  - destruct (bool_decide (k ∈ used)) eqn:Ek.
    + apply bool_decide_eq_true in Ek. rewrite IH. split.
      * intros (before & after & -> & Hb & Hk). exists (k :: before), after.
        split; [reflexivity|]. split; [|exact Hk].
        intros x Hx. apply elem_of_cons in Hx as [->|Hx]; auto.
      * intros (before & after & H & Hb & Hk). destruct before as [|b before].
        -- simpl in H. injection H as -> ->. contradiction.
        -- simpl in H. injection H as -> ->. exists before, after.
           split; [reflexivity|]. split; [|exact Hk].
           intros x Hx. apply Hb. apply elem_of_cons. now right.
    + apply bool_decide_eq_false in Ek. split.
      * intros [= ->]. exists [], ks. split; [reflexivity|]. split; [|exact Ek].
        intros x Hx. now apply elem_of_nil in Hx.
      * intros (before & after & H & Hb & Hk). destruct before as [|b before].
        -- simpl in H. now injection H as -> ->.
        -- simpl in H. injection H as -> ->. exfalso. apply Ek, Hb. apply elem_of_cons. now left.
Qed.

Lemma findUnused_none (ks : list string) (used : gset string) :
  findUnused ks used = None <-> (forall k, k ∈ ks -> k ∈ used).
Proof.
  induction ks as [|k ks IH]; simpl.
  - split; [|reflexivity]. intros _ x Hx. now apply elem_of_nil in Hx.
  - destruct (bool_decide (k ∈ used)) eqn:Ek.
    + apply bool_decide_eq_true in Ek. rewrite IH. split.
      * intros H x Hx. apply elem_of_cons in Hx as [->|Hx]; auto.
      * intros H x Hx. apply H. apply elem_of_cons. now right.
    + apply bool_decide_eq_false in Ek. split; [discriminate|].
      intros H. exfalso. apply Ek, H. apply elem_of_cons. now left.
Qed.

Lemma resolveNames_resolves (namedParams : JsObject) (names : list string) :
  forall used, Resolves namedParams used names (resolveNames namedParams used names).
Proof.
  induction names as [|name names IH]; intros used; simpl; [constructor|].
  unfold resolveName.
  destruct (hasOwn namedParams ("$" +:+ name)) eqn:E1;
    [now apply Resolves_prefixed|].
  destruct (hasOwn namedParams name) eqn:E2; [now apply Resolves_bare|].
  destruct (findUnused (keys namedParams) used) as [key|] eqn:E3.
  - apply findUnused_some in E3 as (before & after & Hk & Hb & Hu).
    eapply Resolves_fallback; eauto.
  - apply Resolves_null; auto. now apply findUnused_none.
Qed.

Lemma resolves_resolveNames (namedParams : JsObject) (used : gset string)
    (names : list string) (values : list JsValue) :
  Resolves namedParams used names values -> values = resolveNames namedParams used names.
Proof.
  induction 1 as [used
                 | used name names values H1 _ IH
                 | used name names values H1 H2 _ IH
                 | used name names values before after key H1 H2 Hk Hb Hu _ IH
                 | used name names values H1 H2 Hall _ IH];
    simpl; [reflexivity | unfold resolveName ..].
  - now rewrite H1, IH.
  - now rewrite H1, H2, IH.
  - rewrite H1, H2.
    assert (findUnused (keys namedParams) used = Some key) as ->
      by (apply findUnused_some; eauto).
    now rewrite IH.
  - rewrite H1, H2.
    assert (findUnused (keys namedParams) used = None) as ->
      by now apply findUnused_none.
    now rewrite IH.
Qed.

(** C1. For every SQL text and every mapping of named parameters, the
    positional arguments the binder returns are exactly those the
    specification describes: the names are the placeholders of the text read
    left to right (duplicates kept in place), and each name is bound to the
    value under its sigil-prefixed key, else under its bare key, else under
    the first key of the mapping that no earlier placeholder consumed, else
    to null. No other list of values fits that description, and a text
    without placeholder yields the empty list. *)
Theorem named_binding_resolution (query : string) (namedParams : JsObject) :
  (exists names,
      Placeholders query names
      /\ Resolves namedParams ∅ names (_convertNamedParamsToPositional query namedParams))
  /\ (forall names values,
         Placeholders query names -> Resolves namedParams ∅ names values ->
         values = _convertNamedParamsToPositional query namedParams)
  /\ (~ hasPlaceholder query -> _convertNamedParamsToPositional query namedParams = []).
Proof.
  unfold _convertNamedParamsToPositional. split; [|split].
  - exists (paramNames query). split.
    + apply paramNames_placeholders.
    + apply resolveNames_resolves.
  - intros names values Hp Hr. apply placeholders_paramNames in Hp as ->.
    now apply resolves_resolveNames.
  - intros Hno. rewrite paramNames_step.
    apply execParam_none in Hno. now rewrite Hno.
Qed.

(** The four ways of resolving a name, on one statement: [$a] by its
    prefixed key, [$b] by its bare key, [$c] by the first key not consumed
    yet, the second [$a] again by its key, and [$d] by nothing. *)
Example named_binding_example :
  _convertNamedParamsToPositional "SELECT $a, $b, $c, $a, $d"
    [("$a", VNumber (Finite 1)); ("x", VNumber (Finite 2)); ("b", VBool true)]
  = [VNumber (Finite 1); VBool true; VNumber (Finite 2); VNumber (Finite 1); VNull].
Proof. vm_compute. reflexivity. Qed.

Example paramNames_example :
  paramNames "SELECT $a, $$b$c_1 WHERE x = $ $a" = ["a"; "b"; "c_1"; "a"].
Proof. vm_compute. reflexivity. Qed.

(** C6. For every sequence of positional parameters, what the binder hands
    on has the same length and, position by position, the same element,
    except that a bigint is replaced by its decimal text; that text
    determines the bigint; and this is the list the statement call
    receives. Binding [1, 9223372036854775807n] gives
    [1, "9223372036854775807"]. *)
Theorem positional_binding_passes_through (values : list JsValue) :
  exists bound,
    prepareParameters (Positional values) = Positional bound
    /\ length bound = length values
    /\ (forall i v, values !! i = Some v ->
          bound !! i = Some (match v with
                             | VBigInt n => VString (bigintToString n)
                             | _ => v
                             end))
    /\ (forall n m, bigintToString n = bigintToString m -> n = m)
    /\ (forall query,
          Runner.spreadArguments query (prepareParameters (Positional values)) = bound)
    /\ prepareParameters (Positional [VNumber (Finite 1); VBigInt 9223372036854775807])
       = Positional [VNumber (Finite 1); VString "9223372036854775807"].
Proof.
  exists (map stringifyIfBigint values). split; [reflexivity|].
  split; [apply length_map|]. split; [|split; [|split; [reflexivity|]]].
  - intros i v Hv. rewrite lookup_map, Hv. simpl. now destruct v.
  - intros n m Hnm. unfold bigintToString in Hnm. now apply (inj pretty) in Hnm.
  - vm_compute. reflexivity.
Qed.

(** A statement without placeholder binds nothing, whatever the mapping. *)
Lemma named_binding_resolution_witness :
  ~ hasPlaceholder "SELECT 1 + 1"
  /\ _convertNamedParamsToPositional "SELECT 1 + 1" [("id", VNumber (Finite 7))] = [].
Proof.
  assert (~ hasPlaceholder "SELECT 1 + 1") as Hno by (apply execParam_none; reflexivity).
  split; [exact Hno|].
  apply (named_binding_resolution "SELECT 1 + 1" [("id", VNumber (Finite 7))]). exact Hno.
Defined.

(** A negative bigint in second place goes out as its decimal text. *)
Lemma positional_binding_passes_through_witness :
  [VNull; VBigInt (-42)] !! 1 = Some (VBigInt (-42))
  /\ exists bound,
       prepareParameters (Positional [VNull; VBigInt (-42)]) = Positional bound
       /\ bound !! 1 = Some (VString "-42").
Proof.
  split; [reflexivity|].
  destruct (positional_binding_passes_through [VNull; VBigInt (-42)])
    as (bound & Hbound & _ & Hat & _).
  exists bound. split; [exact Hbound|]. apply (Hat 1 (VBigInt (-42))). reflexivity.
Defined.

(** Named parameters as [run] prepares them: every key takes the sigil,
    every bigint its decimal text. *)
Example named_parameters_prepared :
  prepareParameters (Named [("id", VBigInt 7); ("$name", VString "ann")])
  = Named [("$id", VString "7"); ("$name", VString "ann")].
Proof. vm_compute. reflexivity. Qed.

End BinderFacts.

(** ** The statement runner *)

Module RunnerFacts.

Import Query Classifier Binder Runner ClassificationSpec Samples.

Lemma getDatabaseMethod_mutation {DataType : Type} (this : QueryObject DataType) :
  isBulkUpdateQuery (predicates this) || isInsertQuery (predicates this)
  || isUpdateQuery (predicates this) || isUpsertQuery (predicates this) = true ->
  getDatabaseMethod this = if returning (options this) then MethodAll else MethodRun.
Proof. unfold getDatabaseMethod. now intros ->. Qed.

Lemma getDatabaseMethod_other {DataType : Type} (this : QueryObject DataType) :
  isBulkUpdateQuery (predicates this) || isInsertQuery (predicates this)
  || isUpdateQuery (predicates this) || isUpsertQuery (predicates this) = false ->
  getDatabaseMethod this =
    if isDeleteQuery (predicates this)
       || includes "create temporary table" (toLowerCase (sql this))
    then MethodRun else MethodAll.
Proof. unfold getDatabaseMethod. now intros ->. Qed.

(** C4, as stated, fails: a raw statement creating a temporary table is
    run in rowcount mode. *)
Lemma raw_temporary_table_runs_rowcount :
  predicates temporaryTableQuery = tagPredicates Raw
  /\ getDatabaseMethod temporaryTableQuery = MethodRun
  /\ getDatabaseMethod temporaryTableQuery <> MethodAll.
Proof. split; [reflexivity|]. split; [vm_compute; reflexivity | vm_compute; discriminate]. Qed.

(** C4, amended. For every statement request carrying one tag: Insert,
    Update, Upsert and BulkUpdate run in rowset mode exactly when
    row-returning output was requested, in rowcount mode otherwise; Delete
    runs in rowcount mode; Select, ShowOrDescribe, ShowConstraints and Raw
    run in rowset mode unless the statement text contains, in any letter
    case, [create temporary table], in which case they run in rowcount
    mode. *)
Theorem execution_mode_selection {DataType : Type} (this : QueryObject DataType)
    (c : QueryClassification) :
  predicates this = tagPredicates c ->
  (c = Insert \/ c = Update \/ c = Upsert \/ c = BulkUpdate ->
     (returning (options this) = true -> getDatabaseMethod this = MethodAll)
     /\ (returning (options this) = false -> getDatabaseMethod this = MethodRun))
  /\ (c = Delete -> getDatabaseMethod this = MethodRun)
  /\ (c = Select \/ c = ShowOrDescribe \/ c = ShowConstraints \/ c = Raw ->
       getDatabaseMethod this =
         if includes "create temporary table" (toLowerCase (sql this))
         then MethodRun else MethodAll).
Proof.
  intros Hp. split; [|split].
  - intros Hc. rewrite getDatabaseMethod_mutation.
    + split; now intros ->.
    + rewrite Hp. destruct Hc as [-> | [-> | [-> | ->]]]; reflexivity.
  - intros ->. rewrite getDatabaseMethod_other; rewrite Hp; reflexivity.
  - intros Hc. rewrite getDatabaseMethod_other.
    + rewrite Hp. destruct Hc as [-> | [-> | [-> | ->]]]; reflexivity.
    + rewrite Hp. destruct Hc as [-> | [-> | [-> | ->]]]; reflexivity.
Qed.

(** The raw statement creating a temporary table, under the amended rule. *)
Lemma execution_mode_selection_witness :
  predicates temporaryTableQuery = tagPredicates Raw
  /\ ((Raw = Insert \/ Raw = Update \/ Raw = Upsert \/ Raw = BulkUpdate ->
        (returning (options temporaryTableQuery) = true ->
         getDatabaseMethod temporaryTableQuery = MethodAll)
        /\ (returning (options temporaryTableQuery) = false ->
            getDatabaseMethod temporaryTableQuery = MethodRun))
      /\ (Raw = Delete -> getDatabaseMethod temporaryTableQuery = MethodRun)
      /\ (Raw = Select \/ Raw = ShowOrDescribe \/ Raw = ShowConstraints \/ Raw = Raw ->
          getDatabaseMethod temporaryTableQuery =
            if includes "create temporary table" (toLowerCase (sql temporaryTableQuery))
            then MethodRun else MethodAll)).
Proof.
  split; [reflexivity|].
  apply (execution_mode_selection temporaryTableQuery Raw). reflexivity.
Defined.

Lemma openStatements_app (events events' : list Event) (opened : gset nat) :
  openStatements (events ++ events') opened
  = openStatements events' (openStatements events opened).
Proof.
  revert opened. induction events as [|ev events IH]; intros opened; simpl; [reflexivity|].
  destruct ev; apply IH.
Qed.

Section SeriesFacts.

Context {St Row : Type} `{Engine St Row}.

Lemma allSeries_unfold (query : string) (parameters : Parameters) (w : World St) :
  allSeries query parameters w =
    match enginePrepare query (engine w) with
    | Some e => (Err e, w)
    | None =>
        let stmt := prepared w in
        let args := spreadArguments query parameters in
        let '(r, st') := engineAll query args (engine w) in
        (match r with
         | Ok rows => Ok {| statement := {| lastID := 0; metaChanges := 0 |}; results := rows |}
         | Err e => Err e
         end,
         {| engine := st';
            trace := trace w ++ [Prepare stmt query; StmtAll stmt args; StmtClose stmt];
            prepared := S stmt |})
    end.
Proof.
  unfold allSeries, bind, prepare, tryFinally, stmtAll, stmtClose, emit, ret.
  destruct (enginePrepare query (engine w)); [reflexivity|]. simpl.
  destruct (engineAll query (spreadArguments query parameters) (engine w)) as [[rows|e] st'];
    simpl; rewrite <- !app_assoc; reflexivity.
Qed.

Lemma runSeries_unfold (query : string) (parameters : Parameters) (w : World St) :
  runSeries query parameters w =
    match enginePrepare query (engine w) with
    | Some e => (Err e, w)
    | None =>
        let stmt := prepared w in
        let args := spreadArguments query parameters in
        let '(r, st') := engineRun query args (engine w) in
        (match r with
         | Ok info =>
             Ok {| statement := {| lastID := lastInsertRowid info; metaChanges := changes info |};
                   results := [] |}
         | Err e => Err e
         end,
         {| engine := st';
            trace := trace w ++ [Prepare stmt query; StmtRun stmt args; StmtClose stmt];
            prepared := S stmt |})
    end.
Proof.
  unfold runSeries, bind, prepare, tryFinally, stmtRun, stmtClose, emit, ret.
  destruct (enginePrepare query (engine w)); [reflexivity|]. simpl.
  destruct (engineRun query (spreadArguments query parameters) (engine w)) as [[info|e] st'];
    simpl; rewrite <- !app_assoc; reflexivity.
Qed.

(** C9. In either mode, when the call acquires a prepared statement, the
    calls it makes are the acquisition, the execution and the closing of
    that statement, in this order and whatever the execution settles to: a
    row collection, a run, or an error, which is then the error the call
    raises. The statement is not among the open ones afterwards. When
    [prepare] itself throws, no statement is acquired and no call is made. *)
Theorem statement_closed_on_every_exit (query : string) (parameters : Parameters)
    (w : World St) :
  let stmt := prepared w in
  let args := spreadArguments query parameters in
  match enginePrepare query (engine w) with
  | Some e =>
      allSeries query parameters w = (Err e, w) /\ runSeries query parameters w = (Err e, w)
  | None =>
      (trace (snd (allSeries query parameters w))
       = trace w ++ [Prepare stmt query; StmtAll stmt args; StmtClose stmt]
       /\ fst (allSeries query parameters w)
          = match fst (engineAll query args (engine w)) with
            | Ok rows =>
                Ok {| statement := {| lastID := 0; metaChanges := 0 |}; results := rows |}
            | Err e => Err e
            end
       /\ stmt ∉ openStatements (trace (snd (allSeries query parameters w))) ∅)
      /\ (trace (snd (runSeries query parameters w))
          = trace w ++ [Prepare stmt query; StmtRun stmt args; StmtClose stmt]
          /\ fst (runSeries query parameters w)
             = match fst (engineRun query args (engine w)) with
               | Ok info =>
                   Ok {| statement := {| lastID := lastInsertRowid info;
                                         metaChanges := changes info |};
                         results := [] |}
               | Err e => Err e
               end
          /\ stmt ∉ openStatements (trace (snd (runSeries query parameters w))) ∅)
  end.
Proof.
  cbv zeta. rewrite allSeries_unfold, runSeries_unfold.
  destruct (enginePrepare query (engine w)); [split; reflexivity|].
  cbv zeta.
  destruct (engineAll query (spreadArguments query parameters) (engine w)) as [rAll stAll].
  destruct (engineRun query (spreadArguments query parameters) (engine w)) as [rRun stRun].
  simpl. repeat split.
  - rewrite openStatements_app. simpl. intros Hin.
    apply elem_of_difference in Hin as [_ Hn]. apply Hn. now apply elem_of_singleton.
  - rewrite openStatements_app. simpl. intros Hin.
    apply elem_of_difference in Hin as [_ Hn]. apply Hn. now apply elem_of_singleton.
Qed.

End SeriesFacts.

Section RunFacts.

Context {St Row DataType E A : Type} `{Engine St Row}.
Variable getUniqueConstraintErrorMessage : JsValue -> string.
Variable _handleQueryResponse :
  QueryObject DataType -> Metadata -> list Row -> M (World St) E A.

(** An engine error leaves [run] classified, the response never being
    handled; a response is handed to [_handleQueryResponse] with the query
    object whose [sql] is the statement run. *)
Lemma run_outcome (this : QueryObject DataType) (text : string) (parameters : Parameters)
    (w : World St) :
  run getUniqueConstraintErrorMessage _handleQueryResponse this text parameters w
  = match (match getDatabaseMethod (withSql this text) with
           | MethodRun => runSeries text (prepareParameters parameters)
           | MethodAll => allSeries text (prepareParameters parameters)
           end) w with
    | (Err error, w') =>
        (Err (Classified (formatError getUniqueConstraintErrorMessage (withSql this text)
                            (annotate text error))), w')
    | (Ok response, w') =>
        match _handleQueryResponse (withSql this text) (statement response)
                (results response) w' with
        | (Ok a, w'') => (Ok a, w'')
        | (Err e, w'') => (Err (Unclassified e), w'')
        end
    end.
Proof.
  unfold run, execute, bind, rethrow, ret. simpl.
  destruct (getDatabaseMethod (withSql this text));
    [destruct (allSeries text (prepareParameters parameters) w) as [[response|error] w']
    | destruct (runSeries text (prepareParameters parameters) w) as [[response|error] w']];
    reflexivity.
Qed.

End RunFacts.

(** A select that fails in the engine: the statement is closed, and the
    error comes out classified, with the statement text attached. *)
Example failing_select_closes :
  execute (H := usersEngine) (fun _ => EmptyString) selectQuery "SELECT * FROM missing"
    (Positional [VBigInt 5]) twoUsers
  = (Err (DatabaseError
            {| code := Some "SQLITE_ERROR"; message := "no such table: missing";
               errorSql := Some "SELECT * FROM missing" |}),
     {| engine := 2;
        trace := [Prepare 0 "SELECT * FROM missing"; StmtAll 0 [VString "5"]; StmtClose 0];
        prepared := 1 |}).
Proof. vm_compute. reflexivity. Qed.

(** A statement the engine refuses to prepare: nothing to close. *)
Example unprepared_statement :
  allSeries (H := usersEngine) "SELECT syntax" NoParameters twoUsers
  = (Err {| code := Some "SQLITE_ERROR"; message := "near syntax"; errorSql := None |},
     twoUsers).
Proof. vm_compute. reflexivity. Qed.

End RunnerFacts.

(** ** The result shaper *)

Module ShaperFacts.

Import Query Runner Shaper ShaperSpec Samples.

Section MutationFacts.

Context {E DataType Records : Type}.
Variable _parseDatabaseValue : JsValue -> option DataType -> JsValue.

Lemma applyRow_calls (m : Model DataType) (row : JsObject) (names : list string)
    (inst : ModelInstance) :
  exists inst',
    applyRow (E := E) _parseDatabaseValue (Some m) row names inst = Ok inst'
    /\ dataValues inst' = dataValues inst
    /\ setCalls inst' = setCalls inst ++ map (columnSetCall _parseDatabaseValue m row) names.
Proof.
  revert inst. induction names as [|column names IH]; intros inst; simpl.
  - exists inst. now rewrite app_nil_r.
  - destruct (IH (applyColumn _parseDatabaseValue m row inst column))
      as (inst' & -> & Hd & Hs).
    exists inst'. split; [reflexivity|]. split; [exact Hd|].
    rewrite Hs. unfold applyColumn, instanceSet, columnSetCall. simpl.
    now rewrite <- app_assoc.
Qed.

(** C3. For a plain insert (an insert that is no upsert) with a record
    instance attached: the response is handled by the mutation branch;
    with no row returned the shaper raises EmptyResult; with at least one
    row returned, and the instance's model at hand, it raises nothing and
    the instance receives, for each column of the first row in order, one
    [set] of the value returned for it, flagged as coming from the database,
    and is the first element of the result. *)
Theorem plain_insert_with_instance (this : QueryObject DataType) (metaData : Metadata)
    (results : list JsObject) (inst : ModelInstance) (values : JsObject) :
  isInsertQuery (predicates this) = true ->
  isUpsertQuery (predicates this) = false ->
  instance this = Some inst ->
  dataValues inst = Some values ->
  responseBranch this = BMutation
  /\ (results = [] ->
      handleMutation (E := E) (Records := Records) _parseDatabaseValue this metaData results
      = Err EmptyResultError)
  /\ (forall row rest m,
        results = row :: rest -> model this = Some m ->
        exists inst' count,
          handleMutation (E := E) (Records := Records) _parseDatabaseValue this metaData results
          = Ok (MutationResult (TargetInstance inst') count)
          /\ dataValues inst' = dataValues inst
          /\ setCalls inst' = setCalls inst ++ map (columnSetCall _parseDatabaseValue m row) (keys row)
          /\ Forall (fun call => setComesFromDatabase call = true)
               (map (columnSetCall _parseDatabaseValue m row) (keys row))).
Proof.
  intros Hins Hups Hinst Hdata. split; [|split].
  - unfold responseBranch. now rewrite Hins.
  - intros ->. unfold handleMutation, populateInstance.
    now rewrite Hinst, Hdata, Hins, Hups.
  - intros row rest m -> Hm. unfold handleMutation, populateInstance.
    rewrite Hinst, Hdata, Hins, Hups, Hm. simpl.
    destruct (applyRow_calls m row (keys row) inst) as (inst' & -> & Hd & Hs).
    eexists inst', _. split; [reflexivity|].
    split; [now rewrite Hd|]. split; [exact Hs|].
    clear Hs. induction (keys row) as [|column names IH]; simpl; constructor;
      [reflexivity | exact IH].
Qed.

End MutationFacts.

(** The insert of a user with no row returned raises EmptyResult. *)
Lemma plain_insert_with_instance_witness :
  isInsertQuery (predicates insertedUser) = true
  /\ isUpsertQuery (predicates insertedUser) = false
  /\ instance insertedUser
     = Some {| dataValues := Some [("username", VString "testuser1")]; setCalls := [] |}
  /\ handleMutation (E := unit) (Records := unit) (fun value _ => value) insertedUser
       {| lastID := 0; metaChanges := 0 |} []
     = Err EmptyResultError.
Proof.
  split; [reflexivity|]. split; [reflexivity|]. split; [reflexivity|].
  apply (plain_insert_with_instance (E := unit) (Records := unit) (fun value _ => value)
           insertedUser {| lastID := 0; metaChanges := 0 |} []
           {| dataValues := Some [("username", VString "testuser1")]; setCalls := [] |}
           [("username", VString "testuser1")] eq_refl eq_refl eq_refl eq_refl).
  reflexivity.
Defined.

(** The same insert with its row returned: the instance receives the
    generated [id] and, under its attribute name, the stored user name. *)
Example plain_insert_one_row :
  handleMutation (E := unit) (Records := unit) (fun value _ => value) insertedUser
    {| lastID := 0; metaChanges := 0 |}
    [[("id", VNumber (Finite 1)); ("user_name", VString "testuser1")]]
  = Ok (MutationResult
          (TargetInstance
             {| dataValues := Some [("username", VString "testuser1")];
                setCalls :=
                  [ {| setKey := "id"; setValue := VNumber (Finite 1); setRaw := true;
                       setComesFromDatabase := true |};
                    {| setKey := "username"; setValue := VString "testuser1"; setRaw := true;
                       setComesFromDatabase := true |} ] |})
          1).
Proof. vm_compute. reflexivity. Qed.

(** *** Table-info defaults *)

Lemma replaceAll_quote_cons (c : ascii) (s : string) :
  replaceAll "'" EmptyString (String c s)
  = if Ascii.eqb "'" c then replaceAll "'" EmptyString s else String c (replaceAll "'" EmptyString s).
Proof.
  unfold replaceAll. cbn [replaceAllFrom startsWith String.length Nat.sub].
  destruct (Ascii.eqb "'" c); reflexivity.
Qed.

Lemma replaceAll_quoteFree (s : string) :
  quoteFree s = true -> replaceAll "'" EmptyString s = s.
Proof.
  induction s as [|c s IH]; [reflexivity|]. simpl. intros H.
  apply andb_true_iff in H as [Hc Hs]. rewrite replaceAll_quote_cons.
  rewrite Ascii.eqb_sym. apply negb_true_iff in Hc. rewrite Hc. now rewrite IH.
Qed.

Lemma replaceAll_append (s t : string) :
  replaceAll "'" EmptyString (s +:+ t) = replaceAll "'" EmptyString s +:+ replaceAll "'" EmptyString t.
Proof.
  induction s as [|c s IH]; [reflexivity|]. simpl.
  rewrite !replaceAll_quote_cons. destruct (Ascii.eqb "'" c); simpl; now rewrite IH.
Qed.

(** A literal without quote inside loses exactly its surrounding quotes. *)
Lemma replaceAll_literal (body : string) :
  quoteFree body = true -> replaceAll "'" EmptyString ("'" +:+ body +:+ "'") = body.
Proof.
  intros H. rewrite !replaceAll_append, (replaceAll_quoteFree _ H).
  change (replaceAll "'" EmptyString "'") with EmptyString. simpl. apply append_nil_r.
Qed.

Lemma describeTable_lookup (results : list TableInfoRow) :
  forall (result : gmap string ColumnDescription) (row : TableInfoRow),
    NoDup (map name results) -> row ∈ results ->
    describeTable results result !! name row = Some (describeColumn row).
Proof.
  induction results as [|r results IH]; intros result row Hnd Hin; simpl.
  - now apply elem_of_nil in Hin.
  - apply NoDup_cons in Hnd as [Hr Hnd]. apply elem_of_cons in Hin as [-> | Hin].
    + clear IH Hnd. revert result.
      assert (forall result,
                 result !! name r = Some (describeColumn r) ->
                 describeTable results result !! name r = Some (describeColumn r)) as Hkeep.
      { induction results as [|r' results IH]; intros result Hres; simpl; [exact Hres|].
        apply IH.
        - intros Hx. apply Hr. simpl. apply elem_of_cons. now right.
        - rewrite lookup_insert_ne; [exact Hres|].
          intros Heq. apply Hr. simpl. apply elem_of_cons. now left. }
      intros result. apply Hkeep. apply lookup_insert_eq.
    + now apply IH.
Qed.

(** C7, as stated, fails. A text default with a quote inside its literal
    loses every quote, not only the surrounding ones; and on a [TINYINT(1)]
    column the default [NULL] comes out as no default at all, like the
    absent default. *)
Lemma table_info_defaults_differ :
  (defaultValue (describeColumn noteColumn) = VString "its"
   /\ specifiedDefault noteColumn = VString "it''s"
   /\ defaultValue (describeColumn noteColumn) <> specifiedDefault noteColumn)
  /\ (defaultValue (describeColumn (flagColumn (Some "NULL"))) = VUndefined
      /\ defaultValue (describeColumn (flagColumn None)) = VUndefined
      /\ specifiedDefault (flagColumn (Some "NULL")) = VNull).
Proof.
  split; [split; [|split]|split; [|split]]; try (vm_compute; reflexivity).
  vm_compute. discriminate.
Qed.

(** C7, amended. For every table-info row: a null raw default is shaped to
    no default (undefined); on a column whose type is not [TINYINT(1)], the
    text [NULL] is shaped to an explicit null default and any other text to
    that text with every single-quote character removed, which for a string
    literal without quote inside is the literal without its surrounding
    quotes; on a [TINYINT(1)] column the defaults [0] and [1] are shaped to
    false and true. The declared type is kept, null is allowed when the
    NOT NULL flag is 0, and the column is a primary key when its rank in
    the key is not 0. The row of the scenario is shaped as stated. *)
Theorem table_info_defaults (row : TableInfoRow) :
  (dflt_value row = None -> defaultValue (describeColumn row) = VUndefined)
  /\ (type row <> "TINYINT(1)" ->
      (dflt_value row = Some "NULL" -> defaultValue (describeColumn row) = VNull)
      /\ (forall text, dflt_value row = Some text -> text <> "NULL" ->
            defaultValue (describeColumn row) = VString (replaceAll "'" EmptyString text))
      /\ (forall body, dflt_value row = Some ("'" +:+ body +:+ "'") -> quoteFree body = true ->
            defaultValue (describeColumn row) = VString body))
  /\ (type row = "TINYINT(1)" ->
      (dflt_value row = Some "0" -> defaultValue (describeColumn row) = VBool false)
      /\ (dflt_value row = Some "1" -> defaultValue (describeColumn row) = VBool true))
  /\ descType (describeColumn row) = type row
  /\ allowNull (describeColumn row) = (notnull row =? 0)%Z
  /\ primaryKey (describeColumn row) = negb (pk row =? 0)%Z
  /\ describeColumn activeColumn
     = {| descType := "TINYINT(1)"; allowNull := true; defaultValue := VBool true;
          primaryKey := false |}.
Proof.
  assert (forall text, type row <> "TINYINT(1)" -> dflt_value row = Some text ->
                       text <> "NULL" ->
                       defaultValue (describeColumn row) = VString (replaceAll "'" EmptyString text))
    as Htext.
  { intros text Hty Hd Hn. unfold describeColumn, rawDefault. simpl. rewrite Hd.
    apply String.eqb_neq in Hty, Hn. rewrite Hty, Hn. reflexivity. }
  split; [|split; [|split; [|split; [|split; [|split]]]]].
  - intros Hd. unfold describeColumn, rawDefault. simpl. rewrite Hd.
    destruct (String.eqb (type row) "TINYINT(1)"); reflexivity.
  - intros Hty. split; [|split].
    + intros Hd. unfold describeColumn, rawDefault. simpl. rewrite Hd.
      apply String.eqb_neq in Hty. rewrite Hty. reflexivity.
    + intros text Hd Hn. now apply Htext.
    + intros body Hd Hq. rewrite (Htext _ Hty Hd).
      * now rewrite replaceAll_literal.
      * simpl. discriminate.
  - intros Hty. split; intros Hd; unfold describeColumn, rawDefault; simpl;
      rewrite Hd, Hty; reflexivity.
  - unfold describeColumn. simpl.
    destruct (String.eqb (type row) "TINYINT(1)"); simpl;
      [destruct (booleanTable (rawDefault row)) | destruct (rawDefault row)]; reflexivity.
  - unfold describeColumn. simpl.
    destruct (String.eqb (type row) "TINYINT(1)"); simpl;
      [destruct (booleanTable (rawDefault row)) | destruct (rawDefault row)]; reflexivity.
  - unfold describeColumn. simpl.
    destruct (String.eqb (type row) "TINYINT(1)"); simpl;
      [destruct (booleanTable (rawDefault row)) | destruct (rawDefault row)]; reflexivity.
  - vm_compute. reflexivity.
Qed.

(** *** Show-indexes responses *)

Lemma arraySet_length {A : Type} (array : list (option A)) (i : nat) (v : A) :
  length (arraySet array i v) = Nat.max (length array) (S i).
Proof.
  unfold arraySet. destruct (i <? length array)%nat eqn:E.
  - apply Nat.ltb_lt in E. rewrite length_insert. lia.
  - apply Nat.ltb_ge in E. rewrite !length_app, length_replicate. simpl. lia.
Qed.

Lemma arrayGet_arraySet_eq {A : Type} (array : list (option A)) (i : nat) (v : A) :
  arrayGet (arraySet array i v) i = Some v.
Proof.
  unfold arrayGet, arraySet. destruct (i <? length array)%nat eqn:E.
  - apply Nat.ltb_lt in E. now rewrite list_lookup_insert_eq.
  - apply Nat.ltb_ge in E. rewrite lookup_app_r by lia.
    rewrite lookup_app_r by (rewrite length_replicate; lia).
    rewrite length_replicate. now replace (i - length array - (i - length array)) with 0 by lia.
Qed.

Lemma arrayGet_arraySet_ne {A : Type} (array : list (option A)) (i j : nat) (v : A) :
  i <> j -> arrayGet (arraySet array i v) j = arrayGet array j.
Proof.
  intros Hij. unfold arrayGet, arraySet. destruct (i <? length array)%nat eqn:E.
  - now rewrite list_lookup_insert_ne.
  - apply Nat.ltb_ge in E. destruct (decide (j < length array)) as [Hj|Hj].
    + now rewrite lookup_app_l.
    + rewrite (lookup_ge_None_2 array j) by lia. rewrite lookup_app_r by lia.
      destruct (decide (j - length array < i - length array)) as [Hlt|Hge].
      * rewrite lookup_app_l by (rewrite length_replicate; lia).
        rewrite lookup_replicate_2; [reflexivity | lia].
      * rewrite lookup_app_r by (rewrite length_replicate; lia).
        rewrite length_replicate. rewrite lookup_ge_None_2; [reflexivity|]. simpl. lia.
Qed.

Lemma fillFields_other (cols : list IndexInfoRow) :
  forall (acc : list (option IndexField)) (i : nat),
    i ∉ map seqno cols -> arrayGet (fillFields cols acc) i = arrayGet acc i.
Proof.
  induction cols as [|column cols IH]; intros acc i Hi; simpl; [reflexivity|].
  simpl in Hi. rewrite IH.
  - apply arrayGet_arraySet_ne. intros Heq. apply Hi. apply elem_of_cons. now left.
  - intros Hx. apply Hi. apply elem_of_cons. now right.
Qed.

Lemma fillFields_column (cols : list IndexInfoRow) :
  forall (acc : list (option IndexField)) (column : IndexInfoRow),
    NoDup (map seqno cols) -> column ∈ cols ->
    arrayGet (fillFields cols acc) (seqno column) = Some (fieldOf column).
Proof.
  induction cols as [|c cols IH]; intros acc column Hnd Hin; simpl.
  - now apply elem_of_nil in Hin.
  - simpl in Hnd. apply NoDup_cons in Hnd as [Hc Hnd].
    apply elem_of_cons in Hin as [-> | Hin].
    + rewrite fillFields_other by exact Hc. apply arrayGet_arraySet_eq.
    + now apply IH.
Qed.

(** Columns reported in the order of their ranks fill the list in that
    order, without hole. *)
Lemma fillFields_in_order (cols : list IndexInfoRow) :
  forall acc : list (option IndexField),
    map seqno cols = seq (length acc) (length cols) ->
    fillFields cols acc = acc ++ map (fun column => Some (fieldOf column)) cols.
Proof.
  induction cols as [|c cols IH]; intros acc Hseq; simpl.
  - now rewrite app_nil_r.
  - simpl in Hseq. injection Hseq as Hc Hrest.
    assert (arraySet acc (seqno c) (fieldOf c) = acc ++ [Some (fieldOf c)]) as ->.
    { unfold arraySet. rewrite Hc, Nat.ltb_irrefl, Nat.sub_diag. reflexivity. }
    rewrite IH.
    + now rewrite <- app_assoc.
    + rewrite length_app. simpl. now rewrite Nat.add_1_r.
Qed.

Section ShowIndexesFacts.

Context {W E : Type}.
Variable run : string -> M W E (list IndexInfoRow).

Lemma issueFollowUps_world (items : list IndexListRow) (w : W) :
  snd (issueFollowUps run items w) = afterFollowUps run items w.
Proof.
  revert w. induction items as [|item items IH]; intros w; simpl; [reflexivity|].
  unfold afterFollowUps in *. simpl.
  destruct (run (indexInfoSql item) w) as [r w1]. simpl.
  specialize (IH w1). destruct (issueFollowUps run items w1) as [settled w2]. exact IH.
Qed.

Lemma issueFollowUps_settled (items : list IndexListRow) :
  forall (w : W) (i : nat) (entry : IndexListRow * result E (list IndexInfoRow)),
    fst (issueFollowUps run items w) !! i = Some entry ->
    items !! i = Some (fst entry)
    /\ snd entry = fst (run (indexInfoSql (fst entry)) (afterFollowUps run (take i items) w)).
Proof.
  induction items as [|item items IH]; intros w i entry; simpl; [discriminate|].
  destruct (run (indexInfoSql item) w) as [r w1] eqn:Er.
  destruct (issueFollowUps run items w1) as [settled w2] eqn:Es. simpl.
  destruct i as [|i]; simpl.
  - intros [= <-]. simpl. split; [reflexivity|]. unfold afterFollowUps. simpl. now rewrite Er.
  - intros Hi. specialize (IH w1 i entry). rewrite Es in IH. simpl in IH.
    destruct (IH Hi) as [H1 H2]. split; [exact H1|].
    rewrite H2. unfold afterFollowUps. simpl. now rewrite Er.
Qed.

Lemma issueFollowUps_items (items : list IndexListRow) (w : W) :
  map fst (fst (issueFollowUps run items w)) = items.
Proof.
  revert w. induction items as [|item items IH]; intros w; simpl; [reflexivity|].
  destruct (run (indexInfoSql item) w) as [r w1].
  specialize (IH w1). destruct (issueFollowUps run items w1) as [settled w2].
  simpl in *. now rewrite IH.
Qed.

Lemma collectAll_ok (settled : list (IndexListRow * result E (list IndexInfoRow))) :
  forall indexes,
    collectAll settled = Ok indexes ->
    map indexRow indexes = map fst settled
    /\ forall i index, indexes !! i = Some index ->
         exists cols, settled !! i = Some (indexRow index, Ok cols)
                      /\ index = describeIndex (indexRow index) cols.
Proof.
  induction settled as [|[item [cols|e]] settled IH]; intros indexes; simpl.
  - intros [= <-]. split; [reflexivity|]. intros i index Hi. discriminate.
  - destruct (collectAll settled) as [shaped|e]; [|discriminate].
    intros [= <-]. destruct (IH shaped eq_refl) as [Hrows Hall]. split.
    + simpl. now rewrite Hrows.
    + intros [|i] index; simpl.
      * intros [= <-]. exists cols. split; reflexivity.
      * apply Hall.
  - discriminate.
Qed.

(** C8. For every sequence of index rows: one follow-up statement
    [PRAGMA INDEX_INFO] is issued per index, in the reverse of the order the
    engine returned them; when all resolve, the indexes come back in that
    reversed order, each shaped from its own follow-up response: its field
    list holds every reported column at the position of its sequence
    number and nothing elsewhere, [unique] is the boolean of the engine's
    flag, [primary] is the boolean false, and the constraint name is the
    index name. *)
Theorem show_indexes_shaping (data : list IndexListRow) (w : W) :
  snd (handleShowIndexesQuery run data w) = afterFollowUps run (rev data) w
  /\ (forall indexes,
        fst (handleShowIndexesQuery run data w) = Ok indexes ->
        map indexRow indexes = rev data
        /\ forall i index, indexes !! i = Some index ->
             exists cols,
               fst (run (indexInfoSql (indexRow index))
                      (afterFollowUps run (take i (rev data)) w)) = Ok cols
               /\ index = describeIndex (indexRow index) cols)
  /\ (forall item cols,
        indexRow (describeIndex item cols) = item
        /\ primary (describeIndex item cols) = false
        /\ unique (describeIndex item cols) = negb (indexUniqueFlag item =? 0)%Z
        /\ constraintName (describeIndex item cols) = indexName item
        /\ (NoDup (map seqno cols) ->
            forall column, column ∈ cols ->
              arrayGet (fields (describeIndex item cols)) (seqno column)
              = Some (fieldOf column))
        /\ (forall i, i ∉ map seqno cols ->
              arrayGet (fields (describeIndex item cols)) i = None))
  /\ (forall item, indexInfoSql item = "PRAGMA INDEX_INFO(`" +:+ indexName item +:+ "`)").
Proof.
  split; [|split; [|split]].
  - unfold handleShowIndexesQuery.
    rewrite <- issueFollowUps_world.
    destruct (issueFollowUps run (rev data) w); reflexivity.
  - intros indexes Hok. unfold handleShowIndexesQuery in Hok.
    pose proof (issueFollowUps_items (rev data) w) as Hitems.
    pose proof (issueFollowUps_settled (rev data) w) as Hsettled.
    destruct (issueFollowUps run (rev data) w) as [settled w']. simpl in *.
    destruct (collectAll_ok settled indexes Hok) as [Hrows Hall].
    split; [now rewrite Hrows|].
    intros i index Hi. destruct (Hall i index Hi) as (cols & Hs & Hix).
    exists cols. split; [|exact Hix].
    destruct (Hsettled i _ Hs) as [_ Hr]. simpl in Hr. now rewrite <- Hr.
  - intros item cols. repeat (split; [reflexivity|]). split.
    + intros Hnd column Hin. simpl. now apply fillFields_column.
    + intros i Hi. simpl. now rewrite fillFields_other.
  - reflexivity.
Qed.

End ShowIndexesFacts.

(** The column reported second, with sequence number 0, is the first field. *)
Lemma show_indexes_shaping_witness :
  NoDup (map seqno [ {| seqno := 1; cid := 1; columnName := "first" |};
                     {| seqno := 0; cid := 2; columnName := "last" |} ])
  /\ arrayGet
       (fields (describeIndex
                  {| indexSeq := 0; indexName := "users_name"; indexUniqueFlag := 0;
                     indexOrigin := "c"; indexPartial := 0 |}
                  [ {| seqno := 1; cid := 1; columnName := "first" |};
                    {| seqno := 0; cid := 2; columnName := "last" |} ]))
       0
     = Some (fieldOf {| seqno := 0; cid := 2; columnName := "last" |}).
Proof.
  assert (NoDup (map seqno [ {| seqno := 1; cid := 1; columnName := "first" |};
                             {| seqno := 0; cid := 2; columnName := "last" |} ])) as Hnd.
  { apply (bool_decide_unpack _). vm_compute. exact I. }
  split; [exact Hnd|].
  destruct (show_indexes_shaping indexInfo indexList []) as (_ & _ & Hshape & _).
  destruct (Hshape {| indexSeq := 0; indexName := "users_name"; indexUniqueFlag := 0;
                      indexOrigin := "c"; indexPartial := 0 |}
                   [ {| seqno := 1; cid := 1; columnName := "first" |};
                     {| seqno := 0; cid := 2; columnName := "last" |} ])
    as (_ & _ & _ & _ & Hcol & _).
  apply (Hcol Hnd {| seqno := 0; cid := 2; columnName := "last" |}).
  apply elem_of_cons. right. apply elem_of_cons. now left.
Defined.

(** The two indexes of the sample table: the follow-up calls go out in
    declaration order, and so do the shaped indexes come back. *)
Example show_indexes_example :
  handleShowIndexesQuery indexInfo indexList []
  = (Ok [ {| indexRow := {| indexSeq := 1; indexName := "users_email"; indexUniqueFlag := 1;
                            indexOrigin := "c"; indexPartial := 0 |};
             fields := [Some {| attribute := "email"; fieldLength := VUndefined;
                                fieldOrder := VUndefined |}];
             primary := false; unique := true; constraintName := "users_email" |};
          {| indexRow := {| indexSeq := 0; indexName := "users_name"; indexUniqueFlag := 0;
                            indexOrigin := "c"; indexPartial := 0 |};
             fields := [Some {| attribute := "last"; fieldLength := VUndefined;
                                fieldOrder := VUndefined |};
                        Some {| attribute := "first"; fieldLength := VUndefined;
                                fieldOrder := VUndefined |}];
             primary := false; unique := false; constraintName := "users_name" |} ],
     ["PRAGMA INDEX_INFO(`users_email`)"; "PRAGMA INDEX_INFO(`users_name`)"]).
Proof. vm_compute. reflexivity. Qed.

(** A quoted literal on a text column loses its surrounding quotes. *)
Lemma table_info_defaults_witness :
  type {| name := "title"; type := "VARCHAR(255)"; dflt_value := Some "'untitled'";
          notnull := 1; pk := 0 |} <> "TINYINT(1)"
  /\ quoteFree "untitled" = true
  /\ defaultValue
       (describeColumn {| name := "title"; type := "VARCHAR(255)";
                          dflt_value := Some "'untitled'"; notnull := 1; pk := 0 |})
     = VString "untitled".
Proof.
  assert (type {| name := "title"; type := "VARCHAR(255)"; dflt_value := Some "'untitled'";
                  notnull := 1; pk := 0 |} <> "TINYINT(1)") as Hty by discriminate.
  split; [exact Hty|]. split; [reflexivity|].
  destruct (table_info_defaults
              {| name := "title"; type := "VARCHAR(255)"; dflt_value := Some "'untitled'";
                 notnull := 1; pk := 0 |}) as (_ & Htext & _).
  destruct (Htext Hty) as (_ & _ & Hliteral).
  apply (Hliteral "untitled"); reflexivity.
Defined.

(** The table description keeps one entry per column name. *)
Example describeTable_example :
  describeTable [activeColumn; noteColumn] ∅ !! "active"
  = Some {| descType := "TINYINT(1)"; allowNull := true; defaultValue := VBool true;
            primaryKey := false |}.
Proof. vm_compute. reflexivity. Qed.

(** *** The branches of the method *)

Section BranchFacts.

Context {W E DataType Records : Type}.
Variable _parseDatabaseValue : JsValue -> option DataType -> JsValue.
Variable handleSelectQuery : list JsObject -> Records.
Variable run : string -> M W E (list IndexInfoRow).

(** A response in the mutation branch is handled by [handleMutation]. *)
Lemma handleQueryResponse_mutation (this : QueryObject DataType) (metaData : Metadata)
    (same : responseBranch this = BMutation)
    (results : list (RowOf (responseBranch this))) (w : W) :
  _handleQueryResponse _parseDatabaseValue handleSelectQuery run this metaData results w
  = (handleMutation _parseDatabaseValue this metaData (rowsAs same results), w).
Proof.
  unfold _handleQueryResponse. revert same results.
  generalize (responseBranch this). intros b same. subst b. reflexivity.
Qed.

(** A table-info response is shaped row by row into the description. *)
Lemma handleQueryResponse_table_info (this : QueryObject DataType) (metaData : Metadata)
    (same : responseBranch this = BTableInfo)
    (results : list (RowOf (responseBranch this))) (w : W) :
  _handleQueryResponse _parseDatabaseValue handleSelectQuery run this metaData results w
  = (Ok (TableInfo (describeTable (rowsAs same results) ∅)), w).
Proof.
  unfold _handleQueryResponse. revert same results.
  generalize (responseBranch this). intros b same. subst b. reflexivity.
Qed.

(** A show-indexes response goes through [handleShowIndexesQuery]. *)
Lemma handleQueryResponse_show_indexes (this : QueryObject DataType) (metaData : Metadata)
    (same : responseBranch this = BShowIndexes)
    (results : list (RowOf (responseBranch this))) (w : W) :
  _handleQueryResponse _parseDatabaseValue handleSelectQuery run this metaData results w
  = match handleShowIndexesQuery run (rowsAs same results) w with
    | (Ok indexes, w') => (Ok (Indexes indexes), w')
    | (Err e, w') => (Err (FollowUpError e), w')
    end.
Proof.
  unfold _handleQueryResponse. revert same results.
  generalize (responseBranch this). intros b same. subst b. intros results.
  unfold bind, rethrow, ret. simpl.
  destruct (handleShowIndexesQuery run results w) as [[indexes|e] w']; reflexivity.
Qed.

End BranchFacts.

End ShaperFacts.

(** ** The connection manager *)

Module ConnectionFacts.

Import ConnectionManager Samples.

Section GuardFacts.

Context `{Driver}.

Lemma temporaryStorageViolation_some (pool : Pool) :
  idleTimeoutMillis (write pool) <> VNumber PosInfinity
  \/ maxUsesPerResource (write pool) <> VNumber PosInfinity
  \/ maxSize (write pool) <> VNumber (Finite 1)
  \/ read pool <> None ->
  exists violation, temporaryStorageViolation pool = Some violation.
Proof.
  intros Hbad. unfold temporaryStorageViolation, strictEq.
  destruct (bool_decide (idleTimeoutMillis (write pool) = VNumber PosInfinity)) eqn:E1;
    simpl; [|eauto].
  destruct (bool_decide (maxUsesPerResource (write pool) = VNumber PosInfinity)) eqn:E2;
    simpl; [|eauto].
  destruct (bool_decide (maxSize (write pool) = VNumber (Finite 1))) eqn:E3;
    simpl; [|eauto].
  destruct (read pool) eqn:E4; [eauto|].
  apply bool_decide_eq_true in E1, E2, E3.
  destruct Hbad as [Hb | [Hb | [Hb | Hb]]]; contradiction.
Qed.

(** C5. For every connection attempt whose target is non-durable storage
    (no remote url, and the storage is [:memory:] or the empty path): if
    the write pool's idle timeout is not Infinity, or its use limit is not
    Infinity, or its maximum size is not 1, or a read pool is configured,
    then [connect] fails and leaves the world as it found it, so that no
    call reached the driver; with the driver module loaded, the failure is
    one of the configuration errors of the guard. *)
Theorem temporary_storage_guard (pool : Pool) (foreignKeys : option bool)
    (options : ConnectionOptions) (w : World) :
  given (url options) = false ->
  storage options = Some ":memory:" \/ storage options = Some EmptyString ->
  idleTimeoutMillis (write pool) <> VNumber PosInfinity
  \/ maxUsesPerResource (write pool) <> VNumber PosInfinity
  \/ maxSize (write pool) <> VNumber (Finite 1)
  \/ read pool <> None ->
  exists e,
    connect pool foreignKeys options w = (Err e, w)
    /\ (loadModule = None ->
        exists violation, e = TemporaryStorage violation /\ isConfigurationError e = true).
Proof.
  intros Hurl Hstorage Hbad. unfold connect.
  destruct loadModule as [err|] eqn:Eload.
  - eexists. split; [reflexivity | discriminate].
  - rewrite Hurl.
    destruct (temporaryStorageViolation_some pool Hbad) as [violation Hv].
    exists (TemporaryStorage violation).
    destruct Hstorage as [-> | ->]; simpl; rewrite Hv;
      (split; [reflexivity | intros _; exists violation; split; reflexivity]).
Qed.

End GuardFacts.

(** The scenario of the specification, with a driver whose calls succeed. *)
Lemma temporary_storage_guard_witness :
  given (url memoryOptions) = false
  /\ storage memoryOptions = Some ":memory:"
  /\ maxSize (write poolOfFive) <> VNumber (Finite 1)
  /\ exists e,
       connect (H := workingDriver) poolOfFive None memoryOptions emptyWorld = (Err e, emptyWorld)
       /\ (loadModule (Driver := workingDriver) = None ->
           exists violation, e = TemporaryStorage violation /\ isConfigurationError e = true).
Proof.
  split; [reflexivity|]. split; [reflexivity|]. split; [discriminate|].
  apply (temporary_storage_guard (H := workingDriver) poolOfFive None memoryOptions emptyWorld).
  - reflexivity.
  - left. reflexivity.
  - right. right. left. discriminate.
Defined.

(** The scenario of the specification, with any driver that loads: the
    pool of five against [:memory:] is refused for allowing several
    connections, and nothing was called. *)
Example pool_of_five_refused `{Driver} (w : World) :
  loadModule = None ->
  connect poolOfFive None memoryOptions w = (Err (TemporaryStorage AllowsSeveralConnections), w).
Proof. intros Hload. unfold connect. rewrite Hload. reflexivity. Qed.

Section DisconnectFacts.

Context `{Driver}.

Lemma closed_markClosed (connection : nat) (w : World) :
  closed (snd (markClosed connection w)) connection = true.
Proof. unfold closed, connectionOf, markClosed. simpl. now rewrite lookup_insert_eq. Qed.

Lemma closed_log (ev : Event) (connection : nat) (w : World) :
  closed (log ev w) connection = closed w connection.
Proof. reflexivity. Qed.

(** C10. Disconnecting a connection whose flag is set returns at once and
    changes nothing: the engine's [close] is not called. Disconnecting one
    whose flag is not set calls [close] once; when [close] succeeds the
    flag is set, [validate] answers false, and disconnecting again changes
    nothing more; when [close] throws, that error is what [disconnect]
    throws, the flag stays unset and [validate] still answers true. *)
Theorem disconnect_idempotent (connection : nat) (w : World) :
  (closed w connection = true -> disconnect connection w = (Ok tt, w))
  /\ (closed w connection = false -> connClose connection = None ->
      fst (disconnect connection w) = Ok tt
      /\ events (snd (disconnect connection w)) = events w ++ [ConnClose connection]
      /\ closed (snd (disconnect connection w)) connection = true
      /\ validate (snd (disconnect connection w)) connection = false
      /\ disconnect connection (snd (disconnect connection w))
         = (Ok tt, snd (disconnect connection w)))
  /\ (forall e, closed w connection = false -> connClose connection = Some e ->
      fst (disconnect connection w) = Err e
      /\ events (snd (disconnect connection w)) = events w ++ [ConnClose connection]
      /\ closed (snd (disconnect connection w)) connection = false
      /\ validate (snd (disconnect connection w)) connection = true).
Proof.
  split; [|split].
  - intros Hc. unfold disconnect. now rewrite Hc.
  - intros Hc Hclose.
    assert (disconnect connection w
            = (Ok tt, snd (markClosed connection (log (ConnClose connection) w)))) as Hd.
    { unfold disconnect, rethrow, bind, close. now rewrite Hc, Hclose. }
    rewrite Hd. simpl. split; [reflexivity|]. split; [reflexivity|].
    pose proof (closed_markClosed connection (log (ConnClose connection) w)) as Hflag.
    simpl in Hflag. split; [exact Hflag|]. split.
    + unfold validate. now rewrite Hflag.
    + unfold disconnect at 1. now rewrite Hflag.
  - intros e Hc Hclose.
    assert (disconnect connection w = (Err e, log (ConnClose connection) w)) as Hd.
    { unfold disconnect, rethrow, bind, close. now rewrite Hc, Hclose. }
    rewrite Hd. simpl. split; [reflexivity|]. split; [reflexivity|].
    rewrite closed_log. split; [exact Hc|]. unfold validate. now rewrite closed_log, Hc.
Qed.

End DisconnectFacts.

(** Closing the one open connection, twice over: [close] is called once. *)
Example disconnect_twice :
  let once := snd (disconnect (H := workingDriver) 0 oneConnection) in
  events once = [ConnClose 0]
  /\ validate oneConnection 0 = true
  /\ validate once 0 = false
  /\ disconnect (H := workingDriver) 0 once = (Ok tt, once).
Proof. vm_compute. repeat split. Qed.

(** A connection that refuses to close stays valid, and the error comes out. *)
Example disconnect_refused :
  disconnect (H := stuckDriver) 0 oneConnection
  = (Err {| failureCode := None; failureMessage := "database is locked" |},
     {| connections := connections oneConnection; events := [ConnClose 0] |})
  /\ validate (snd (disconnect (H := stuckDriver) 0 oneConnection)) 0 = true.
Proof. vm_compute. split; reflexivity. Qed.

(** Closing the one open connection, then closing it again. *)
Lemma disconnect_idempotent_witness :
  closed oneConnection 0 = false
  /\ connClose (Driver := workingDriver) 0 = None
  /\ validate (snd (disconnect (H := workingDriver) 0 oneConnection)) 0 = false
  /\ disconnect (H := workingDriver) 0 (snd (disconnect (H := workingDriver) 0 oneConnection))
     = (Ok tt, snd (disconnect (H := workingDriver) 0 oneConnection)).
Proof.
  split; [reflexivity|]. split; [reflexivity|].
  destruct (disconnect_idempotent (H := workingDriver) 0 oneConnection) as (_ & Hopen & _).
  destruct (Hopen eq_refl eq_refl) as (_ & _ & _ & Hvalid & Hagain).
  split; [exact Hvalid | exact Hagain].
Defined.

(** A pool that keeps its single connection is let through to the driver. *)
Example single_connection_pool_connects :
  connect (H := workingDriver)
    {| write := {| idleTimeoutMillis := VNumber PosInfinity;
                   maxUsesPerResource := VNumber PosInfinity;
                   maxSize := VNumber (Finite 1) |};
       read := None |}
    None memoryOptions emptyWorld
  = (Ok 0,
     {| connections := {[ 0 := {| filename := Some ":memory:"; closedFlag := false |} ]};
        events := [LibConnect ":memory:" None; ConnExec 0 "PRAGMA foreign_keys = ON";
                   ConnExec 0 "PRAGMA journal_mode = WAL"] |}).
Proof. vm_compute. reflexivity. Qed.

End ConnectionFacts.

(** ** The error classifier *)

Module ClassifierFacts.

Import Query Classifier ClassifierSpec Samples.

Lemma append_inj_length (s1 s2 t1 t2 : string) :
  String.length s1 = String.length s2 -> s1 +:+ t1 = s2 +:+ t2 -> s1 = s2 /\ t1 = t2.
Proof.
  revert s2. induction s1 as [|c s1 IH]; intros [|d s2]; simpl; try discriminate.
  - auto.
  - intros [= Hl] [= -> Ht]. destruct (IH _ Hl Ht) as [-> ->]. auto.
Qed.

Lemma includes_here (p s : string) : startsWith p s = true -> includes p s = true.
Proof. intros H. destruct s; simpl; now rewrite H. Qed.

Lemma includes_contains (p s : string) : includes p s = true <-> contains p s.
Proof.
  split.
  - induction s as [|c s IH]; simpl.
    + destruct (startsWith p EmptyString) eqn:E; [|discriminate]. intros _.
      apply startsWith_inv in E as [rest ->]. now exists EmptyString, rest.
    + destruct (startsWith p (String c s)) eqn:E.
      * intros _. apply startsWith_inv in E as [rest ->]. now exists EmptyString, rest.
      * intros Hs. destruct (IH Hs) as (pre & post & ->). now exists (String c pre), post.
  - intros (pre & post & ->). induction pre as [|c pre IH]; simpl.
    + apply includes_here, startsWith_append.
    + rewrite IH. now destruct (startsWith p (String c (pre +:+ p +:+ post))).
Qed.

Lemma lazyUntil_some (next t x : string) :
  lazyUntil next t = Some x ->
  (exists post, t = x +:+ next +:+ post)
  /\ lineFree x = true
  /\ forall x' post', t = x' +:+ next +:+ post' -> String.length x <= String.length x'.
Proof.
  revert x. induction t as [|c t IH]; intros x; simpl.
  - destruct (startsWith next EmptyString) eqn:E; [|discriminate]. intros [= <-].
    apply startsWith_inv in E as [rest E]. split; [now exists rest|].
    split; [reflexivity|]. intros; simpl; lia.
  - destruct (startsWith next (String c t)) eqn:E.
    + intros [= <-]. apply startsWith_inv in E as [rest E].
      split; [now exists rest|]. split; [reflexivity|]. intros; simpl; lia.
    + destruct (isLineTerminator c) eqn:Ec; [discriminate|].
      destruct (lazyUntil next t) as [x0|] eqn:E0; [|discriminate].
      intros [= <-]. destruct (IH x0 eq_refl) as ((post & ->) & Hfree & Hmin).
      split; [now exists post|]. split; [simpl; now rewrite Ec|].
      intros [|d x'] post' Heq; simpl in Heq.
      * rewrite Heq, startsWith_append in E. discriminate.
      * injection Heq as -> Heq. simpl. apply Hmin in Heq. lia.
Qed.

Lemma lazyUntil_none (next t : string) :
  lazyUntil next t = None ->
  forall x post, t = x +:+ next +:+ post -> lineFree x = false.
Proof.
  induction t as [|c t IH]; simpl.
  - destruct (startsWith next EmptyString) eqn:E; [discriminate|]. intros _ x post Heq.
    destruct x; simpl in Heq; [|discriminate].
    rewrite Heq, startsWith_append in E. discriminate.
  - destruct (startsWith next (String c t)) eqn:E; [discriminate|].
    intros Hnone [|d x] post Heq; simpl in Heq.
    + rewrite Heq, startsWith_append in E. discriminate.
    + injection Heq as -> Heq. simpl.
      destruct (isLineTerminator d); [reflexivity|]. simpl.
      destruct (lazyUntil next t) eqn:E0; [discriminate|]. eapply IH; eauto.
Qed.

(** The match attempted at the very start of [s]. *)
Lemma columns_here_some (s x : string) :
  (if startsWith "columns " s then lazyUntil " are" (dropChars 8 s) else None) = Some x ->
  columnsAt s EmptyString x
  /\ forall x', columnsAt s EmptyString x' -> String.length x <= String.length x'.
Proof.
  destruct (startsWith "columns " s) eqn:E; [|discriminate].
  apply startsWith_inv in E as [t ->].
  change 8 with (String.length "columns "). rewrite dropChars_append.
  intros Hl. apply lazyUntil_some in Hl as ((post & ->) & Hfree & Hmin). split.
  - exists post. split; [reflexivity | exact Hfree].
  - intros x' (post' & Heq & _). simpl in Heq. injection Heq as Heq. now apply Hmin in Heq.
Qed.

Lemma columns_here_none (s : string) :
  (if startsWith "columns " s then lazyUntil " are" (dropChars 8 s) else None) = None ->
  forall x, ~ columnsAt s EmptyString x.
Proof.
  intros Hn x (post & -> & Hfree). simpl in Hn.
  change (dropChars 0 (x +:+ " are" +:+ post)) with (x +:+ " are" +:+ post) in Hn.
  rewrite (lazyUntil_none _ _ Hn x post eq_refl) in Hfree. discriminate.
Qed.

Lemma columnsAt_cons (c : ascii) (s pre x : string) :
  columnsAt (String c s) (String c pre) x <-> columnsAt s pre x.
Proof.
  split; intros (post & Heq & Hfree); exists post; (split; [|exact Hfree]).
  - simpl in Heq. now injection Heq.
  - simpl. now rewrite Heq.
Qed.

Lemma columnsAt_head (c d : ascii) (s pre x : string) :
  columnsAt (String c s) (String d pre) x -> d = c.
Proof. intros (post & Heq & _). simpl in Heq. now injection Heq. Qed.

Lemma matchColumns_some (s x : string) : matchColumns s = Some x -> ColumnsMatch s x.
Proof.
  revert x. induction s as [|c s IH]; intros x.
  - simpl. discriminate.
  - cbn [matchColumns].
    destruct (if startsWith "columns " (String c s)
              then lazyUntil " are" (dropChars 8 (String c s)) else None) as [x0|] eqn:E.
    + intros [= <-]. apply columns_here_some in E as [Hat Hmin].
      exists EmptyString. split; [exact Hat|]. intros [|d pre'] x' Hat'.
      * right. split; [reflexivity | now apply Hmin].
      * left. simpl. lia.
    + intros Hs. destruct (IH _ Hs) as (pre & Hat & Hmin).
      exists (String c pre). split; [now apply columnsAt_cons|].
      intros [|d pre'] x' Hat'.
      * exfalso. eapply columns_here_none; eauto.
      * pose proof (columnsAt_head _ _ _ _ _ Hat') as ->.
        apply columnsAt_cons in Hat'. destruct (Hmin _ _ Hat') as [Hlt | [Heq Hle]]; simpl.
        -- left. lia.
        -- right. split; [lia | exact Hle].
Qed.

Lemma matchColumns_none (s : string) :
  matchColumns s = None -> forall pre x, ~ columnsAt s pre x.
Proof.
  induction s as [|c s IH].
  - simpl. intros _ pre x (post & Heq & _). destruct pre; discriminate.
  - cbn [matchColumns].
    destruct (if startsWith "columns " (String c s)
              then lazyUntil " are" (dropChars 8 (String c s)) else None) as [x0|] eqn:E;
      [discriminate|].
    intros Hs [|d pre] x Hat.
    + eapply columns_here_none; eauto.
    + pose proof (columnsAt_head _ _ _ _ _ Hat) as ->.
      apply columnsAt_cons in Hat. eapply IH; eauto.
Qed.

Lemma ColumnsMatch_functional (s x x' : string) :
  ColumnsMatch s x -> ColumnsMatch s x' -> x = x'.
Proof.
  intros (pre & Hat & Hmin) (pre' & Hat' & Hmin').
  destruct (Hmin _ _ Hat') as [Hlt | [Hpre Hx]];
    destruct (Hmin' _ _ Hat) as [Hlt' | [Hpre' Hx']]; try lia.
  destruct Hat as (post & Heq & _), Hat' as (post' & Heq' & _).
  rewrite Heq in Heq'. apply append_inj_length in Heq' as [_ Heq']; [|exact Hpre].
  simpl in Heq'. injection Heq' as Heq'.
  apply append_inj_length in Heq' as [Hxx _]; [exact Hxx | lia].
Qed.

Lemma ColumnsMatch_matchColumns (s x : string) :
  ColumnsMatch s x <-> matchColumns s = Some x.
Proof.
  split; [|apply matchColumns_some].
  intros Hm. destruct (matchColumns s) as [x0|] eqn:E.
  - f_equal. eapply ColumnsMatch_functional; [|exact Hm]. now apply matchColumns_some.
  - destruct Hm as (pre & Hat & _). exfalso. eapply matchColumns_none; eauto.
Qed.

Lemma spanChars_line (t : string) :
  t = fst (spanChars (fun c => negb (isLineTerminator c)) t)
      +:+ snd (spanChars (fun c => negb (isLineTerminator c)) t)
  /\ lineFree (fst (spanChars (fun c => negb (isLineTerminator c)) t)) = true
  /\ endsLine (snd (spanChars (fun c => negb (isLineTerminator c)) t)) = true.
Proof.
  induction t as [|c t IH]; simpl; [auto|].
  destruct (isLineTerminator c) eqn:E; simpl.
  - now rewrite E.
  - destruct (spanChars (fun c => negb (isLineTerminator c)) t) as [run rest]. simpl in *.
    destruct IH as (<- & -> & ->). now rewrite E.
Qed.

Lemma spanChars_line_found (x post : string) :
  lineFree x = true -> endsLine post = true ->
  fst (spanChars (fun c => negb (isLineTerminator c)) (x +:+ post)) = x.
Proof.
  intros Hx Hp. induction x as [|c x IH]; simpl.
  - destruct post as [|d post]; [reflexivity|]. simpl in *. now rewrite Hp.
  - simpl in Hx. apply andb_true_iff in Hx as [Hc Hx]. rewrite Hc.
    specialize (IH Hx).
    destruct (spanChars (fun c => negb (isLineTerminator c)) (x +:+ post)). simpl in *.
    now rewrite IH.
Qed.

Lemma uniqueAt_cons (c : ascii) (s pre x : string) :
  uniqueAt (String c s) (String c pre) x <-> uniqueAt s pre x.
Proof.
  split; intros (post & Heq & Hrest); exists post; (split; [|exact Hrest]).
  - simpl in Heq. now injection Heq.
  - simpl. now rewrite Heq.
Qed.

Lemma uniqueAt_head (c d : ascii) (s pre x : string) :
  uniqueAt (String c s) (String d pre) x -> d = c.
Proof. intros (post & Heq & _). simpl in Heq. now injection Heq. Qed.

Lemma uniqueAt_here (s x : string) :
  uniqueAt s EmptyString x -> startsWith "UNIQUE constraint failed: " s = true.
Proof.
  intros (post & -> & _).
  change (startsWith "UNIQUE constraint failed: "
            ("UNIQUE constraint failed: " +:+ (x +:+ post)) = true).
  apply startsWith_append.
Qed.

Lemma matchUniqueFailed_some (s x : string) :
  matchUniqueFailed s = Some x -> UniqueMatch s x.
Proof.
  assert (forall s, startsWith "UNIQUE constraint failed: " s = true ->
            UniqueMatch s (fst (spanChars (fun c => negb (isLineTerminator c))
                                  (dropChars 26 s)))) as Hhere.
  { intros s' E. apply startsWith_inv in E as [t ->].
    change 26 with (String.length "UNIQUE constraint failed: "). rewrite dropChars_append.
    destruct (spanChars_line t) as (Ht & Hfree & Hend).
    exists EmptyString. split; [|intros; simpl; lia].
    eexists. split; [|split; [exact Hfree | exact Hend]].
    simpl. now rewrite <- Ht. }
  revert x. induction s as [|c s IH]; intros x.
  - simpl. discriminate.
  - cbn [matchUniqueFailed].
    destruct (startsWith "UNIQUE constraint failed: " (String c s)) eqn:E.
    + intros [= <-]. now apply Hhere.
    + intros Hs. destruct (IH _ Hs) as (pre & Hat & Hmin).
      exists (String c pre). split; [now apply uniqueAt_cons|].
      intros [|d pre'] x' Hat'.
      * apply uniqueAt_here in Hat'. congruence.
      * pose proof (uniqueAt_head _ _ _ _ _ Hat') as ->.
        apply uniqueAt_cons in Hat'. apply Hmin in Hat'. simpl. lia.
Qed.

Lemma matchUniqueFailed_none (s : string) :
  matchUniqueFailed s = None -> forall pre x, ~ uniqueAt s pre x.
Proof.
  induction s as [|c s IH].
  - simpl. intros _ pre x (post & Heq & _). destruct pre; discriminate.
  - cbn [matchUniqueFailed].
    destruct (startsWith "UNIQUE constraint failed: " (String c s)) eqn:E; [discriminate|].
    intros Hs [|d pre] x Hat.
    + apply uniqueAt_here in Hat. congruence.
    + pose proof (uniqueAt_head _ _ _ _ _ Hat) as ->.
      apply uniqueAt_cons in Hat. eapply IH; eauto.
Qed.

Lemma UniqueMatch_functional (s x x' : string) :
  UniqueMatch s x -> UniqueMatch s x' -> x = x'.
Proof.
  intros (pre & Hat & Hmin) (pre' & Hat' & Hmin').
  pose proof (Hmin _ _ Hat') as Hle. pose proof (Hmin' _ _ Hat) as Hle'.
  destruct Hat as (post & Heq & Hx & Hp), Hat' as (post' & Heq' & Hx' & Hp').
  rewrite Heq in Heq'. apply append_inj_length in Heq' as [_ Heq']; [|lia].
  simpl in Heq'. injection Heq' as Heq'.
  rewrite <- (spanChars_line_found x post Hx Hp), Heq'.
  now apply spanChars_line_found.
Qed.

Lemma UniqueMatch_matchUniqueFailed (s x : string) :
  UniqueMatch s x <-> matchUniqueFailed s = Some x.
Proof.
  split; [|apply matchUniqueFailed_some].
  intros Hm. destruct (matchUniqueFailed s) as [x0|] eqn:E.
  - f_equal. eapply UniqueMatch_functional; [|exact Hm]. now apply matchUniqueFailed_some.
  - destruct Hm as (pre & Hat & _). exfalso. eapply matchUniqueFailed_none; eauto.
Qed.

Lemma extractFields_fields (message : string) : Fields message (extractFields message).
Proof.
  unfold extractFields. destruct (matchColumns message) as [x|] eqn:E.
  - apply Fields_columns. now apply ColumnsMatch_matchColumns.
  - assert (forall x, ~ ColumnsMatch message x) as Hno.
    { intros x Hx. apply ColumnsMatch_matchColumns in Hx. congruence. }
    destruct (matchUniqueFailed message) as [x|] eqn:E'.
    + apply Fields_unique; [exact Hno|]. now apply UniqueMatch_matchUniqueFailed.
    + apply Fields_none; [exact Hno|].
      intros x Hx. apply UniqueMatch_matchUniqueFailed in Hx. congruence.
Qed.

Lemma fields_extractFields (message : string) (fields : list JsValue) :
  Fields message fields -> fields = extractFields message.
Proof.
  unfold extractFields. intros [x Hx | x Hno Hx | Hno Hno'].
  - apply ColumnsMatch_matchColumns in Hx. now rewrite Hx.
  - destruct (matchColumns message) as [x0|] eqn:E.
    + apply ColumnsMatch_matchColumns in E. now apply Hno in E.
    + apply UniqueMatch_matchUniqueFailed in Hx. now rewrite Hx.
  - destruct (matchColumns message) as [x0|] eqn:E.
    + apply ColumnsMatch_matchColumns in E. now apply Hno in E.
    + destruct (matchUniqueFailed message) as [x0|] eqn:E'; [|reflexivity].
      apply UniqueMatch_matchUniqueFailed in E'. now apply Hno' in E'.
Qed.

(** *** Splitting *)

Lemma splitFrom_piece (a : ascii) (sep' cur piece rest : string) :
  charFree a piece = true ->
  splitFrom (String a sep') 0 cur (piece +:+ rest)
  = splitFrom (String a sep') 0 (cur +:+ piece) rest.
Proof.
  revert cur. induction piece as [|c piece IH]; intros cur Hfree.
  - now rewrite append_nil_r.
  - simpl in Hfree. apply andb_true_iff in Hfree as [Hc Hfree].
    apply negb_true_iff in Hc. cbn [String.append splitFrom startsWith]. rewrite Hc.
    rewrite (IH _ Hfree). unfold snoc. now rewrite append_assoc.
Qed.

Lemma splitFrom_skip (sep u cur rest : string) :
  splitFrom sep (String.length u) cur (u +:+ rest) = splitFrom sep 0 cur rest.
Proof.
  induction u as [|c u IH]; simpl; [|exact IH].
  destruct rest; reflexivity.
Qed.

Lemma splitFrom_sep (a : ascii) (sep' cur rest : string) :
  splitFrom (String a sep') 0 cur (String a sep' +:+ rest)
  = cur :: splitFrom (String a sep') 0 EmptyString rest.
Proof.
  pose proof (startsWith_append (String a sep') rest) as Hstart.
  cbn [String.append] in Hstart. cbn [String.append splitFrom]. rewrite Hstart.
  f_equal. cbn [String.length Nat.sub]. rewrite Nat.sub_0_r. apply splitFrom_skip.
Qed.

Lemma splitFrom_join (a : ascii) (sep' : string) (pieces : list string) :
  forall cur piece,
    Forall (fun s => charFree a s = true) (piece :: pieces) ->
    splitFrom (String a sep') 0 cur (join (String a sep') (piece :: pieces))
    = (cur +:+ piece) :: pieces.
Proof.
  induction pieces as [|q pieces IH]; intros cur piece Hall.
  - apply Forall_cons in Hall as [Hp _]. simpl.
    rewrite <- (append_nil_r piece) at 1. now rewrite splitFrom_piece.
  - apply Forall_cons in Hall as [Hp Hall].
    change (join (String a sep') (piece :: q :: pieces))
      with (piece +:+ String a sep' +:+ join (String a sep') (q :: pieces)).
    rewrite splitFrom_piece by exact Hp. rewrite splitFrom_sep. f_equal.
    now rewrite IH.
Qed.

(** Splitting what was joined gives the pieces back, when no piece holds
    the first code unit of the separator. *)
Lemma split_join (a : ascii) (sep' : string) (pieces : list string) :
  pieces <> [] -> Forall (fun s => charFree a s = true) pieces ->
  split (String a sep') (join (String a sep') pieces) = pieces.
Proof.
  intros Hne Hall. destruct pieces as [|piece pieces]; [congruence|].
  unfold split. now rewrite splitFrom_join.
Qed.

Lemma charFree_append (a : ascii) (s t : string) :
  charFree a (s +:+ t) = charFree a s && charFree a t.
Proof. induction s as [|c s IH]; simpl; [reflexivity|]. now rewrite IH, andb_assoc. Qed.

Lemma lineFree_append (s t : string) : lineFree (s +:+ t) = lineFree s && lineFree t.
Proof. induction s as [|c s IH]; simpl; [reflexivity|]. now rewrite IH, andb_assoc. Qed.

Lemma plainName_inv (s : string) :
  plainName s = true -> lineFree s = true /\ charFree "." s = true /\ charFree "," s = true.
Proof.
  unfold plainName. intros H. apply andb_true_iff in H as [H H3].
  apply andb_true_iff in H as [H1 H2]. auto.
Qed.

(** The table prefix is what [columnOf] leaves out. *)
Lemma columnOf_qualified (table column : string) :
  charFree "." table = true -> charFree "." column = true ->
  columnOf (qualified (table, column)) = VString column.
Proof.
  intros Ht Hc. unfold columnOf, qualified. cbn [fst snd].
  change (table +:+ "." +:+ column) with (join "." [table; column]).
  rewrite (split_join "." EmptyString [table; column]);
    [reflexivity | discriminate | repeat constructor; assumption].
Qed.

Lemma lineFree_join (columns : list (string * string)) :
  Forall (fun c => plainName (fst c) = true /\ plainName (snd c) = true) columns ->
  lineFree (join ", " (map qualified columns)) = true.
Proof.
  induction columns as [|[table column] columns IH]; intros Hall; [reflexivity|].
  apply Forall_cons in Hall as [[Ht Hc] Hall]. simpl in Ht, Hc.
  apply plainName_inv in Ht as (Ht & _), Hc as (Hc & _).
  assert (lineFree (qualified (table, column)) = true) as Hq.
  { unfold qualified. cbn [fst snd]. rewrite !lineFree_append, Ht, Hc. reflexivity. }
  destruct columns as [|next columns]; [exact Hq|].
  change (join ", " (map qualified ((table, column) :: next :: columns)))
    with (qualified (table, column) +:+ ", " +:+ join ", " (map qualified (next :: columns))).
  rewrite !lineFree_append, Hq, (IH Hall). reflexivity.
Qed.

(** The columns of the newer message form, read back from their list. *)
Lemma columns_of_list (columns : list (string * string)) :
  columns <> [] ->
  Forall (fun c => plainName (fst c) = true /\ plainName (snd c) = true) columns ->
  map columnOf (split ", " (join ", " (map qualified columns)))
  = map (fun c => VString (snd c)) columns.
Proof.
  intros Hne Hall. rewrite split_join.
  - rewrite map_map. induction columns as [|[table column] columns IH]; [congruence|].
    apply Forall_cons in Hall as [[Ht Hc] Hall]. simpl in Ht, Hc.
    apply plainName_inv in Ht as (_ & Ht & _), Hc as (_ & Hc & _).
    change (map (fun x => columnOf (qualified x)) ((table, column) :: columns))
      with (columnOf (qualified (table, column))
              :: map (fun x => columnOf (qualified x)) columns).
    rewrite columnOf_qualified by assumption. simpl. f_equal.
    destruct columns as [|next columns]; [reflexivity|]. apply IH; [discriminate | exact Hall].
  - destruct columns; [congruence | discriminate].
  - clear Hne. induction Hall as [|[table column] columns [Ht Hc] _ IH]; simpl; constructor.
    + simpl in Ht, Hc. apply plainName_inv in Ht as (_ & _ & Ht), Hc as (_ & _ & Hc).
      unfold qualified. cbn [fst snd]. rewrite !charFree_append, Ht, Hc. reflexivity.
    + exact IH.
Qed.

(** *** The classification *)

Lemma constraintCodes_family (err : EngineError) :
  existsb (codeIs err) constraintCodes = true <-> constraintFamily (code err).
Proof.
  unfold constraintFamily, constraintCodes, codeIs. simpl.
  destruct (code err) as [c|].
  - rewrite !orb_true_iff, !String.eqb_eq. split.
    + intros [-> | [-> | [-> | [-> | [-> | H]]]]]; auto 6. discriminate.
    + intros [[= ->] | [[= ->] | [[= ->] | [[= ->] | [= ->]]]]]; auto 7.
  - split; [discriminate|]. intros [H | [H | [H | [H | H]]]]; discriminate.
Qed.

Lemma codeIs_busy (err : EngineError) :
  codeIs err "SQLITE_BUSY" = true <-> code err = Some "SQLITE_BUSY".
Proof.
  unfold codeIs. destruct (code err) as [c|]; [|split; discriminate].
  rewrite String.eqb_eq. split; [now intros -> | now intros [= ->]].
Qed.

(** The newer message form, listing plain names: the fields are the listed
    columns. *)
Lemma newer_form_fields (message : string) (columns : list (string * string)) :
  columns <> [] ->
  Forall (fun c => plainName (fst c) = true /\ plainName (snd c) = true) columns ->
  message = "UNIQUE constraint failed: " +:+ join ", " (map qualified columns) ->
  (forall x, ~ ColumnsMatch message x) ->
  extractFields message = map (fun c => VString (snd c)) columns.
Proof.
  intros Hne Hall -> Hno. symmetry. apply fields_extractFields.
  rewrite <- (columns_of_list columns Hne Hall).
  apply Fields_unique; [exact Hno|].
  exists EmptyString. split; [|intros; simpl; lia].
  exists EmptyString. split; [now rewrite append_nil_r|]. split; [now apply lineFree_join | reflexivity].
Qed.

Section ClassificationFacts.

Context {DataType : Type}.
Variable getUniqueConstraintErrorMessage : JsValue -> string.

(** C2. For every raw engine error the classifier returns one classified
    error, whose cause is that error. With a code of the constraint family:
    a message containing [FOREIGN KEY constraint failed] gives a
    ForeignKeyViolation; any other message gives a UniqueViolation whose
    fields are those of the message as the two patterns determine them
    (the names listed by [columns X, Y are]; failing that, the columns
    listed after [UNIQUE constraint failed: ], table prefix left out;
    failing both, none), one validation item per field. With the code
    [SQLITE_BUSY] the result is a BusyTimeout, with any other code a Generic
    error. The uniqueness failure of the scenario has the fields [email]
    and [username]. *)
Theorem error_classification (this : QueryObject DataType) (err : EngineError) :
  cause (formatError getUniqueConstraintErrorMessage this err) = err
  /\ (constraintFamily (code err) ->
      (contains "FOREIGN KEY constraint failed" (message err) ->
       formatError getUniqueConstraintErrorMessage this err = ForeignKeyConstraintError err)
      /\ (~ contains "FOREIGN KEY constraint failed" (message err) ->
          exists text errors fields,
            formatError getUniqueConstraintErrorMessage this err
            = UniqueConstraintError text errors err fields
            /\ Fields (message err) fields
            /\ (forall fields', Fields (message err) fields' -> fields' = fields)
            /\ map itemPath errors = fields
            /\ (forall columns,
                  columns <> [] ->
                  Forall (fun c => plainName (fst c) = true /\ plainName (snd c) = true)
                    columns ->
                  message err
                  = "UNIQUE constraint failed: " +:+ join ", " (map qualified columns) ->
                  (forall x, ~ ColumnsMatch (message err) x) ->
                  fields = map (fun c => VString (snd c)) columns)))
  /\ (code err = Some "SQLITE_BUSY" ->
      formatError getUniqueConstraintErrorMessage this err = TimeoutError err)
  /\ (~ constraintFamily (code err) -> code err <> Some "SQLITE_BUSY" ->
      formatError getUniqueConstraintErrorMessage this err = DatabaseError err)
  /\ (exists text errors,
        formatError getUniqueConstraintErrorMessage this duplicateUser
        = UniqueConstraintError text errors duplicateUser [VString "email"; VString "username"]
        /\ kind (formatError getUniqueConstraintErrorMessage this duplicateUser)
           = UniqueViolation).
Proof.
  split; [|split; [|split; [|split]]].
  - unfold formatError.
    destruct (existsb (codeIs err) constraintCodes);
      [destruct (includes "FOREIGN KEY constraint failed" (message err))
      | destruct (codeIs err "SQLITE_BUSY")]; reflexivity.
  - intros Hfam. apply constraintCodes_family in Hfam. unfold formatError. rewrite Hfam.
    split.
    + intros Hfk. apply includes_contains in Hfk. now rewrite Hfk.
    + intros Hfk.
      destruct (includes "FOREIGN KEY constraint failed" (message err)) eqn:E;
        [apply includes_contains in E; contradiction|].
      eexists _, _, (extractFields (message err)). split; [reflexivity|].
      split; [apply extractFields_fields|].
      split; [apply fields_extractFields|].
      split; [rewrite map_map; simpl; apply map_id|].
      intros columns Hne Hall Hmsg Hno. now apply newer_form_fields.
  - intros Hbusy. unfold formatError.
    assert (existsb (codeIs err) constraintCodes = false) as ->.
    { unfold codeIs. rewrite Hbusy. reflexivity. }
    apply codeIs_busy in Hbusy. now rewrite Hbusy.
  - intros Hfam Hbusy. unfold formatError.
    destruct (existsb (codeIs err) constraintCodes) eqn:E;
      [apply constraintCodes_family in E; contradiction|].
    destruct (codeIs err "SQLITE_BUSY") eqn:E';
      [apply codeIs_busy in E'; contradiction | reflexivity].
  - unfold formatError.
    change (existsb (codeIs duplicateUser) constraintCodes) with true.
    assert (includes "FOREIGN KEY constraint failed" (message duplicateUser) = false) as ->
      by (vm_compute; reflexivity).
    assert (extractFields (message duplicateUser) = [VString "email"; VString "username"])
      as -> by (vm_compute; reflexivity).
    cbv iota. eexists _, _. split; reflexivity.
Qed.

End ClassificationFacts.

(** The older message form. *)
Example older_form_fields :
  extractFields "SQLITE_CONSTRAINT: columns email, username are not unique"
  = [VString "email"; VString "username"].
Proof. vm_compute. reflexivity. Qed.

(** A foreign-key failure under the generic constraint code, and a busy
    engine. *)
Example foreign_key_and_busy :
  kind (formatError (fun _ => EmptyString) bareQuery
          {| code := Some "SQLITE_CONSTRAINT"; message := "FOREIGN KEY constraint failed";
             errorSql := None |}) = ForeignKeyViolation
  /\ kind (formatError (fun _ => EmptyString) bareQuery
             {| code := Some "SQLITE_BUSY"; message := "database is locked";
                errorSql := None |}) = BusyTimeout
  /\ kind (formatError (fun _ => EmptyString) bareQuery
             {| code := None; message := "no such table: users"; errorSql := None |})
     = Generic.
Proof. vm_compute. repeat split. Qed.

(** The uniqueness failure of the scenario, through the newer message form. *)
Lemma error_classification_witness :
  constraintFamily (code duplicateUser)
  /\ ~ contains "FOREIGN KEY constraint failed" (message duplicateUser)
  /\ exists text errors fields,
       formatError (fun _ => "must be unique") bareQuery duplicateUser
       = UniqueConstraintError text errors duplicateUser fields
       /\ fields = [VString "email"; VString "username"].
Proof.
  assert (constraintFamily (code duplicateUser)) as Hfam by (left; reflexivity).
  assert (~ contains "FOREIGN KEY constraint failed" (message duplicateUser)) as Hfk.
  { intros Hc. apply includes_contains in Hc. vm_compute in Hc. discriminate. }
  split; [exact Hfam|]. split; [exact Hfk|].
  destruct (error_classification (fun _ => "must be unique") bareQuery duplicateUser)
    as (_ & Hconstraint & _).
  destruct (Hconstraint Hfam) as (_ & Hunique).
  destruct (Hunique Hfk) as (text & errors & fields & Heq & _ & _ & _ & Hlist).
  exists text, errors, fields. split; [exact Heq|].
  apply (Hlist [("users", "email"); ("users", "username")]).
  - discriminate.
  - repeat constructor.
  - reflexivity.
  - intros x Hx. apply ColumnsMatch_matchColumns in Hx. vm_compute in Hx. discriminate.
Defined.

End ClassifierFacts.

(** ** More on the parameter binder *)

Module BinderMore.

Import Binder BinderSpec BinderReading BinderFacts.

Lemma hasOwn_elem (o : JsObject) (k : string) :
  hasOwn o k = true <-> k ∈ keys o.
Proof.
  induction o as [|[k' v] o IH]; simpl.
  - split; [discriminate|]. intros H. now apply elem_of_nil in H.
  - rewrite elem_of_cons. destruct (String.eqb k' k) eqn:E.
    + apply String.eqb_eq in E as ->. split; auto.
    + apply String.eqb_neq in E. rewrite IH. split; [auto|]. intros [-> | H]; [congruence | exact H].
Qed.

Lemma getProp_holds (o : JsObject) (k : string) :
  hasOwn o k = true -> (k, getProp o k) ∈ o.
Proof.
  induction o as [|[k' v] o IH]; simpl; [discriminate|].
  destruct (String.eqb k' k) eqn:E.
  - apply String.eqb_eq in E as ->. intros _. apply elem_of_cons. now left.
  - intros H. apply elem_of_cons. right. now apply IH.
Qed.

Lemma resolveNames_exact (namedParams : JsObject) (names : list string) :
  forall used,
    Forall (fun name => hasExactKey namedParams name = true) names ->
    resolveNames namedParams used names = map (exactValue namedParams) names.
Proof.
  induction names as [|name names IH]; intros used Hall; simpl; [reflexivity|].
  apply Forall_cons in Hall as [Hname Hall]. unfold resolveName, exactValue, hasExactKey in *.
  destruct (hasOwn namedParams ("$" +:+ name)) eqn:E1; [now rewrite IH|].
  simpl in Hname. rewrite Hname. now rewrite IH.
Qed.

(** X1. When every placeholder of the statement has a key of its own in
    the mapping (with or without the sigil), the binder never falls back:
    each placeholder is bound to the value under its own key, so that two
    mappings with the same keys and values, in whatever order, bind the
    same arguments. *)
Theorem exact_keys_bind_their_values (query : string) (namedParams : JsObject) :
  Forall (fun name => hasExactKey namedParams name = true) (paramNames query) ->
  _convertNamedParamsToPositional query namedParams
  = map (exactValue namedParams) (paramNames query)
  /\ forall other : JsObject,
       (forall key, hasOwn other key = hasOwn namedParams key
                    /\ getProp other key = getProp namedParams key) ->
       _convertNamedParamsToPositional query other
       = _convertNamedParamsToPositional query namedParams.
Proof.
  intros Hall. unfold _convertNamedParamsToPositional.
  rewrite (resolveNames_exact _ _ _ Hall). split; [reflexivity|].
  intros other Hsame. rewrite resolveNames_exact.
  - apply map_ext. intros name. unfold exactValue.
    destruct (Hsame ("$" +:+ name)) as [-> ->]. destruct (Hsame name) as [_ ->]. reflexivity.
  - eapply Forall_impl; [exact Hall|]. intros name Hname. unfold hasExactKey in *.
    destruct (Hsame ("$" +:+ name)) as [-> _]. destruct (Hsame name) as [-> _]. exact Hname.
Qed.

(** Two placeholders, keys given in the opposite order, one with the sigil. *)
Lemma exact_keys_bind_their_values_witness :
  Forall (fun name => hasExactKey [("b", VNumber (Finite 2)); ("$a", VNumber (Finite 1))] name
                      = true)
    (paramNames "SELECT $a, $b")
  /\ _convertNamedParamsToPositional "SELECT $a, $b"
       [("b", VNumber (Finite 2)); ("$a", VNumber (Finite 1))]
     = [VNumber (Finite 1); VNumber (Finite 2)].
Proof.
  assert (Forall (fun name => hasExactKey [("b", VNumber (Finite 2)); ("$a", VNumber (Finite 1))]
                                name = true)
            (paramNames "SELECT $a, $b")) as Hall
    by (vm_compute; repeat constructor).
  split; [exact Hall|].
  destruct (exact_keys_bind_their_values "SELECT $a, $b"
              [("b", VNumber (Finite 2)); ("$a", VNumber (Finite 1))] Hall) as [Heq _].
  rewrite Heq. reflexivity.
Defined.

Lemma findUnused_elem (ks : list string) (used : gset string) (key : string) :
  findUnused ks used = Some key -> key ∈ ks.
Proof.
  intros H. apply findUnused_some in H as (before & after & -> & _).
  apply elem_of_app. right. apply elem_of_cons. now left.
Qed.

Lemma resolveNames_arity (namedParams : JsObject) (names : list string) :
  forall used,
    length (resolveNames namedParams used names) = length names
    /\ Forall (fun value => value = VNull \/ holds namedParams value)
         (resolveNames namedParams used names).
Proof.
  induction names as [|name names IH]; intros used; simpl; [split; [reflexivity | constructor]|].
  unfold resolveName.
  destruct (hasOwn namedParams ("$" +:+ name)) eqn:E1.
  { destruct (IH ({[ "$" +:+ name ]} ∪ used)) as [Hl Hv]. simpl. split; [f_equal; exact Hl|].
    constructor; [|exact Hv]. right. eexists. now apply getProp_holds. }
  destruct (hasOwn namedParams name) eqn:E2.
  { destruct (IH ({[ name ]} ∪ used)) as [Hl Hv]. simpl. split; [f_equal; exact Hl|].
    constructor; [|exact Hv]. right. eexists. now apply getProp_holds. }
  destruct (findUnused (keys namedParams) used) as [key|] eqn:E3.
  - destruct (IH ({[ key ]} ∪ used)) as [Hl Hv]. simpl. split; [f_equal; exact Hl|].
    constructor; [|exact Hv]. right. eexists. apply getProp_holds.
    apply hasOwn_elem. eapply findUnused_elem; eauto.
  - destruct (IH used) as [Hl Hv]. simpl. split; [f_equal; exact Hl|].
    constructor; [now left | exact Hv].
Qed.

Lemma paramNames_names (s : string) :
  Forall (fun name => name <> EmptyString /\ allWord name = true) (paramNames s).
Proof.
  pose proof (paramNames_placeholders s) as Hp.
  induction Hp as [s Hno | pre name rest names Hpre Hne Hall Hend _ IH]; constructor; auto.
Qed.

(** X2. The binder returns one argument per placeholder occurrence of the
    statement; each argument is null or a value the mapping holds under
    some key, and each placeholder name is a non-empty run of word
    characters. *)
Theorem one_argument_per_placeholder (query : string) (namedParams : JsObject) :
  length (_convertNamedParamsToPositional query namedParams) = length (paramNames query)
  /\ Forall (fun value => value = VNull \/ holds namedParams value)
       (_convertNamedParamsToPositional query namedParams)
  /\ Forall (fun name => name <> EmptyString /\ allWord name = true) (paramNames query).
Proof.
  unfold _convertNamedParamsToPositional.
  destruct (resolveNames_arity namedParams (paramNames query) ∅) as [Hl Hv].
  split; [exact Hl|]. split; [exact Hv | apply paramNames_names].
Qed.

Lemma getProp_lookup (o : JsObject) :
  forall (i : nat) (k : string) (v : JsValue),
    NoDup (keys o) -> o !! i = Some (k, v) -> getProp o k = v.
Proof.
  induction o as [|[k' v'] o IH]; intros i k v Hnd Hi; [discriminate|].
  simpl in Hnd. apply NoDup_cons in Hnd as [Hk' Hnd]. simpl.
  destruct i as [|i]; simpl in Hi.
  - injection Hi as -> ->. now rewrite String.eqb_refl.
  - destruct (String.eqb k' k) eqn:E.
    + apply String.eqb_eq in E as ->. exfalso. apply Hk'.
      apply list_elem_of_lookup. exists i. unfold keys. rewrite lookup_map, Hi. reflexivity.
    + eapply IH; eauto.
Qed.

Lemma resolveNames_null (namedParams : JsObject) (names : list string) (used : gset string) :
  Forall (fun name => hasExactKey namedParams name = false) names ->
  (forall k, k ∈ keys namedParams -> k ∈ used) ->
  resolveNames namedParams used names = replicate (length names) VNull.
Proof.
  intros Hall Hused. induction names as [|name names IH]; simpl; [reflexivity|].
  apply Forall_cons in Hall as [Hname Hall]. unfold hasExactKey in Hname.
  apply orb_false_iff in Hname as [H1 H2]. unfold resolveName. rewrite H1, H2.
  assert (findUnused (keys namedParams) used = None) as -> by now apply findUnused_none.
  now rewrite IH.
Qed.

Lemma resolveNames_in_order (namedParams : JsObject) (names : list string) :
  forall (i m : nat),
    NoDup (keys namedParams) ->
    Forall (fun name => hasExactKey namedParams name = false) names ->
    length names <= m ->
    resolveNames namedParams (list_to_set (take i (keys namedParams))) names
    = take (length names) (map snd (drop i namedParams) ++ replicate m VNull).
Proof.
  induction names as [|name names IH]; intros i m Hnd Hall Hm; [reflexivity|].
  destruct (namedParams !! i) as [[k v]|] eqn:Hi; unfold JsObject in Hi.
  - simpl.
    assert (keys namedParams !! i = Some k) as Hk
      by (unfold keys; rewrite lookup_map, Hi; reflexivity).
    apply Forall_cons in Hall as [Hname Hall]. unfold hasExactKey in Hname.
    apply orb_false_iff in Hname as [H1 H2]. unfold resolveName. rewrite H1, H2.
    assert (findUnused (keys namedParams) (list_to_set (take i (keys namedParams))) = Some k)
      as ->.
    { apply findUnused_some. exists (take i (keys namedParams)), (drop (S i) (keys namedParams)).
      split; [symmetry; now apply take_drop_middle|]. split.
      - intros x Hx. now apply elem_of_list_to_set.
      - intros Hin. apply elem_of_list_to_set, elem_of_take in Hin as (j & Hj & Hlt).
        pose proof (NoDup_lookup _ _ _ _ Hnd Hj Hk). lia. }
    rewrite (getProp_lookup _ _ _ _ Hnd Hi).
    assert ({[ k ]} ∪ list_to_set (take i (keys namedParams))
            = list_to_set (C := gset string) (take (S i) (keys namedParams))) as ->.
    { rewrite (take_S_r _ _ _ Hk), list_to_set_app_L. simpl.
      rewrite (right_id_L ∅ (∪)). apply (comm_L (∪)). }
    rewrite (IH (S i) m Hnd Hall) by (simpl in Hm; lia).
    rewrite <- (take_drop_middle _ _ _ Hi) at 2.
    rewrite drop_app_length' by (rewrite length_take; apply lookup_lt_Some in Hi; lia).
    reflexivity.
  - apply lookup_ge_None in Hi.
    rewrite (resolveNames_null namedParams (name :: names)
               (list_to_set (take i (keys namedParams))) Hall).
    + rewrite drop_ge by exact Hi. simpl. rewrite take_replicate.
      simpl in Hm. now replace (Nat.min (S (length names)) m) with (S (length names)) by lia.
    + intros x Hx. apply elem_of_list_to_set. rewrite take_ge; [exact Hx|].
      unfold keys. rewrite length_map. exact Hi.
Qed.

(** X3. When no placeholder of the statement has a key of its own in the
    mapping, the keys are consumed in their order: the first placeholder
    takes the value of the first key, the second that of the second, and
    so on, and the placeholders past the last key are bound to null. *)
Theorem unmatched_names_take_keys_in_order (query : string) (namedParams : JsObject) :
  NoDup (keys namedParams) ->
  Forall (fun name => hasExactKey namedParams name = false) (paramNames query) ->
  _convertNamedParamsToPositional query namedParams
  = take (length (paramNames query))
      (map snd namedParams ++ replicate (length (paramNames query)) VNull).
Proof.
  intros Hnd Hall. unfold _convertNamedParamsToPositional.
  pose proof (resolveNames_in_order namedParams (paramNames query) 0
                (length (paramNames query)) Hnd Hall (Nat.le_refl _)) as H.
  simpl in H. exact H.
Qed.

(** Three placeholders for two misnamed keys: the third is bound to null. *)
Lemma unmatched_names_take_keys_in_order_witness :
  NoDup (keys [("x", VString "first"); ("y", VString "second")])
  /\ Forall (fun name => hasExactKey [("x", VString "first"); ("y", VString "second")] name
                         = false)
       (paramNames "VALUES ($a, $b, $c)")
  /\ _convertNamedParamsToPositional "VALUES ($a, $b, $c)"
       [("x", VString "first"); ("y", VString "second")]
     = [VString "first"; VString "second"; VNull].
Proof.
  assert (NoDup (keys [("x", VString "first"); ("y", VString "second")])) as Hnd
    by (apply (bool_decide_unpack _); vm_compute; exact I).
  assert (Forall (fun name => hasExactKey [("x", VString "first"); ("y", VString "second")] name
                              = false)
            (paramNames "VALUES ($a, $b, $c)")) as Hall
    by (vm_compute; repeat constructor).
  split; [exact Hnd|]. split; [exact Hall|].
  rewrite (unmatched_names_take_keys_in_order _ _ Hnd Hall). reflexivity.
Defined.

(** *** Named parameters as [run] prepares them *)

Lemma getProp_setProp (o : JsObject) (k k' : string) (v : JsValue) :
  getProp (setProp o k v) k' = if String.eqb k k' then v else getProp o k'.
Proof.
  induction o as [|[k0 v0] o IH]; simpl.
  - reflexivity.
  - destruct (String.eqb k0 k) eqn:E; simpl.
    + apply String.eqb_eq in E as ->. now destruct (String.eqb k k').
    + rewrite IH. destruct (String.eqb k0 k') eqn:E'; [|reflexivity].
      apply String.eqb_eq in E' as ->. now rewrite String.eqb_sym, E.
Qed.

Lemma hasOwn_setProp (o : JsObject) (k k' : string) (v : JsValue) :
  hasOwn (setProp o k v) k' = String.eqb k k' || hasOwn o k'.
Proof.
  induction o as [|[k0 v0] o IH]; simpl.
  - now destruct (String.eqb k k').
  - destruct (String.eqb k0 k) eqn:E; simpl.
    + apply String.eqb_eq in E as ->. now destruct (String.eqb k k').
    + rewrite IH. destruct (String.eqb k0 k'); [now rewrite orb_true_r | reflexivity].
Qed.


Lemma keys_setProp (o : JsObject) (k : string) (v : JsValue) :
  keys (setProp o k v) = if hasOwn o k then keys o else keys o ++ [k].
Proof.
  induction o as [|[k0 v0] o IH]; simpl; [reflexivity|].
  destruct (String.eqb k0 k) eqn:E; simpl; [reflexivity|].
  rewrite IH. now destruct (hasOwn o k).
Qed.














End BinderMore.

(** ** More on the statement runner *)

Module RunnerMore.

Import Query Classifier Binder Runner RunnerReading Shaper RunnerFacts Samples MoreSamples.

Section ExecuteFacts.

Context {St Row DataType : Type} `{Engine St Row}.
Variable getUniqueConstraintErrorMessage : JsValue -> string.

(** A statement prepared and then closed is not open. *)
Lemma prepared_then_closed (stmt : nat) :
  ({[ stmt ]} ∪ (∅ : gset nat)) ∖ {[ stmt ]} = ∅.
Proof.
  apply set_eq. intros x.
  rewrite elem_of_difference, elem_of_union, elem_of_singleton.
  split.
  - intros [[Hx|Hx] Hn]; [contradiction | exact Hx].
  - intros Hx. now apply elem_of_empty in Hx.
Qed.

(** The world after one of the two series. *)
Lemma series_world (method : DatabaseMethod) (text : string) (parameters : Parameters)
    (w : World St) :
  exists new,
    trace (snd (match method with
                | MethodRun => runSeries text parameters
                | MethodAll => allSeries text parameters
                end w)) = trace w ++ new
    /\ Forall (fun ev => stmtOf ev = prepared w) new
    /\ openStatements new ∅ = ∅
    /\ prepared w <= prepared (snd (match method with
                                     | MethodRun => runSeries text parameters
                                     | MethodAll => allSeries text parameters
                                     end w))
    /\ (new <> [] -> prepared (snd (match method with
                                     | MethodRun => runSeries text parameters
                                     | MethodAll => allSeries text parameters
                                     end w)) = S (prepared w)).
Proof.
  destruct method; [rewrite allSeries_unfold | rewrite runSeries_unfold];
    (destruct (enginePrepare text (engine w));
     [exists []; simpl; rewrite app_nil_r; repeat split; [constructor | lia | congruence]|]).
  - cbv zeta. destruct (engineAll text (spreadArguments text parameters) (engine w)) as [r st'].
    exists [Prepare (prepared w) text;
            StmtAll (prepared w) (spreadArguments text parameters);
            StmtClose (prepared w)].
    simpl. split; [reflexivity|]. split; [repeat constructor|].
    split; [apply prepared_then_closed | split; [lia | reflexivity]].
  - cbv zeta. destruct (engineRun text (spreadArguments text parameters) (engine w)) as [r st'].
    exists [Prepare (prepared w) text;
            StmtRun (prepared w) (spreadArguments text parameters);
            StmtClose (prepared w)].
    simpl. split; [reflexivity|]. split; [repeat constructor|].
    split; [apply prepared_then_closed | split; [lia | reflexivity]].
Qed.

Lemma execute_world (this : QueryObject DataType) (text : string) (parameters : Parameters)
    (w : World St) :
  snd (execute getUniqueConstraintErrorMessage this text parameters w)
  = snd (match getDatabaseMethod (withSql this text) with
         | MethodRun => runSeries text (prepareParameters parameters)
         | MethodAll => allSeries text (prepareParameters parameters)
         end w).
Proof.
  unfold execute, bind, rethrow, ret.
  destruct (getDatabaseMethod (withSql this text));
    [destruct (allSeries text (prepareParameters parameters) w) as [[r|e] w']
    | destruct (runSeries text (prepareParameters parameters) w) as [[r|e] w']]; reflexivity.
Qed.

(** X6. Executions keep the connection tidy: from a world where no
    statement is open and no statement outside the prepared ones is named,
    an execution, whatever it settles to, reaches such a world again; the
    calls it adds all concern one new statement, never one of an earlier
    execution. *)
Theorem executions_leave_no_statement_open (this : QueryObject DataType) (text : string)
    (parameters : Parameters) (w : World St) :
  settled w ->
  settled (snd (execute getUniqueConstraintErrorMessage this text parameters w))
  /\ exists new,
       trace (snd (execute getUniqueConstraintErrorMessage this text parameters w))
       = trace w ++ new
       /\ Forall (fun ev => stmtOf ev = prepared w) new
       /\ Forall (fun ev => forall old, old ∈ trace w -> stmtOf ev <> stmtOf old) new.
Proof.
  intros [Hopen Hold]. rewrite execute_world.
  destruct (series_world (getDatabaseMethod (withSql this text)) text
              (prepareParameters parameters) w) as (new & Htrace & Hnew & Hclosed & Hle & Hnext).
  split; [split|].
  - rewrite Htrace, openStatements_app, Hopen. exact Hclosed.
  - rewrite Htrace. apply Forall_app. split.
    + eapply Forall_impl; [exact Hold|]. intros ev Hev. simpl in Hev. lia.
    + destruct new as [|ev new]; [constructor|].
      rewrite Hnext by discriminate.
      eapply Forall_impl; [exact Hnew|]. intros ev' Hev'. simpl in Hev'. lia.
  - exists new. split; [exact Htrace|]. split; [exact Hnew|].
    eapply Forall_impl; [exact Hnew|]. intros ev Hev old Hin. simpl in Hev.
    rewrite Forall_forall in Hold. specialize (Hold old Hin). simpl in Hold. lia.
Qed.

End ExecuteFacts.

(** Two executions in a row on the sample engine, the first one failing. *)
Lemma executions_leave_no_statement_open_witness :
  settled twoUsers
  /\ settled (snd (execute (H := usersEngine) (fun _ => EmptyString) selectQuery
                     "SELECT * FROM users" NoParameters
                     (snd (execute (H := usersEngine) (fun _ => EmptyString) selectQuery
                             "SELECT * FROM missing" NoParameters twoUsers)))).
Proof.
  assert (settled twoUsers) as Hstart by (split; [reflexivity | constructor]).
  split; [exact Hstart|].
  apply (executions_leave_no_statement_open (H := usersEngine) (fun _ => EmptyString)
           selectQuery "SELECT * FROM users" NoParameters).
  apply (executions_leave_no_statement_open (H := usersEngine) (fun _ => EmptyString)
           selectQuery "SELECT * FROM missing" NoParameters twoUsers Hstart).
Defined.

Section FailureFacts.

Context {St Row DataType E A : Type} `{Engine St Row}.
Variable getUniqueConstraintErrorMessage : JsValue -> string.
Variable _handleQueryResponse :
  QueryObject DataType -> Metadata -> list Row -> M (World St) E A.

Lemma formatError_cause (this : QueryObject DataType) (err : EngineError) :
  cause (formatError getUniqueConstraintErrorMessage this err) = err.
Proof.
  unfold formatError.
  destruct (existsb (codeIs err) constraintCodes);
    [destruct (includes "FOREIGN KEY constraint failed" (message err))
    | destruct (codeIs err "SQLITE_BUSY")]; reflexivity.
Qed.

(** The statement text attached to an error plays no part in its
    classification. *)
Lemma formatError_annotate (this : QueryObject DataType) (text : string) (err : EngineError) :
  formatError getUniqueConstraintErrorMessage (withSql this text) (annotate text err)
  = match formatError getUniqueConstraintErrorMessage this err with
    | ForeignKeyConstraintError _ => ForeignKeyConstraintError (annotate text err)
    | UniqueConstraintError message errors _ fields =>
        UniqueConstraintError message errors (annotate text err) fields
    | TimeoutError _ => TimeoutError (annotate text err)
    | DatabaseError _ => DatabaseError (annotate text err)
    end.
Proof.
  unfold formatError.
  change (codeIs (annotate text err)) with (codeIs err).
  change (message (annotate text err)) with (message err).
  change (model (withSql this text)) with (model this).
  destruct (existsb (codeIs err) constraintCodes);
    [destruct (includes "FOREIGN KEY constraint failed" (message err))
    | destruct (codeIs err "SQLITE_BUSY")]; reflexivity.
Qed.

Lemma series_failure (method : DatabaseMethod) (text : string) (parameters : Parameters)
    (w : World St) :
  fst (match method with
       | MethodRun => runSeries text parameters
       | MethodAll => allSeries text parameters
       end w)
  = match engineFailure method text (spreadArguments text parameters) (engine w) with
    | Some e => Err e
    | None =>
        fst (match method with
             | MethodRun => runSeries text parameters
             | MethodAll => allSeries text parameters
             end w)
    end
  /\ (engineFailure method text (spreadArguments text parameters) (engine w) = None ->
      exists response,
        fst (match method with
             | MethodRun => runSeries text parameters
             | MethodAll => allSeries text parameters
             end w) = Ok response).
Proof.
  unfold engineFailure.
  destruct method; [rewrite allSeries_unfold | rewrite runSeries_unfold];
    (destruct (enginePrepare text (engine w)); [split; [reflexivity | discriminate]|]); cbv zeta.
  - destruct (engineAll text (spreadArguments text parameters) (engine w)) as [[rows|e] st'];
      simpl; (split; [reflexivity|]); [eauto | discriminate].
  - destruct (engineRun text (spreadArguments text parameters) (engine w)) as [[info|e] st'];
      simpl; (split; [reflexivity|]); [eauto | discriminate].
Qed.

(** X7. When the engine raises an error for the statement, at [prepare]
    or at the statement call, [run] rejects with the classified form of
    that error: its cause carries the engine's code and message and the
    text of the statement, the kind is the one the raw error has, and the
    response handler is not called. *)
Theorem engine_failures_come_out_classified (this : QueryObject DataType) (text : string)
    (parameters : Parameters) (w : World St) (error : EngineError) :
  engineFailure (getDatabaseMethod (withSql this text)) text
    (spreadArguments text (prepareParameters parameters)) (engine w) = Some error ->
  exists classified,
    fst (run getUniqueConstraintErrorMessage _handleQueryResponse this text parameters w)
    = Err (Classified classified)
    /\ cause classified
       = {| code := code error; message := message error; errorSql := Some text |}
    /\ kind classified = kind (formatError getUniqueConstraintErrorMessage this error)
    /\ snd (run getUniqueConstraintErrorMessage _handleQueryResponse this text parameters w)
       = snd (execute getUniqueConstraintErrorMessage this text parameters w).
Proof.
  intros Hfail.
  destruct (series_failure (getDatabaseMethod (withSql this text)) text
              (prepareParameters parameters) w) as [Hfst _].
  rewrite Hfail in Hfst.
  exists (formatError getUniqueConstraintErrorMessage (withSql this text) (annotate text error)).
  unfold run, execute, bind, rethrow, ret. cbv zeta.
  destruct ((match getDatabaseMethod (withSql this text) with
             | MethodAll => allSeries text (prepareParameters parameters)
             | MethodRun => runSeries text (prepareParameters parameters)
             end) w) as [r w'] eqn:Es.
  simpl in Hfst. subst r. simpl.
  split; [reflexivity|]. split; [apply formatError_cause|]. split; [|reflexivity].
  rewrite formatError_annotate.
  destruct (formatError getUniqueConstraintErrorMessage this error); reflexivity.
Qed.


End FailureFacts.

(** A select on a table the engine does not know. *)
Lemma engine_failures_come_out_classified_witness :
  exists classified,
    fst (run (H := usersEngine) (fun _ => EmptyString) (fun _ _ rows => ret (E := unit) rows)
           selectQuery "SELECT * FROM missing" NoParameters twoUsers)
    = Err (Classified classified)
    /\ cause classified
       = {| code := Some "SQLITE_ERROR"; message := "no such table: missing";
            errorSql := Some "SELECT * FROM missing" |}.
Proof.
  destruct (engine_failures_come_out_classified (H := usersEngine) (fun _ => EmptyString)
              (fun _ _ rows => ret (E := unit) rows)
              selectQuery "SELECT * FROM missing" NoParameters twoUsers
              {| code := Some "SQLITE_ERROR"; message := "no such table: missing";
                 errorSql := None |} eq_refl) as (classified & Hrun & Hcause & _).
  exists classified. split; [exact Hrun | exact Hcause].
Defined.


Section InsertFacts.

Context {St DataType E Records : Type} `{Engine St JsObject}.
Variable getUniqueConstraintErrorMessage : JsValue -> string.
Variable _parseDatabaseValue : JsValue -> option DataType -> JsValue.

(** X9. A plain insert issued for a record instance without row-returning
    output runs in rowcount mode, whose response has no rows: after the
    engine has run the statement and the statement is closed, the shaper
    raises EmptyResult, whatever the engine reported. *)
Theorem insert_in_rowcount_mode_reports_no_row (this : QueryObject DataType) (text : string)
    (parameters : Parameters) (w : World St) (inst : ModelInstance) (values : JsObject)
    (info : RunInfo) (st' : St) :
  isInsertQuery (predicates this) = true ->
  isUpsertQuery (predicates this) = false ->
  returning (options this) = false ->
  instance this = Some inst ->
  dataValues inst = Some values ->
  enginePrepare text (engine w) = None ->
  engineRun text (spreadArguments text (prepareParameters parameters)) (engine w)
  = (Ok info, st') ->
  responseBranch (withSql this text) = BMutation
  /\ run getUniqueConstraintErrorMessage
       (fun this' metaData results =>
          settle (E := E)
            (handleMutation (Records := Records) _parseDatabaseValue this' metaData results))
       this text parameters w
     = (Err (Unclassified EmptyResultError),
        {| engine := st';
           trace := trace w
                    ++ [Prepare (prepared w) text;
                        StmtRun (prepared w)
                          (spreadArguments text (prepareParameters parameters));
                        StmtClose (prepared w)];
           prepared := S (prepared w) |}).
Proof.
  intros Hins Hups Hret Hinst Hdata Hprep Hrun.
  split; [unfold responseBranch; simpl; now rewrite Hins|].
  rewrite run_outcome.
  assert (getDatabaseMethod (withSql this text) = MethodRun) as ->.
  { rewrite getDatabaseMethod_mutation; simpl; [now rewrite Hret|].
    rewrite Hins. now rewrite orb_true_r. }
  rewrite runSeries_unfold, Hprep. cbv zeta. rewrite Hrun. simpl.
  unfold settle, handleMutation, populateInstance. simpl.
  now rewrite Hinst, Hdata, Hins, Hups.
Qed.

End InsertFacts.

Lemma insert_in_rowcount_mode_reports_no_row_witness :
  fst (run (H := usersEngine) (fun _ => EmptyString)
         (fun this' metaData results =>
            settle (E := unit)
              (handleMutation (Records := unit) (fun value _ => value) this' metaData results))
         insertedQuietly "INSERT INTO users (username) VALUES ($1)"
         (Positional [VString "testuser1"]) twoUsers)
  = Err (Unclassified EmptyResultError)
  /\ engine (snd (run (H := usersEngine) (fun _ => EmptyString)
         (fun this' metaData results =>
            settle (E := unit)
              (handleMutation (Records := unit) (fun value _ => value) this' metaData results))
         insertedQuietly "INSERT INTO users (username) VALUES ($1)"
         (Positional [VString "testuser1"]) twoUsers)) = 3.
Proof.
  destruct (insert_in_rowcount_mode_reports_no_row (H := usersEngine) (E := unit)
              (Records := unit) (fun _ => EmptyString) (fun value _ => value)
              insertedQuietly "INSERT INTO users (username) VALUES ($1)"
              (Positional [VString "testuser1"]) twoUsers
              {| dataValues := Some [("username", VString "testuser1")]; setCalls := [] |}
              [("username", VString "testuser1")]
              {| changes := 1; lastInsertRowid := 3 |} 3
              eq_refl eq_refl eq_refl eq_refl eq_refl eq_refl eq_refl) as [_ Hrun].
  rewrite Hrun. split; reflexivity.
Defined.

End RunnerMore.

(** ** More on the error classifier *)

Module ClassifierMore.

Import Query Classifier ClassifierSpec ClassifierReading ClassifierFacts Samples.

Lemma indexMessage_none (indexes : list IndexDefinition) (fields : list JsValue)
    (default : string) :
  Forall (fun index => suppliesMessage fields index = false) indexes ->
  indexMessage indexes fields default = default.
Proof.
  induction 1 as [|index indexes Hindex _ IH]; [reflexivity|]. simpl.
  unfold suppliesMessage in Hindex. destruct (indexMsg index) as [msg|]; [|exact IH].
  now rewrite Hindex.
Qed.

Lemma indexMessage_first (before after : list IndexDefinition) (index : IndexDefinition)
    (fields : list JsValue) (default msg : string) :
  Forall (fun index' => suppliesMessage fields index' = false) before ->
  suppliesMessage fields index = true ->
  indexMsg index = Some msg ->
  indexMessage (before ++ index :: after) fields default = msg.
Proof.
  intros Hbefore Hindex Hmsg.
  induction Hbefore as [|index' before Hindex' _ IH]; simpl.
  - unfold suppliesMessage in Hindex. rewrite Hmsg in *. now rewrite Hindex.
  - unfold suppliesMessage in Hindex'. destruct (indexMsg index') as [msg'|]; [|exact IH].
    now rewrite Hindex'.
Qed.

Section MessageFacts.

Context {DataType : Type}.
Variable getUniqueConstraintErrorMessage : JsValue -> string.

(** X10. A constraint failure that is no foreign-key failure becomes a
    UniqueViolation with one validation item per field, of type
    [unique violation] and validator key [not_unique], worded by the core's
    [getUniqueConstraintErrorMessage]. Its message is [Validation error]
    without a model, or when no index of the model is unique, on exactly
    the failing fields and has a message; otherwise it is the message of
    the first such index. *)
Theorem unique_violation_message (this : QueryObject DataType) (err : EngineError) :
  existsb (codeIs err) constraintCodes = true ->
  includes "FOREIGN KEY constraint failed" (message err) = false ->
  exists text,
    formatError getUniqueConstraintErrorMessage this err
    = UniqueConstraintError text
        (map (itemOf getUniqueConstraintErrorMessage) (extractFields (message err)))
        err (extractFields (message err))
    /\ (model this = None -> text = "Validation error")
    /\ (forall m, model this = Some m ->
          Forall (fun index => suppliesMessage (extractFields (message err)) index = false)
            (getIndexes m) ->
          text = "Validation error")
    /\ (forall m before index after msg,
          model this = Some m ->
          getIndexes m = before ++ index :: after ->
          Forall (fun index' => suppliesMessage (extractFields (message err)) index' = false)
            before ->
          suppliesMessage (extractFields (message err)) index = true ->
          indexMsg index = Some msg ->
          text = msg).
Proof.
  intros Hcode Hfk. unfold formatError. rewrite Hcode, Hfk.
  eexists. split; [reflexivity|]. split; [|split].
  - now intros ->.
  - intros m -> Hnone. now apply indexMessage_none.
  - intros m before index after msg -> -> Hbefore Hindex Hmsg.
    now apply indexMessage_first.
Qed.

End MessageFacts.

(** A model with two unique indexes on the failing fields: the first one
    that has a message supplies it. *)
Lemma unique_violation_message_witness :
  exists errors fields,
    formatError (DataType := unit) (fun _ => "must be unique")
      {| predicates := predicates bareQuery; sql := sql bareQuery; options := options bareQuery;
         instance := None;
         model := Some {| columns := [];
                          getIndexes :=
                            [ {| indexUnique := true;
                                 indexFields := [VString "email"; VString "username"];
                                 indexMsg := None |};
                              {| indexUnique := true;
                                 indexFields := [VString "email"; VString "username"];
                                 indexMsg := Some "This account exists already" |};
                              {| indexUnique := true;
                                 indexFields := [VString "email"; VString "username"];
                                 indexMsg := Some "Taken" |} ] |} |}
      duplicateUser
    = UniqueConstraintError "This account exists already" errors duplicateUser fields.
Proof.
  destruct (unique_violation_message (DataType := unit) (fun _ => "must be unique")
              {| predicates := predicates bareQuery; sql := sql bareQuery;
                 options := options bareQuery; instance := None;
                 model := Some {| columns := [];
                                  getIndexes :=
                                    [ {| indexUnique := true;
                                         indexFields := [VString "email"; VString "username"];
                                         indexMsg := None |};
                                      {| indexUnique := true;
                                         indexFields := [VString "email"; VString "username"];
                                         indexMsg := Some "This account exists already" |};
                                      {| indexUnique := true;
                                         indexFields := [VString "email"; VString "username"];
                                         indexMsg := Some "Taken" |} ] |} |}
              duplicateUser eq_refl eq_refl) as (text & Heq & _ & _ & Hfirst).
  eexists _, _. rewrite Heq. f_equal.
  apply (Hfirst _ [ {| indexUnique := true;
                       indexFields := [VString "email"; VString "username"];
                       indexMsg := None |} ] _ _ _ eq_refl eq_refl).
  - repeat constructor.
  - reflexivity.
  - reflexivity.
Defined.

Lemma join_cons (sep piece : string) (pieces : list string) :
  pieces <> [] -> join sep (piece :: pieces) = piece +:+ sep +:+ join sep pieces.
Proof. destruct pieces; [congruence | reflexivity]. Qed.

Lemma charFree_join (a : ascii) (sep : string) (pieces : list string) :
  charFree a sep = true -> Forall (fun p => charFree a p = true) pieces ->
  charFree a (join sep pieces) = true.
Proof.
  intros Hsep. induction 1 as [|piece pieces Hpiece Hall IH]; [reflexivity|].
  destruct pieces as [|piece' pieces]; [exact Hpiece|].
  rewrite join_cons by discriminate. rewrite !charFree_append, Hpiece, Hsep. exact IH.
Qed.

Lemma lineFree_joined (sep : string) (pieces : list string) :
  lineFree sep = true -> Forall (fun p => lineFree p = true) pieces ->
  lineFree (join sep pieces) = true.
Proof.
  intros Hsep. induction 1 as [|piece pieces Hpiece Hall IH]; [reflexivity|].
  destruct pieces as [|piece' pieces]; [exact Hpiece|].
  rewrite join_cons by discriminate. rewrite !lineFree_append, Hpiece, Hsep. exact IH.
Qed.

Lemma columnOf_parts (parts : list string) :
  parts <> [] -> Forall (fun p => charFree "." p = true) parts ->
  columnOf (join "." parts) = secondOf parts.
Proof.
  intros Hne Hall. unfold columnOf. rewrite (split_join "." EmptyString parts Hne Hall).
  destruct parts as [|table [|column rest]]; reflexivity.
Qed.

(** X11. In the newer message form each listed column is cut at its dots
    and the second piece is kept: a column named without its table gives an
    undefined field, a column named with schema and table gives the table
    name. *)
Theorem newer_form_takes_second_piece (message : string) (columns : list (list string)) :
  columns <> [] ->
  Forall (fun parts => parts <> [] /\ Forall (fun p => plainName p = true) parts) columns ->
  message = "UNIQUE constraint failed: " +:+ join ", " (map (join ".") columns) ->
  matchColumns message = None ->
  extractFields message = map secondOf columns.
Proof.
  intros Hne Hall -> Hno. symmetry. apply fields_extractFields.
  assert (Forall (fun piece => charFree "," piece = true /\ lineFree piece = true)
            (map (join ".") columns)) as Hpieces.
  { apply Forall_map. eapply Forall_impl; [exact Hall|]. intros parts [_ Hparts]. simpl. split.
    - apply charFree_join; [reflexivity|].
      eapply Forall_impl; [exact Hparts|]. intros p Hp. simpl. now apply plainName_inv in Hp.
    - apply lineFree_joined; [reflexivity|].
      eapply Forall_impl; [exact Hparts|]. intros p Hp. simpl. now apply plainName_inv in Hp. }
  assert (map secondOf columns
          = map columnOf (split ", " (join ", " (map (join ".") columns)))) as ->.
  { rewrite split_join.
    - rewrite map_map. apply map_ext_Forall. eapply Forall_impl; [exact Hall|].
      intros parts [Hparts Hplain]. simpl. symmetry. apply columnOf_parts; [exact Hparts|].
      eapply Forall_impl; [exact Hplain|]. intros p Hp. simpl. now apply plainName_inv in Hp.
    - destruct columns; [congruence | discriminate].
    - eapply Forall_impl; [exact Hpieces|]. now intros piece [Hc _]. }
  apply Fields_unique.
  - intros x Hx. apply ColumnsMatch_matchColumns in Hx. congruence.
  - exists EmptyString. split; [|intros; simpl; lia].
    exists EmptyString. split; [now rewrite append_nil_r|]. split; [|reflexivity].
    apply lineFree_joined; [reflexivity|].
    eapply Forall_impl; [exact Hpieces|]. now intros piece [_ Hl].
Qed.

(** A column named without its table, and one named with its schema. *)
Lemma newer_form_takes_second_piece_witness :
  extractFields "UNIQUE constraint failed: email, main.users.username"
  = [VUndefined; VString "users"].
Proof.
  apply (newer_form_takes_second_piece _ [["email"]; ["main"; "users"; "username"]]).
  - discriminate.
  - repeat constructor; discriminate.
  - reflexivity.
  - reflexivity.
Defined.

End ClassifierMore.

(** ** More on the result shaper *)

Module ShaperMore.

Import Query Runner Shaper ShaperSpec ShaperReading ShaperFacts Samples.

Section MutationFailures.

Context {E DataType Records : Type}.
Variable _parseDatabaseValue : JsValue -> option DataType -> JsValue.

Lemma applyRow_without_model (row : JsObject) (names : list string) (inst : ModelInstance) :
  names <> [] -> applyRow (E := E) _parseDatabaseValue None row names inst = Err TypeError.
Proof. destruct names; [congruence | reflexivity]. Qed.

Lemma applyRow_with_model (m : Model DataType) (row : JsObject) (names : list string) :
  forall inst : ModelInstance,
    exists inst', applyRow (E := E) _parseDatabaseValue (Some m) row names inst = Ok inst'.
Proof. induction names as [|n names IH]; intros inst; simpl; eauto. Qed.

Lemma applyRow_no_follow_up (m : option (Model DataType)) (row : JsObject)
    (names : list string) :
  forall (inst : ModelInstance) (e : E),
    applyRow (E := E) _parseDatabaseValue m row names inst <> Err (FollowUpError e).
Proof.
  induction names as [|n names IH]; intros inst e; simpl; [discriminate|].
  destruct m as [m|]; [apply IH | discriminate].
Qed.

Lemma handleMutation_no_follow_up (this : QueryObject DataType) (metaData : Metadata)
    (results : list JsObject) (e : E) :
  handleMutation (E := E) (Records := Records) _parseDatabaseValue this metaData results
  <> Err (FollowUpError e).
Proof.
  unfold handleMutation, populateInstance.
  destruct (instance this) as [inst|];
    [|destruct (isUpsertQuery (predicates this)); discriminate].
  destruct (dataValues inst) as [values|];
    [|destruct (isUpsertQuery (predicates this)); discriminate].
  destruct (isInsertQuery (predicates this) && negb (isUpsertQuery (predicates this))
            && (length results =? 0)%nat); [discriminate|].
  destruct results as [|row rest];
    [destruct (isUpsertQuery (predicates this)); discriminate|].
  pose proof (applyRow_no_follow_up (model this) row (keys row) inst e) as Hrow.
  destruct (applyRow _parseDatabaseValue (model this) row (keys row) inst) as [inst'|e'].
  - destruct (isUpsertQuery (predicates this)); discriminate.
  - intros [= ->]. now apply Hrow.
Qed.

(** X12. The mutation branch fails in two cases only. It raises
    EmptyResult exactly when an instance with data values is attached, the
    statement is an insert and no upsert, and no row came back. It raises a
    TypeError exactly when such an instance is attached, the first row
    returned has a column, and the query object has no model to look the
    column up in. It never raises the error of a follow-up call. *)
Theorem mutation_failures (this : QueryObject DataType) (metaData : Metadata)
    (results : list JsObject) :
  (handleMutation (E := E) (Records := Records) _parseDatabaseValue this metaData results
   = Err EmptyResultError
   <-> (exists inst values, instance this = Some inst /\ dataValues inst = Some values)
       /\ isInsertQuery (predicates this) = true
       /\ isUpsertQuery (predicates this) = false
       /\ results = [])
  /\ (handleMutation (E := E) (Records := Records) _parseDatabaseValue this metaData results
      = Err TypeError
      <-> exists inst values row rest,
            instance this = Some inst /\ dataValues inst = Some values
            /\ results = row :: rest /\ row <> [] /\ model this = None)
  /\ (forall e,
        handleMutation (E := E) (Records := Records) _parseDatabaseValue this metaData results
        <> Err (FollowUpError e)).
Proof.
  unfold handleMutation, populateInstance.
  destruct (instance this) as [inst|] eqn:Einst.
  2:{ split; [|split].
      - split; [destruct (isUpsertQuery (predicates this)); discriminate|].
        intros [(inst & values & Hi & _) _]. discriminate.
      - split; [destruct (isUpsertQuery (predicates this)); discriminate|].
        intros (inst & values & row & rest & Hi & _). discriminate.
      - intros e. destruct (isUpsertQuery (predicates this)); discriminate. }
  destruct (dataValues inst) as [values|] eqn:Edata.
  2:{ split; [|split].
      - split; [destruct (isUpsertQuery (predicates this)); discriminate|].
        intros [(inst' & values & [= <-] & Hd) _]. congruence.
      - split; [destruct (isUpsertQuery (predicates this)); discriminate|].
        intros (inst' & values & row & rest & [= <-] & Hd & _). congruence.
      - intros e. destruct (isUpsertQuery (predicates this)); discriminate. }
  destruct results as [|row rest].
  - simpl. destruct (isInsertQuery (predicates this)) eqn:Eins;
      destruct (isUpsertQuery (predicates this)) eqn:Eups; simpl;
      (split; [|split]);
      try (split; [discriminate | intros (_ & ? & ? & _); discriminate]);
      try (split; [discriminate | intros (? & ? & ? & ? & _ & _ & ? & _); discriminate]);
      try (intros e; discriminate).
    split; [|reflexivity]. intros _. split; [eauto|]. now repeat split.
  - rewrite andb_false_r.
    destruct row as [|[k v] row].
    + simpl. split; [|split].
      * split; [destruct (isUpsertQuery (predicates this)); discriminate|].
        intros (_ & _ & _ & ?). discriminate.
      * split; [destruct (isUpsertQuery (predicates this)); discriminate|].
        intros (? & ? & ? & ? & _ & _ & [= <- <-] & Hne & _). congruence.
      * intros e. destruct (isUpsertQuery (predicates this)); discriminate.
    + destruct (model this) as [m|] eqn:Emodel.
      * destruct (applyRow_with_model m ((k, v) :: row) (keys ((k, v) :: row)) inst)
          as [inst' ->].
        split; [|split].
        -- split; [destruct (isUpsertQuery (predicates this)); discriminate|].
           intros (_ & _ & _ & ?). discriminate.
        -- split; [destruct (isUpsertQuery (predicates this)); discriminate|].
           intros (? & ? & ? & ? & _ & _ & _ & _ & ?). discriminate.
        -- intros e. destruct (isUpsertQuery (predicates this)); discriminate.
      * rewrite applyRow_without_model by discriminate.
        split; [|split].
        -- split; [discriminate|]. intros (_ & _ & _ & ?). discriminate.
        -- split; [|reflexivity]. intros _.
           exists inst, values, ((k, v) :: row), rest.
           split; [reflexivity|]. split; [exact Edata|]. split; [reflexivity|].
           split; [discriminate | reflexivity].
        -- intros e. discriminate.
Qed.

End MutationFailures.



Lemma describeTable_last (results : list TableInfoRow) :
  forall (result : gmap string ColumnDescription) (column : string),
    describeTable results result !! column
    = match last (rowsNamed column results) with
      | Some _result => Some (describeColumn _result)
      | None => result !! column
      end.
Proof.
  induction results as [|r results IH]; intros result column; [reflexivity|].
  simpl. rewrite IH. unfold rowsNamed. simpl.
  destruct (String.eqb (name r) column) eqn:E.
  - apply String.eqb_eq in E. rewrite last_cons.
    destruct (last (List.filter _ results)); [reflexivity|].
    rewrite <- E. apply lookup_insert_eq.
  - apply String.eqb_neq in E.
    destruct (last (List.filter _ results)); [reflexivity|].
    now apply lookup_insert_ne.
Qed.

Lemma rowsNamed_nil (column : string) (results : list TableInfoRow) :
  rowsNamed column results = [] <-> column ∉ map name results.
Proof.
  unfold rowsNamed. induction results as [|r results IH]; simpl.
  - split; [intros _ Hin; inversion Hin | reflexivity].
  - rewrite not_elem_of_cons. destruct (String.eqb (name r) column) eqn:E.
    + apply String.eqb_eq in E. split; [discriminate | intros [Hne _]; congruence].
    + apply String.eqb_neq in E. rewrite IH. split; [now split | now intros [_ ?]].
Qed.

(** X14. The table description has one entry per column name of the
    response: when several rows carry the same name the last one is the
    one described, and a name has no entry exactly when no row carries
    it. *)
Theorem table_description_last_row_wins (results : list TableInfoRow) (column : string) :
  describeTable results ∅ !! column = describeColumn <$> last (rowsNamed column results)
  /\ (describeTable results ∅ !! column = None <-> column ∉ map name results)
  /\ (forall before _result after,
        results = before ++ _result :: after ->
        name _result ∉ map name after ->
        describeTable results ∅ !! name _result = Some (describeColumn _result)).
Proof.
  assert (describeTable results ∅ !! column = describeColumn <$> last (rowsNamed column results))
    as Hlast.
  { rewrite describeTable_last. destruct (last (rowsNamed column results)); [reflexivity|].
    apply lookup_empty. }
  split; [exact Hlast|]. split.
  - rewrite Hlast, <- rowsNamed_nil.
    destruct (rowsNamed column results) as [|r rows] eqn:E; [now split|].
    rewrite last_cons. destruct (last rows); split; discriminate.
  - intros before r after -> Hafter. rewrite describeTable_last.
    unfold rowsNamed. rewrite List.filter_app. simpl. rewrite String.eqb_refl.
    apply rowsNamed_nil in Hafter. unfold rowsNamed in Hafter. rewrite Hafter.
    now rewrite last_snoc.
Qed.

Lemma fold_left_max (l : list nat) :
  forall a : nat, fold_left Nat.max l a = Nat.max a (list_max l).
Proof.
  induction l as [|x l IH]; intros a; simpl; [lia|]. rewrite IH. lia.
Qed.

Lemma fillFields_length (cols : list IndexInfoRow) :
  forall acc : list (option IndexField),
    length (fillFields cols acc)
    = Nat.max (length acc) (list_max (map (fun column => S (seqno column)) cols)).
Proof.
  induction cols as [|column cols IH]; intros acc; simpl; [lia|].
  rewrite IH, arraySet_length. lia.
Qed.

Lemma fillFields_app (cols cols' : list IndexInfoRow) :
  forall acc : list (option IndexField),
    fillFields (cols ++ cols') acc = fillFields cols' (fillFields cols acc).
Proof. induction cols as [|column cols IH]; intros acc; simpl; [reflexivity | apply IH]. Qed.

(** X15. The field list of a described index is as long as the highest
    sequence number reported, plus one (empty without columns); when two
    columns report the same sequence number the later one is kept; when
    the columns come in sequence order the list is these columns, without
    holes. *)
Theorem field_list_shape (item : IndexListRow) (cols : list IndexInfoRow) :
  length (fields (describeIndex item cols))
  = list_max (map (fun column => S (seqno column)) cols)
  /\ (forall before column after,
        cols = before ++ column :: after ->
        seqno column ∉ map seqno after ->
        arrayGet (fields (describeIndex item cols)) (seqno column) = Some (fieldOf column))
  /\ (map seqno cols = seq 0 (length cols) ->
      fields (describeIndex item cols) = map (fun column => Some (fieldOf column)) cols).
Proof.
  simpl. split; [|split].
  - now rewrite fillFields_length.
  - intros before column after -> Hafter.
    rewrite fillFields_app. simpl. rewrite fillFields_other by exact Hafter.
    apply arrayGet_arraySet_eq.
  - intros Hseq. now rewrite fillFields_in_order.
Qed.

Section FollowUpFacts.

Context {W E : Type}.
Variable run : string -> M W E (list IndexInfoRow).

Lemma collectAll_resolved (settled : list (IndexListRow * result E (list IndexInfoRow))) :
  Forall resolved settled ->
  exists indexes, collectAll settled = Ok indexes /\ length indexes = length settled.
Proof.
  induction 1 as [|[item r] settled [cols Hr] _ (indexes & IH & Hlen)]; simpl.
  - now exists [].
  - simpl in Hr. subst r. rewrite IH. eexists. split; [reflexivity|]. simpl. now rewrite Hlen.
Qed.

Lemma collectAll_ok_resolved (settled : list (IndexListRow * result E (list IndexInfoRow))) :
  forall indexes,
    collectAll settled = Ok indexes ->
    Forall resolved settled /\ length indexes = length settled.
Proof.
  induction settled as [|[item [cols|e]] settled IH]; intros indexes; simpl.
  - intros [= <-]. split; [constructor | reflexivity].
  - destruct (collectAll settled) as [shaped|e]; [|discriminate].
    intros [= <-]. destruct (IH shaped eq_refl) as [Hall Hlen].
    split; [constructor; [now exists cols | exact Hall] | simpl; now rewrite Hlen].
  - discriminate.
Qed.

Lemma collectAll_err (settled : list (IndexListRow * result E (list IndexInfoRow))) (e : E) :
  collectAll settled = Err e -> exists item, (item, Err e) ∈ settled.
Proof.
  induction settled as [|[item [cols|e']] settled IH]; simpl.
  - discriminate.
  - destruct (collectAll settled) as [shaped|e'']; [discriminate|].
    intros [= ->]. destruct (IH eq_refl) as [item' Hin]. exists item'. now right.
  - intros [= ->]. exists item. now left.
Qed.

Lemma issueFollowUps_length (items : list IndexListRow) (w : W) :
  length (fst (issueFollowUps run items w)) = length items.
Proof.
  transitivity (length (map fst (fst (issueFollowUps run items w))));
    [symmetry; apply length_map | f_equal; apply issueFollowUps_items].
Qed.

(** X16. [handleShowIndexesQuery] is all or nothing: it resolves exactly
    when every follow-up resolves, then with one description per index
    row; when it rejects, the error is that of a follow-up issued for one
    of the index rows. In both cases every follow-up was issued. *)
Theorem show_indexes_all_or_nothing (data : list IndexListRow) (w : W) :
  (Forall resolved (fst (issueFollowUps run (rev data) w)) ->
   exists indexes,
     fst (handleShowIndexesQuery run data w) = Ok indexes /\ length indexes = length data)
  /\ (forall indexes,
        fst (handleShowIndexesQuery run data w) = Ok indexes ->
        Forall resolved (fst (issueFollowUps run (rev data) w))
        /\ length indexes = length data)
  /\ (forall e,
        fst (handleShowIndexesQuery run data w) = Err e ->
        exists item,
          item ∈ data
          /\ (item, Err e) ∈ fst (issueFollowUps run (rev data) w))
  /\ snd (handleShowIndexesQuery run data w) = snd (issueFollowUps run (rev data) w).
Proof.
  unfold handleShowIndexesQuery.
  pose proof (issueFollowUps_length (rev data) w) as Hlen.
  pose proof (issueFollowUps_items run (rev data) w) as Hitems.
  destruct (issueFollowUps run (rev data) w) as [settled w']. simpl in *.
  rewrite length_rev in Hlen.
  split; [|split; [|split]].
  - intros Hall. destruct (collectAll_resolved settled Hall) as (indexes & Hok & Hl).
    exists indexes. split; [exact Hok | congruence].
  - intros indexes Hok. destruct (collectAll_ok_resolved settled indexes Hok) as [Hall Hl].
    split; [exact Hall | congruence].
  - intros e Herr. destruct (collectAll_err settled e Herr) as [item Hin].
    exists item. split; [|exact Hin].
    apply list_elem_of_In, in_rev, list_elem_of_In. rewrite <- Hitems.
    apply list_elem_of_fmap. exists (item, Err e). split; [reflexivity | exact Hin].
  - reflexivity.
Qed.

End FollowUpFacts.

(** The two follow-ups of the sample table resolve, and so does the call:
    one description per index. *)
Lemma show_indexes_all_or_nothing_witness :
  exists indexes,
    fst (handleShowIndexesQuery indexInfo indexList []) = Ok indexes
    /\ length indexes = 2.
Proof.
  destruct (show_indexes_all_or_nothing indexInfo indexList []) as (Hall & _).
  apply Hall. repeat constructor; eexists; reflexivity.
Defined.

Section EffectFacts.

Context {W E DataType Records : Type}.
Variable _parseDatabaseValue : JsValue -> option DataType -> JsValue.
Variable handleSelectQuery : list JsObject -> Records.
Variable run : string -> M W E (list IndexInfoRow).

(** X17. Handling a response calls nothing outside the show-indexes
    branch, and cannot fail outside the mutation and show-indexes
    branches: an error of a follow-up call comes from the show-indexes
    branch only, EmptyResult and TypeError from the mutation branch
    only. *)
Theorem response_handling_effects (this : QueryObject DataType) (metaData : Metadata)
    (results : list (RowOf (responseBranch this))) (w : W) :
  (responseBranch this <> BShowIndexes ->
   snd (_handleQueryResponse _parseDatabaseValue handleSelectQuery run this metaData results w)
   = w)
  /\ (responseBranch this <> BShowIndexes -> responseBranch this <> BMutation ->
      exists shaped,
        fst (_handleQueryResponse _parseDatabaseValue handleSelectQuery run this metaData
               results w) = Ok shaped)
  /\ (forall e,
        fst (_handleQueryResponse _parseDatabaseValue handleSelectQuery run this metaData
               results w) = Err (FollowUpError e) ->
        responseBranch this = BShowIndexes)
  /\ (forall error,
        fst (_handleQueryResponse _parseDatabaseValue handleSelectQuery run this metaData
               results w) = Err error ->
        error = EmptyResultError \/ error = TypeError ->
        responseBranch this = BMutation).
Proof.
  unfold _handleQueryResponse. revert results.
  destruct (responseBranch this); intros results; unfold ret, settle; simpl;
    (split; [|split; [|split]]);
    try (intros _; reflexivity);
    try (intros _ _; eexists; reflexivity);
    try congruence;
    try (intros; discriminate).
  - intros e He. exfalso. revert He. apply handleMutation_no_follow_up.
  - unfold bind, rethrow.
    destruct (handleShowIndexesQuery run results w) as [[indexes|e] w']; simpl.
    + discriminate.
    + intros error [= <-] [Herr|Herr]; discriminate.
Qed.

End EffectFacts.

End ShaperMore.

(** ** More on the connection manager *)

Module ConnectionMore.

Import ConnectionManager ConnectionReading ConnectionFacts Samples MoreSamples.

Section LocalFacts.

Context `{Driver}.
Variable pool : Pool.
Variable foreignKeys : option bool.
Variable options : ConnectionOptions.

(** The local path of [connect], once the module is loaded and the guard
    passed. *)
Lemma connect_local (w : World) :
  loadModule = None ->
  given (url options) = false ->
  (isTemporary (storageOf options) = true -> temporaryStorageViolation pool = None) ->
  connect pool foreignKeys options w
  = (_ <-- ensureDirectory (isTemporary (storageOf options)) (dirname (storageOf options)) ;;
     rethrow (openLocal foreignKeys options) ConnectionError) w.
Proof.
  intros Hload Hurl Hguard. unfold connect, openLocal, setUp. rewrite Hload, Hurl. cbv zeta.
  fold (storageOf options). fold (isTemporary (storageOf options)).
  destruct (isTemporary (storageOf options)) eqn:Etemp.
  - rewrite (Hguard eq_refl). simpl. now rewrite andb_true_r.
  - simpl. now rewrite andb_true_r.
Qed.

Lemma ensureDirectory_ok (storage : string) (w : World) :
  (isTemporary storage = false -> checkFileExists (dirname storage) = false ->
   mkdir (dirname storage) = None) ->
  ensureDirectory (isTemporary storage) (dirname storage) w
  = (Ok tt, {| connections := connections w;
               events := events w ++ directoryEvents storage |}).
Proof.
  intros Hdir. unfold ensureDirectory, directoryEvents, log.
  destruct (isTemporary storage).
  - rewrite app_nil_r. now destruct w.
  - destruct (checkFileExists (dirname storage)); [reflexivity|].
    rewrite (Hdir eq_refl eq_refl). simpl. now rewrite <- app_assoc.
Qed.

Lemma setUp_ok (conn : nat) (w : World) :
  Forall (fun statement => connExec conn statement = None)
    (fatalStatements foreignKeys options) ->
  setUp foreignKeys options conn w
  = (Ok conn, {| connections := connections w;
                 events := events w
                           ++ map (ConnExec conn) (setupStatements foreignKeys options) |}).
Proof.
  unfold setUp, setupStatements, fatalStatements, when, bind, exec, swallow, ret, log.
  intros Hall.
  destruct (given (password options));
    destruct (bool_decide (foreignKeys = Some false));
    destruct (bool_decide (enableWal options = Some false)); simpl in *;
    repeat match goal with
           | Hf : Forall _ (_ :: _) |- _ => apply Forall_cons in Hf as [? Hf]
           end;
    repeat match goal with
           | He : connExec _ _ = None |- _ => rewrite He; clear He
           end;
    simpl;
    try destruct (connExec conn "PRAGMA journal_mode = WAL");
    simpl; rewrite <- ?app_assoc, ?app_nil_r; try reflexivity; now destruct w.
Qed.

Lemma setUp_fails (conn : nat) (w : World) (before after : list string)
    (statement : string) (e : Failure) :
  fatalStatements foreignKeys options = before ++ statement :: after ->
  Forall (fun statement' => connExec conn statement' = None) before ->
  connExec conn statement = Some e ->
  setUp foreignKeys options conn w
  = (Err e, {| connections := connections w;
               events := events w ++ map (ConnExec conn) (before ++ [statement]) |}).
Proof.
  unfold setUp, fatalStatements, when, bind, exec, swallow, ret, log.
  intros Hsplit Hbefore Hfail.
  destruct (given (password options));
    destruct (bool_decide (foreignKeys = Some false)); simpl in *.
  - destruct before as [|b [|b' before]]; simpl in Hsplit; try discriminate.
    injection Hsplit as <- <-. now rewrite Hfail.
  - destruct before as [|b [|b' [|b'' before]]]; simpl in Hsplit; try discriminate.
    + injection Hsplit as <- <-. now rewrite Hfail.
    + injection Hsplit as <- <- <-. apply Forall_cons in Hbefore as [Hkey _].
      rewrite Hkey. simpl. rewrite Hfail. now rewrite <- app_assoc.
  - now destruct before.
  - destruct before as [|b [|b' before]]; simpl in Hsplit; try discriminate.
    injection Hsplit as <- <-. now rewrite Hfail.
Qed.

Lemma openLocal_connected (w : World) :
  libConnect (storageOf options) None = None ->
  openLocal foreignKeys options w
  = setUp foreignKeys options (fresh (dom (connections w)))
      {| connections := <[ fresh (dom (connections w)) := opened (storageOf options) ]>
                          (connections w);
         events := events w ++ [LibConnect (storageOf options) None] |}.
Proof.
  intros Hlib. unfold openLocal, bind, connectTo, setFilename, log. simpl. rewrite Hlib.
  unfold connectionOf. simpl. rewrite lookup_insert_eq. simpl.
  now rewrite insert_insert_eq.
Qed.

(** X18. A local connection succeeds as soon as the guard lets the pool
    through, the storage directory exists or can be made, the driver opens
    the storage, and the key and foreign-key statements (those that are
    asked for) succeed: whether the journal-mode statement succeeds plays
    no part. The calls are then, in this order, the check of the directory
    and its creation when missing (none for temporary storage), the opening
    of the storage, and the setup statements. The handle returned is new,
    carries the storage as its file name and is valid. *)
Theorem local_connection_setup (w : World) :
  loadModule = None ->
  given (url options) = false ->
  (isTemporary (storageOf options) = true -> temporaryStorageViolation pool = None) ->
  (isTemporary (storageOf options) = false ->
   checkFileExists (dirname (storageOf options)) = false ->
   mkdir (dirname (storageOf options)) = None) ->
  libConnect (storageOf options) None = None ->
  Forall (fun statement => connExec (fresh (dom (connections w))) statement = None)
    (fatalStatements foreignKeys options) ->
  connect pool foreignKeys options w
  = (Ok (fresh (dom (connections w))),
     {| connections := <[ fresh (dom (connections w)) := opened (storageOf options) ]>
                         (connections w);
        events := events w ++ directoryEvents (storageOf options)
                  ++ [LibConnect (storageOf options) None]
                  ++ map (ConnExec (fresh (dom (connections w))))
                       (setupStatements foreignKeys options) |})
  /\ connections w !! fresh (dom (connections w)) = None
  /\ validate (snd (connect pool foreignKeys options w)) (fresh (dom (connections w))) = true.
Proof.
  intros Hload Hurl Hguard Hdir Hlib Hsetup.
  assert (connect pool foreignKeys options w
          = (Ok (fresh (dom (connections w))),
             {| connections := <[ fresh (dom (connections w)) := opened (storageOf options) ]>
                                 (connections w);
                events := events w ++ directoryEvents (storageOf options)
                          ++ [LibConnect (storageOf options) None]
                          ++ map (ConnExec (fresh (dom (connections w))))
                               (setupStatements foreignKeys options) |})) as Hconnect.
  { rewrite (connect_local w Hload Hurl Hguard). unfold bind at 1.
    rewrite (ensureDirectory_ok _ w Hdir). unfold rethrow.
    rewrite openLocal_connected by exact Hlib. simpl.
    rewrite setUp_ok by exact Hsetup. simpl. now rewrite <- !app_assoc. }
  split; [exact Hconnect|]. split.
  - apply not_elem_of_dom. apply is_fresh.
  - rewrite Hconnect. unfold validate, closed, connectionOf. simpl.
    now rewrite lookup_insert_eq.
Qed.

(** X19. When the key statement or the foreign-key statement fails on a
    local connection, [connect] rejects with a ConnectionError whose cause
    is that failure; no later setup statement is executed, and the handle
    the driver gave out is neither closed nor marked closed. *)
Theorem fatal_statements_fail_the_connection (w : World) (before after : list string)
    (statement : string) (e : Failure) :
  loadModule = None ->
  given (url options) = false ->
  (isTemporary (storageOf options) = true -> temporaryStorageViolation pool = None) ->
  (isTemporary (storageOf options) = false ->
   checkFileExists (dirname (storageOf options)) = false ->
   mkdir (dirname (storageOf options)) = None) ->
  libConnect (storageOf options) None = None ->
  fatalStatements foreignKeys options = before ++ statement :: after ->
  Forall (fun statement' => connExec (fresh (dom (connections w))) statement' = None) before ->
  connExec (fresh (dom (connections w))) statement = Some e ->
  connect pool foreignKeys options w
  = (Err (ConnectionError e),
     {| connections := <[ fresh (dom (connections w)) := opened (storageOf options) ]>
                         (connections w);
        events := events w ++ directoryEvents (storageOf options)
                  ++ [LibConnect (storageOf options) None]
                  ++ map (ConnExec (fresh (dom (connections w)))) (before ++ [statement]) |})
  /\ validate (snd (connect pool foreignKeys options w)) (fresh (dom (connections w))) = true.
Proof.
  intros Hload Hurl Hguard Hdir Hlib Hsplit Hbefore Hfail.
  assert (connect pool foreignKeys options w
          = (Err (ConnectionError e),
             {| connections := <[ fresh (dom (connections w)) := opened (storageOf options) ]>
                                 (connections w);
                events := events w ++ directoryEvents (storageOf options)
                          ++ [LibConnect (storageOf options) None]
                          ++ map (ConnExec (fresh (dom (connections w))))
                               (before ++ [statement]) |})) as Hconnect.
  { rewrite (connect_local w Hload Hurl Hguard). unfold bind at 1.
    rewrite (ensureDirectory_ok _ w Hdir). unfold rethrow.
    rewrite openLocal_connected by exact Hlib. simpl.
    rewrite (setUp_fails _ _ before after statement e Hsplit Hbefore Hfail). simpl.
    now rewrite <- !app_assoc. }
  split; [exact Hconnect|].
  rewrite Hconnect. unfold validate, closed, connectionOf. simpl.
  now rewrite lookup_insert_eq.
Qed.

(** X20. On the local path, a failure to make the storage directory comes
    out as it is, before the driver is called; a failure of the driver to
    open the storage comes out wrapped in a ConnectionError, and no
    connection object is made. *)
Theorem failures_before_setup (w : World) (e : Failure) :
  loadModule = None ->
  given (url options) = false ->
  (isTemporary (storageOf options) = true -> temporaryStorageViolation pool = None) ->
  (isTemporary (storageOf options) = false ->
   checkFileExists (dirname (storageOf options)) = false ->
   mkdir (dirname (storageOf options)) = Some e ->
   connect pool foreignKeys options w
   = (Err (Thrown e),
      {| connections := connections w;
         events := events w ++ [CheckFileExists (dirname (storageOf options));
                                Mkdir (dirname (storageOf options))] |}))
  /\ ((isTemporary (storageOf options) = false ->
       checkFileExists (dirname (storageOf options)) = false ->
       mkdir (dirname (storageOf options)) = None) ->
      libConnect (storageOf options) None = Some e ->
      connect pool foreignKeys options w
      = (Err (ConnectionError e),
         {| connections := connections w;
            events := events w ++ directoryEvents (storageOf options)
                      ++ [LibConnect (storageOf options) None] |})).
Proof.
  intros Hload Hurl Hguard. split.
  - intros Htemp Hmissing Hmkdir.
    rewrite (connect_local w Hload Hurl Hguard).
    unfold bind, ensureDirectory, log. rewrite Htemp, Hmissing, Hmkdir. simpl.
    now rewrite <- app_assoc.
  - intros Hdir Hlib.
    rewrite (connect_local w Hload Hurl Hguard). unfold bind at 1.
    rewrite (ensureDirectory_ok _ w Hdir).
    unfold rethrow, openLocal, bind, connectTo, log. simpl. rewrite Hlib.
    now rewrite <- app_assoc.
Qed.

End LocalFacts.

Section TargetFacts.

Context `{Driver}.

(** X21. A remote target (a non-empty url) without a token is refused
    before any call. With a token, the only call made is the driver's
    [connect] with the url and the token: no file-system call, no setup
    statement. Its failure comes out wrapped in a ConnectionError; on
    success the new handle is returned, without file name. *)
Theorem remote_connections (pool : Pool) (foreignKeys : option bool)
    (options : ConnectionOptions) (w : World) (target : string) :
  loadModule = None ->
  url options = Some target ->
  target <> EmptyString ->
  (given (authToken options) = false ->
   connect pool foreignKeys options w = (Err AuthTokenRequired, w))
  /\ (given (authToken options) = true ->
      events (snd (connect pool foreignKeys options w))
      = events w ++ [LibConnect target (authToken options)]
      /\ (forall e, libConnect target (authToken options) = Some e ->
            fst (connect pool foreignKeys options w) = Err (ConnectionError e)
            /\ connections (snd (connect pool foreignKeys options w)) = connections w)
      /\ (libConnect target (authToken options) = None ->
          fst (connect pool foreignKeys options w) = Ok (fresh (dom (connections w)))
          /\ connections (snd (connect pool foreignKeys options w))
             = <[ fresh (dom (connections w)) := {| filename := None; closedFlag := false |} ]>
                 (connections w))).
Proof.
  intros Hload Hurl Htarget. unfold connect. rewrite Hload, Hurl. simpl.
  apply String.eqb_neq in Htarget. rewrite Htarget. simpl. split.
  - now intros ->.
  - intros ->. simpl. unfold rethrow, connectTo, log. simpl.
    destruct (libConnect target (authToken options)) as [e|]; simpl.
    + split; [reflexivity|]. split; [|discriminate]. intros e' [= <-]. now split.
    + split; [reflexivity|]. split; [discriminate|]. intros _. now split.
Qed.

(** X22. The pool is only looked at for temporary storage: for a remote
    target, or a local storage that is neither [:memory:] nor the empty
    path, [connect] behaves the same whatever the pool. *)
Theorem pool_matters_for_temporary_storage_only (pool pool' : Pool)
    (foreignKeys : option bool) (options : ConnectionOptions) (w : World) :
  given (url options) = true \/ isTemporary (storageOf options) = false ->
  connect pool foreignKeys options w = connect pool' foreignKeys options w.
Proof.
  intros Htarget. unfold connect. destruct loadModule; [reflexivity|].
  destruct (given (url options)) eqn:Eurl; [reflexivity|].
  destruct Htarget as [Hremote | Hlocal]; [discriminate|].
  cbv zeta. fold (storageOf options). fold (isTemporary (storageOf options)).
  now rewrite Hlocal.
Qed.

(** X23. When the driver module fails to load, [connect] fails before
    looking at its options and calls nothing; the failure is reported as a
    missing driver when its code is [ERR_MODULE_NOT_FOUND] or
    [MODULE_NOT_FOUND], and rethrown as it is otherwise. *)
Theorem module_failures_come_first (pool : Pool) (foreignKeys : option bool)
    (options : ConnectionOptions) (w : World) (err : Failure) :
  loadModule = Some err ->
  snd (connect pool foreignKeys options w) = w
  /\ (failureCode err = Some "ERR_MODULE_NOT_FOUND" \/ failureCode err = Some "MODULE_NOT_FOUND" ->
      fst (connect pool foreignKeys options w) = Err DriverMissing)
  /\ (failureCode err <> Some "ERR_MODULE_NOT_FOUND" ->
      failureCode err <> Some "MODULE_NOT_FOUND" ->
      fst (connect pool foreignKeys options w) = Err (Thrown err)).
Proof.
  intros Hload. unfold connect. rewrite Hload. unfold throw, moduleNotFound. simpl.
  split; [reflexivity|]. split.
  - intros [-> | ->]; reflexivity.
  - intros Hesm Hcjs. destruct (failureCode err) as [c|]; [|reflexivity].
    destruct (String.eqb c "ERR_MODULE_NOT_FOUND") eqn:E1;
      [apply String.eqb_eq in E1; congruence|].
    destruct (String.eqb c "MODULE_NOT_FOUND") eqn:E2;
      [apply String.eqb_eq in E2; congruence|].
    reflexivity.
Qed.

(** X24. Disconnecting a connection leaves every other connection object
    as it was, and keeps the file name of the one disconnected. *)
Theorem disconnect_leaves_the_rest (connection other : nat) (w : World) :
  other <> connection ->
  connections (snd (disconnect connection w)) !! other = connections w !! other
  /\ closed (snd (disconnect connection w)) other = closed w other
  /\ filename (connectionOf (snd (disconnect connection w)) connection)
     = filename (connectionOf w connection)
  /\ filename (connectionOf (snd (disconnect connection w)) other)
     = filename (connectionOf w other).
Proof.
  intros Hother.
  assert (connections (snd (disconnect connection w)) !! other = connections w !! other)
    as Hframe.
  { unfold disconnect, rethrow, bind, close, markClosed, log.
    destruct (closed w connection); [reflexivity|].
    destruct (connClose connection); simpl; [reflexivity|].
    now rewrite lookup_insert_ne by congruence. }
  split; [exact Hframe|]. split; [|split].
  - unfold closed, connectionOf. now rewrite Hframe.
  - unfold disconnect, rethrow, bind, close, markClosed, log.
    destruct (closed w connection); [reflexivity|].
    destruct (connClose connection); simpl; [reflexivity|].
    unfold connectionOf at 1. simpl. now rewrite lookup_insert_eq.
  - unfold connectionOf. now rewrite Hframe.
Qed.

End TargetFacts.

(** An encrypted database file opened through a driver whose calls all
    succeed: the key, the foreign keys and the journal mode, in this order. *)
Lemma local_connection_setup_witness :
  fst (connect (H := workingDriver) poolOfFive None fileOptions emptyWorld) = Ok 0
  /\ events (snd (connect (H := workingDriver) poolOfFive None fileOptions emptyWorld))
     = [CheckFileExists "/srv/app/data.turso"; LibConnect "/srv/app/data.turso" None;
        ConnExec 0 "PRAGMA KEY=secret"; ConnExec 0 "PRAGMA foreign_keys = ON";
        ConnExec 0 "PRAGMA journal_mode = WAL"].
Proof.
  destruct (local_connection_setup (H := workingDriver) poolOfFive None fileOptions emptyWorld)
    as [Hconnect _].
  - reflexivity.
  - reflexivity.
  - intros Htemp. vm_compute in Htemp. discriminate.
  - intros _ Hmissing. vm_compute in Hmissing. discriminate.
  - reflexivity.
  - repeat constructor.
  - rewrite Hconnect. split; vm_compute; reflexivity.
Defined.

(** The same file on an engine without foreign-key enforcement: the key is
    set, the connection fails, and nothing closes the handle. *)
Lemma fatal_statements_fail_the_connection_witness :
  fst (connect (H := bareDriver) poolOfFive None fileOptions emptyWorld)
  = Err (ConnectionError {| failureCode := None; failureMessage := "not supported" |})
  /\ events (snd (connect (H := bareDriver) poolOfFive None fileOptions emptyWorld))
     = [CheckFileExists "/srv/app"; Mkdir "/srv/app"; LibConnect "/srv/app/data.turso" None;
        ConnExec 0 "PRAGMA KEY='secret'"; ConnExec 0 "PRAGMA foreign_keys = ON"]
  /\ validate (snd (connect (H := bareDriver) poolOfFive None fileOptions emptyWorld)) 0 = true.
Proof.
  destruct (fatal_statements_fail_the_connection (H := bareDriver) poolOfFive None fileOptions
              emptyWorld ["PRAGMA KEY='secret'"] [] "PRAGMA foreign_keys = ON"
              {| failureCode := None; failureMessage := "not supported" |})
    as [Hconnect Hvalid].
  - reflexivity.
  - reflexivity.
  - intros Htemp. vm_compute in Htemp. discriminate.
  - intros _ _. reflexivity.
  - reflexivity.
  - reflexivity.
  - repeat constructor.
  - reflexivity.
  - split; [|split; [|exact Hvalid]]; rewrite Hconnect; vm_compute; reflexivity.
Defined.

(** A storage directory that cannot be made: the error of [mkdir] comes
    out as it is, and the driver is not called. *)
Lemma failures_before_setup_witness :
  connect (H := bareDriver) poolOfFive None readonlyOptions emptyWorld
  = (Err (Thrown {| failureCode := Some "EROFS"; failureMessage := "read-only file system" |}),
     {| connections := ∅; events := [CheckFileExists "/readonly"; Mkdir "/readonly"] |}).
Proof.
  destruct (failures_before_setup (H := bareDriver) poolOfFive None readonlyOptions emptyWorld
              {| failureCode := Some "EROFS"; failureMessage := "read-only file system" |})
    as [Hmkdir _].
  - reflexivity.
  - reflexivity.
  - intros Htemp. vm_compute in Htemp. discriminate.
  - apply Hmkdir; reflexivity.
Defined.

(** A remote database asked for without its token. *)
Lemma remote_connections_witness :
  connect (H := bareDriver) poolOfFive None (remoteOptions None) emptyWorld
  = (Err AuthTokenRequired, emptyWorld)
  /\ fst (connect (H := bareDriver) poolOfFive None (remoteOptions (Some "token")) emptyWorld)
     = Err (ConnectionError {| failureCode := None; failureMessage := "no route to host" |}).
Proof.
  split.
  - destruct (remote_connections (H := bareDriver) poolOfFive None (remoteOptions None)
                emptyWorld "libsql://example.turso.io" eq_refl eq_refl) as [Hmissing _].
    + discriminate.
    + apply Hmissing. reflexivity.
  - destruct (remote_connections (H := bareDriver) poolOfFive None
                (remoteOptions (Some "token")) emptyWorld "libsql://example.turso.io"
                eq_refl eq_refl) as [_ Hgiven].
    + discriminate.
    + destruct (Hgiven eq_refl) as (_ & Hfail & _). now apply Hfail.
Defined.

(** The pool of five, refused for [:memory:], is as good as any for a file. *)
Lemma pool_matters_for_temporary_storage_only_witness :
  connect (H := workingDriver) poolOfFive None fileOptions emptyWorld
  = connect (H := workingDriver)
      {| write := {| idleTimeoutMillis := VNumber (Finite 10000);
                     maxUsesPerResource := VNumber PosInfinity;
                     maxSize := VNumber (Finite 1) |};
         read := None |} None fileOptions emptyWorld.
Proof.
  apply (pool_matters_for_temporary_storage_only (H := workingDriver)).
  right. reflexivity.
Defined.

(** Without the package, even a remote target without token is reported
    as a missing driver. *)
Lemma module_failures_come_first_witness :
  connect (H := missingDriver) poolOfFive None (remoteOptions None) emptyWorld
  = (Err DriverMissing, emptyWorld).
Proof.
  destruct (module_failures_come_first (H := missingDriver) poolOfFive None (remoteOptions None)
              emptyWorld _ eq_refl) as (Hworld & Hmissing & _).
  rewrite (surjective_pairing (connect _ _ _ _)), Hworld, Hmissing; [reflexivity|].
  left. reflexivity.
Defined.

(** Closing connection 0 leaves connection 1 as it was. *)
Lemma disconnect_leaves_the_rest_witness :
  closed (snd (disconnect (H := workingDriver) 0 oneConnection)) 1 = closed oneConnection 1
  /\ filename (connectionOf (snd (disconnect (H := workingDriver) 0 oneConnection)) 0)
     = Some ":memory:".
Proof.
  destruct (disconnect_leaves_the_rest (H := workingDriver) 0 1 oneConnection)
    as (_ & Hclosed & Hname & _).
  - discriminate.
  - split; [exact Hclosed|]. rewrite Hname. reflexivity.
Defined.

End ConnectionMore.

(** ** The limit and offset clauses *)

Module QueryGeneratorFacts.

Import QueryGenerator.

Section LimitFacts.

Variable escape : JsValue -> AddLimitOffsetOptions -> string.

(** X25. The fragment built by [addLimitAndOffset] never has an OFFSET
    clause without a LIMIT clause before it: with an offset and no limit
    the limit is [-1]. A falsy offset (0 included) adds nothing, while a
    limit of 0 is written out. The fragment is empty exactly when there is
    neither a limit nor a truthy offset. *)
Theorem offset_comes_with_a_limit (options : AddLimitOffsetOptions) :
  (truthy (offset options) = true ->
   addLimitAndOffset escape options
   = " LIMIT " +:+ (if notNullish (limit options) then escape (limit options) options
                    else "-1")
     +:+ " OFFSET " +:+ escape (offset options) options)
  /\ (truthy (offset options) = false ->
      addLimitAndOffset escape options
      = if notNullish (limit options) then " LIMIT " +:+ escape (limit options) options
        else EmptyString)
  /\ (addLimitAndOffset escape options = EmptyString
      <-> notNullish (limit options) = false /\ truthy (offset options) = false)
  /\ (limit options = VNumber (Finite 0) ->
      startsWith " LIMIT " (addLimitAndOffset escape options) = true).
Proof.
  unfold addLimitAndOffset. cbv zeta.
  split; [|split; [|split]].
  - intros ->. destruct (notNullish (limit options)); reflexivity.
  - intros ->. destruct (notNullish (limit options)); reflexivity.
  - destruct (notNullish (limit options)), (truthy (offset options)); simpl;
      split; try discriminate; try (intros [? ?]; discriminate); try (now split).
  - intros ->. simpl. destruct (truthy (offset options)); reflexivity.
Qed.

End LimitFacts.

End QueryGeneratorFacts.

(** ** The models of an include list *)

Module ModelCollectorFacts.

Import ModelCollector BinderMore.

Section FlatFacts.

Variable merge : JsObject -> JsObject -> JsObject.

Lemma collectInto_flat (prefix : option string) (ret : JsObject) (_include : Include) :
  nested _include = None ->
  collectInto merge prefix ret _include
  = setProp ret (keyOf prefix (includeAs _include)) (includeModel _include).
Proof. destruct _include as [alias model children]. simpl. now intros ->. Qed.

Lemma collect_flat (prefix : option string) (entries : list Include) :
  forall ret : JsObject,
    Forall (fun _include => nested _include = None) entries ->
    NoDup (keys ret) ->
    NoDup (keys (fold_left (collectInto merge prefix) entries ret))
    /\ (forall key,
          hasOwn (fold_left (collectInto merge prefix) entries ret) key
          = hasOwn ret key
            || bool_decide (key ∈ map (fun _include => keyOf prefix (includeAs _include))
                                    entries))
    /\ (forall key,
          key ∉ map (fun _include => keyOf prefix (includeAs _include)) entries ->
          getProp (fold_left (collectInto merge prefix) entries ret) key = getProp ret key).
Proof.
  induction entries as [|entry entries IH]; intros ret Hflat Hnd.
  - cbn [fold_left map]. split; [exact Hnd|]. split; [|reflexivity].
    intros key. rewrite bool_decide_eq_false_2; [now rewrite orb_false_r|].
    intros Hin. inversion Hin.
  - apply Forall_cons in Hflat as [Hentry Hflat]. cbn [fold_left map].
    rewrite (collectInto_flat _ _ _ Hentry).
    destruct (IH (setProp ret (keyOf prefix (includeAs entry)) (includeModel entry)) Hflat)
      as (Hnd' & Hown & Hget).
    { rewrite keys_setProp.
      destruct (hasOwn ret (keyOf prefix (includeAs entry))) eqn:E; [exact Hnd|].
      apply NoDup_app. split; [exact Hnd|]. split; [|apply NoDup_singleton].
      intros k Hk Hk'. apply elem_of_cons in Hk' as [-> | Hk']; [|inversion Hk'].
      apply hasOwn_elem in Hk. congruence. }
    split; [exact Hnd'|]. split.
    + intros key. rewrite Hown, hasOwn_setProp.
      destruct (String.eqb (keyOf prefix (includeAs entry)) key) eqn:E.
      * apply String.eqb_eq in E as <-. cbn [orb].
        rewrite (bool_decide_eq_true_2 (_ ∈ _ :: _)) by (apply elem_of_cons; now left).
        now rewrite orb_true_r.
      * apply String.eqb_neq in E. cbn [orb].
        destruct (hasOwn ret key); [reflexivity|]. cbn [orb].
        apply bool_decide_ext. rewrite elem_of_cons. split; [now right|].
        intros [Heq | Hin]; [congruence | exact Hin].
    + intros key Hkey. apply not_elem_of_cons in Hkey as [Hne Hkey].
      rewrite (Hget key Hkey), getProp_setProp.
      destruct (String.eqb (keyOf prefix (includeAs entry)) key) eqn:E; [|reflexivity].
      apply String.eqb_eq in E. congruence.
Qed.

Lemma collect_empty_prefix (entries : list Include) :
  forall ret : JsObject,
    fold_left (collectInto merge (Some EmptyString)) entries ret
    = fold_left (collectInto merge None) entries ret.
Proof.
  induction entries as [|entry entries IH]; intros ret; [reflexivity|].
  cbn [fold_left]. rewrite IH. now destruct entry.
Qed.

(** X26. For an include list without nested entries, [_collectModels]
    returns an object with one key per alias, the alias itself without
    prefix or with an empty one, else the prefix, a dot and the alias;
    under each key stands the model of the last entry that has it. *)
Theorem flat_includes_by_key (include : list Include) (prefix : option string) :
  Forall (fun _include => nested _include = None) include ->
  NoDup (keys (_collectModels merge (Some include) prefix))
  /\ (forall key,
        hasOwn (_collectModels merge (Some include) prefix) key = true
        <-> key ∈ map (fun _include => keyOf prefix (includeAs _include)) include)
  /\ (forall before _include after,
        include = before ++ _include :: after ->
        keyOf prefix (includeAs _include)
        ∉ map (fun later => keyOf prefix (includeAs later)) after ->
        getProp (_collectModels merge (Some include) prefix)
          (keyOf prefix (includeAs _include))
        = includeModel _include)
  /\ _collectModels merge (Some include) (Some EmptyString)
     = _collectModels merge (Some include) None.
Proof.
  intros Hflat. unfold _collectModels.
  destruct (collect_flat prefix include [] Hflat (NoDup_nil_2 (A := string))) as (Hnd & Hown & _).
  split; [exact Hnd|]. split; [|split].
  - intros key. rewrite Hown. cbn [hasOwn orb]. apply bool_decide_eq_true.
  - intros before entry after -> Hafter. rewrite fold_left_app. cbn [fold_left].
    apply Forall_app in Hflat as [Hbefore Hflat].
    apply Forall_cons in Hflat as [Hentry Hflat].
    rewrite (collectInto_flat _ _ _ Hentry).
    destruct (collect_flat prefix before [] Hbefore (NoDup_nil_2 (A := string))) as (Hnd0 & _ & _).
    destruct (collect_flat prefix after
                (setProp (fold_left (collectInto merge prefix) before [])
                   (keyOf prefix (includeAs entry)) (includeModel entry)) Hflat)
      as (_ & _ & Hget).
    { rewrite keys_setProp.
      destruct (hasOwn (fold_left (collectInto merge prefix) before [])
                  (keyOf prefix (includeAs entry))) eqn:E; [exact Hnd0|].
      apply NoDup_app. split; [exact Hnd0|]. split; [|apply NoDup_singleton].
      intros k Hk Hk'. apply elem_of_cons in Hk' as [-> | Hk']; [|inversion Hk'].
      apply hasOwn_elem in Hk. congruence. }
    rewrite (Hget _ Hafter), getProp_setProp. now rewrite String.eqb_refl.
  - apply collect_empty_prefix.
Qed.

End FlatFacts.

(** Two aliases under the prefix [user], one of them given twice: the
    later model is kept. *)
Lemma flat_includes_by_key_witness :
  getProp (_collectModels (fun ret _ => ret)
             (Some [mkInclude "posts" (VObject 1) None; mkInclude "tags" (VObject 2) None;
                    mkInclude "posts" (VObject 3) None])
             (Some "user")) "user.posts"
  = VObject 3
  /\ keys (_collectModels (fun ret _ => ret)
             (Some [mkInclude "posts" (VObject 1) None; mkInclude "tags" (VObject 2) None;
                    mkInclude "posts" (VObject 3) None])
             (Some "user"))
     = ["user.posts"; "user.tags"].
Proof.
  destruct (flat_includes_by_key (fun ret _ => ret)
              [mkInclude "posts" (VObject 1) None; mkInclude "tags" (VObject 2) None;
               mkInclude "posts" (VObject 3) None] (Some "user"))
    as (_ & _ & Hlast & _).
  - repeat constructor.
  - split; [|reflexivity].
    apply (Hlast [mkInclude "posts" (VObject 1) None; mkInclude "tags" (VObject 2) None]
                 (mkInclude "posts" (VObject 3) None) []).
    + reflexivity.
    + intros Hin. inversion Hin.
Defined.

End ModelCollectorFacts.

(** ** The loading of the driver module *)

Module ModuleLoaderFacts.

Import ConnectionManager ModuleLoader MoreSamples.

Section LoaderFacts.

Context {TursoModule : Type}.
Variable importModule : nat -> result Failure TursoModule.

Lemma getLib_unset (this : Manager TursoModule) (g : Globals TursoModule) :
  lib this = None ->
  libPromise this = None ->
  getLib importModule (this, g)
  = match loadDefaultTursoModule importModule g with
    | (Ok module, g') => (Ok module, ({| lib := Some module; libPromise := Some module |}, g'))
    | (Err error, g') => (Err error, (this, g'))
    end.
Proof.
  intros Hlib Hpromise. unfold getLib. rewrite Hlib, Hpromise.
  destruct (loadDefaultTursoModule importModule g) as [[module|error] g']; [reflexivity|].
  destruct this as [l p]. simpl in *. now subst.
Qed.

Lemma loadDefaultTursoModule_again (g : Globals TursoModule) (module : TursoModule) :
  fst (loadDefaultTursoModule importModule g) = Ok module ->
  loadDefaultTursoModule importModule (snd (loadDefaultTursoModule importModule g))
  = (Ok module, snd (loadDefaultTursoModule importModule g))
  /\ imports (snd (loadDefaultTursoModule importModule g)) <= S (imports g).
Proof.
  unfold loadDefaultTursoModule.
  destruct (cachedDefaultModule g) as [cached|] eqn:Ecached.
  - simpl. intros [= ->]. rewrite Ecached. split; [reflexivity | lia].
  - destruct (defaultModulePromise g) as [promised|] eqn:Epromise.
    + simpl. intros [= ->]. rewrite Ecached, Epromise. split; [reflexivity | lia].
    + destruct (importModule (imports g)) as [imported|error]; simpl; [|discriminate].
      intros [= ->]. split; [reflexivity | lia].
Qed.

(** X27. For calls that do not overlap: once [#getLib] has resolved with
    the default driver module, every later call resolves with that same
    module without importing anything, on the same manager as on any
    other manager of the process; the call itself started one import at
    most. A manager built with a module of its own never imports. *)
Theorem module_is_imported_once (this : Manager TursoModule) (g : Globals TursoModule)
    (module : TursoModule) :
  lib this = None ->
  libPromise this = None ->
  fst (getLib importModule (this, g)) = Ok module ->
  getLib importModule (snd (getLib importModule (this, g)))
  = (Ok module, snd (getLib importModule (this, g)))
  /\ imports (snd (snd (getLib importModule (this, g)))) <= S (imports g)
  /\ (forall other : Manager TursoModule,
        lib other = None -> libPromise other = None ->
        fst (getLib importModule (other, snd (snd (getLib importModule (this, g)))))
        = Ok module
        /\ snd (snd (getLib importModule (other, snd (snd (getLib importModule (this, g))))))
           = snd (snd (getLib importModule (this, g))))
  /\ (forall given : TursoModule,
        getLib importModule (newManager (Some given), g)
        = (Ok given, (newManager (Some given), g))).
Proof.
  intros Hlib Hpromise. rewrite (getLib_unset this g Hlib Hpromise).
  pose proof (loadDefaultTursoModule_again g) as Hagain.
  destruct (loadDefaultTursoModule importModule g) as [[loaded|error] g']; cbn [fst snd];
    [|discriminate].
  intros [= ->]. destruct (Hagain module eq_refl) as [Hload Himports].
  cbn [fst snd] in Hload, Himports.
  split; [reflexivity|]. split; [exact Himports|]. split; [|reflexivity].
  intros other Holib Hopromise. rewrite (getLib_unset other g' Holib Hopromise), Hload.
  now split.
Qed.

(** X28. For calls that do not overlap: a failed import is not cached.
    The call rejects with the error of the import and leaves the manager
    and the variables of the module as they were before any import, so
    that the next call imports again and settles as that new import
    does. *)
Theorem failed_import_is_tried_again (this : Manager TursoModule) (g : Globals TursoModule)
    (error : Failure) :
  lib this = None ->
  libPromise this = None ->
  cachedDefaultModule g = None ->
  defaultModulePromise g = None ->
  importModule (imports g) = Err error ->
  getLib importModule (this, g)
  = (Err error,
     (this, {| cachedDefaultModule := None; defaultModulePromise := None;
               imports := S (imports g) |}))
  /\ fst (getLib importModule (snd (getLib importModule (this, g))))
     = importModule (S (imports g)).
Proof.
  intros Hlib Hpromise Hcached Hdefault Himport.
  assert (getLib importModule (this, g)
          = (Err error,
             (this, {| cachedDefaultModule := None; defaultModulePromise := None;
                       imports := S (imports g) |}))) as Hfirst.
  { unfold getLib, loadDefaultTursoModule.
    rewrite Hlib, Hpromise, Hcached, Hdefault, Himport.
    destruct this as [l p]. simpl in *. now subst. }
  split; [exact Hfirst|]. rewrite Hfirst. simpl.
  unfold getLib, loadDefaultTursoModule. rewrite Hlib, Hpromise. simpl.
  now destruct (importModule (S (imports g))).
Qed.

End LoaderFacts.

(** After a first failed import, a manager loads the module, and a second
    manager gets it without a third import. *)
Lemma module_is_imported_once_witness :
  fst (getLib flakyImport (newManager None, nothingLoaded 1)) = Ok "@tursodatabase/database"
  /\ imports (snd (snd (getLib flakyImport
                          (newManager None,
                           snd (snd (getLib flakyImport (newManager None, nothingLoaded 1)))))))
     = 2.
Proof.
  split; [reflexivity|].
  destruct (module_is_imported_once flakyImport (newManager None) (nothingLoaded 1)
              "@tursodatabase/database" eq_refl eq_refl eq_refl) as (_ & _ & Hother & _).
  destruct (Hother (newManager None) eq_refl eq_refl) as [_ Hsame].
  rewrite Hsame. reflexivity.
Defined.

(** The first import fails, the second call imports again and succeeds. *)
Lemma failed_import_is_tried_again_witness :
  fst (getLib flakyImport (newManager None, nothingLoaded 0))
  = Err {| failureCode := Some "ERR_MODULE_NOT_FOUND"; failureMessage := "Cannot find package" |}
  /\ fst (getLib flakyImport (snd (getLib flakyImport (newManager None, nothingLoaded 0))))
     = Ok "@tursodatabase/database".
Proof.
  destruct (failed_import_is_tried_again flakyImport (newManager None) (nothingLoaded 0)
              {| failureCode := Some "ERR_MODULE_NOT_FOUND";
                 failureMessage := "Cannot find package" |}
              eq_refl eq_refl eq_refl eq_refl eq_refl) as [Hfirst Hnext].
  split; [now rewrite Hfirst | exact Hnext].
Defined.

End ModuleLoaderFacts.
